(** * new_buffer: a growable array with four storage layouts

    Shallow embedding of [src/new_buffer.h] and verification of the
    properties its specification states, followed by further properties
    of the code.

    Conventions of the embedding.

    - A size type [SZ] is one of the fixed-width unsigned integer types.
      Values are integers in [0, 2^digits); every store into an [SZ]
      variable is written with its wrap-around ([to_SZ]).  Operands
      narrower than [int] are promoted to [int] before arithmetic, as the
      language prescribes, and only the final conversion wraps.
    - Memory is a list of slots.  A slot is either raw storage or holds a
      live object.  A pointer into an allocation is the allocation (an
      owning pointer) together with an offset.
    - The element-wise overloads of [copy_into], [move_into],
      [move_around], [destroy] and [reallocate] are the ones embedded.  The
      overloads selected for trivial element types replace them by
      [memcpy], [memmove] and [realloc]; the header states that these are
      the same operations flattened.
    - An access outside an allocation, or a read of a raw slot, has no
      defined behaviour in the source; the embedding returns [None] there.
      A destructor call ends the lifetime of the object in a slot; on a
      slot that holds no object, and past the end of the allocation, the
      embedding leaves memory as it is.
    - A parameter of type [value_type const&] is a [reference]: either an
      object outside the buffer, or one of the buffer's own elements,
      given by its index.  A reference to an element is read where the
      source reads it, from the storage as it is then; once [reallocate]
      has destroyed the elements and replaced the storage, the reference
      dangles and reading it has no defined behaviour.
    - Moving from an object leaves it alive with the value the element
      type's move constructor leaves behind ([moved_from]), where the
      source keeps the moved-from object.
    - [SASSERT] is the debug-only assertion; the embedding is the release
      build, in which it expands to nothing.
    - The allocator always succeeds. *)

From stdpp Require Import base option list gmap.
From Stdlib Require Import ZArith Lia.

Local Open Scope Z_scope.

(** ** Size types *)

Inductive size_type := uint8 | uint16 | uint32 | uint64.

(** [std::numeric_limits<SZ>::digits] *)
Definition digits (SZ : size_type) : Z :=
  match SZ with
  | uint8 => 8
  | uint16 => 16
  | uint32 => 32
  | uint64 => 64
  end.

Definition modulus (SZ : size_type) : Z := 2 ^ digits SZ.

(** Conversion of an integer value to [SZ]. *)
Definition to_SZ (SZ : size_type) (x : Z) : Z := x mod modulus SZ.

(** Types of rank below [int] are promoted to [int] in arithmetic. *)
Definition promotes_to_int (SZ : size_type) : bool := digits SZ <? 32.

(** The expression [(3 * cap + 1) / 2] for [cap] of type [SZ], converted to
    [SZ] on return. *)
Definition three_halves (SZ : size_type) (cap : Z) : Z :=
  if promotes_to_int SZ then to_SZ SZ ((3 * cap + 1) / 2)
  else to_SZ SZ (3 * cap + 1) / 2.

(** [cap == 0 ? 2 : (3 * cap + 1) / 2], the body shared by the four
    [next_capacity] members. *)
Definition grow (SZ : size_type) (cap : Z) : Z :=
  if cap =? 0 then 2 else three_halves SZ cap.

(** The value of [size - index - 1], computed at type [SZ] (or at [int]
    after promotion), once converted to [std::size_t]. *)
Definition count_after (SZ : size_type) (size index : Z) : Z :=
  if promotes_to_int SZ then (size - index - 1) mod 2 ^ 64
  else to_SZ SZ (size - index - 1).

(** Conversion of an integer value to [unsigned]. *)
Definition to_unsigned (x : Z) : Z := x mod 2 ^ 32.

(** The growth policy as the specification words it. *)
Definition growth_policy (current : Z) : Z :=
  if current =? 0 then 2 else (3 * current + 1) / 2.

(** The capacities at which [next_capacity] does not wrap: at a size type
    promoted to [int] the value returned has to fit the size type, at the
    other size types the intermediate [3 * cap + 1] has to. *)
Definition grows_exactly (SZ : size_type) (cap : Z) : Prop :=
  if promotes_to_int SZ then growth_policy cap < modulus SZ
  else 3 * cap + 1 < modulus SZ.

(** ** Raw memory and the bulk primitives *)

Inductive slot (T : Type) := Raw | Live (v : T).

Arguments Raw {T}.
Arguments Live {T} v.

(** What an argument of type [value_type const&] refers to: an object
    outside the buffer, or the element at an index of the buffer the
    member function is called on. *)
Inductive reference (T : Type) := object (v : T) | element (index : Z).

Arguments object {T} v.
Arguments element {T} index.

(** An allocation, one slot per element. *)
Abbreviation block T := (list (slot T)).

Section Memory.
Context {T : Type}.

(** [memory::allocate] for [n] elements: fresh raw storage. *)
Definition allocate (n : Z) : block T := replicate (Z.to_nat n) Raw.

(** Reading the object at [p[i]]. *)
Definition read_at (p : block T) (i : Z) : option T :=
  if decide (0 <= i) then
    match p !! Z.to_nat i with
    | Some (Live v) => Some v
    | _ => None
    end
  else None.

(** [::new(p + i) value_type(v)] *)
Definition construct_at (p : block T) (i : Z) (v : T) : option (block T) :=
  if decide (0 <= i < Z.of_nat (length p)) then Some (<[Z.to_nat i := Live v]> p)
  else None.

(** [p[i].~value_type()] *)
Definition destroy_at (p : block T) (i : Z) : block T :=
  if decide (0 <= i) then <[Z.to_nat i := Raw]> p else p.

(** [for(; begin < end; ++begin) begin->~T();] with [begin = p + first] and
    [end = p + last]. *)
Definition destroy (p : block T) (first last : Z) : block T :=
  foldl destroy_at p (seqZ first (last - first)).

(** [std::uninitialized_copy(source, source + count, destination)]: the
    loop is unrolled from index [i] for [n] more elements. *)
Fixpoint uninitialized_copy (destination source : block T) (i : Z) (n : nat) : option (block T) :=
  match n with
  | O => Some destination
  | S n' =>
      v ← read_at source i;
      d ← construct_at destination i v;
      uninitialized_copy d source (i + 1) n'
  end.

Definition copy_into (destination source : block T) (count : Z) : option (block T) :=
  uninitialized_copy destination source 0 (Z.to_nat count).

(** Moving leaves the source objects alive, in the state the move
    constructor leaves its source in; [moved_out] is the source
    afterwards. *)
Definition move_into (destination source : block T) (count : Z) : option (block T) :=
  uninitialized_copy destination source 0 (Z.to_nat count).

Definition moved_out (moved_from : T → T) (source : block T) (count : Z) : block T :=
  ((λ s, match s with Live v => Live (moved_from v) | Raw => Raw end)
     <$> take (Z.to_nat count) source)
  ++ drop (Z.to_nat count) source.

(** One step of the loops of [move_around]:
    [new(destination + i) T(std::move(source[i])); source[i].~T();]
    where [destination = p + d] and [source = p + s]. *)
Definition move_one (p : block T) (d s i : Z) : option (block T) :=
  v ← read_at p (s + i);
  p' ← construct_at p (d + i) v;
  Some (destroy_at p' (s + i)).

(** [for(i = 0; i < count; ++i)], unrolled from [i] for [n] more steps. *)
Fixpoint move_forward (p : block T) (d s i : Z) (n : nat) : option (block T) :=
  match n with
  | O => Some p
  | S n' => p' ← move_one p d s i; move_forward p' d s (i + 1) n'
  end.

(** [for(i = count; i > 0; ) { --i; ... }], with [n] the current [i]. *)
Fixpoint move_backward (p : block T) (d s : Z) (n : nat) : option (block T) :=
  match n with
  | O => Some p
  | S n' => p' ← move_one p d s (Z.of_nat n'); move_backward p' d s n'
  end.

Definition move_around (p : block T) (d s count : Z) : option (block T) :=
  if d <? s then move_forward p d s 0 (Z.to_nat count)
  else move_backward p d s (Z.to_nat count).

(** [std::find(p + first, p + last, element)] as an offset from [p]; the
    scan is unrolled for [n] more elements. *)
Fixpoint find_from `{EqDecision T} (p : block T) (i : Z) (n : nat) (element : T) : option Z :=
  match n with
  | O => Some i
  | S n' =>
      v ← read_at p i;
      if decide (v = element) then Some i else find_from p (i + 1) n' element
  end.

Definition std_find `{EqDecision T} (p : block T) (first last : Z) (element : T) : option Z :=
  find_from p first (Z.to_nat (last - first)) element.

(** Reading through a [value_type const&] argument.  A reference to an
    element refers into the allocation the buffer owned when the member
    function was called.  While that allocation is still the storage [p]
    ([in_place]), the read gives the object now at that place; once
    [reallocate] has destroyed and released the allocation, there is
    nothing to read. *)
Definition read_reference (value : reference T) (in_place : bool) (p : block T) : option T :=
  match value with
  | object v => Some v
  | element index => if in_place then read_at p index else None
  end.

(** [for(i = first; i < last; ++i) ::new(p + i) value_type(value);],
    unrolled from [i] for [n] more elements; [value] is read in every
    round. *)
Fixpoint construct_from (p : block T) (i : Z) (n : nat) (value : reference T)
    (in_place : bool) : option (block T) :=
  match n with
  | O => Some p
  | S n' =>
      v ← read_reference value in_place p;
      p' ← construct_at p i v;
      construct_from p' (i + 1) n' value in_place
  end.

Definition construct_range (p : block T) (first last : Z) (value : reference T)
    (in_place : bool) : option (block T) :=
  construct_from p first (Z.to_nat (last - first)) value in_place.

(** [p[i] = v]: assignment to the object at [p[i]]. *)
Definition assign_at (p : block T) (i : Z) (v : T) : option (block T) :=
  _ ← read_at p i;
  Some (<[Z.to_nat i := Live v]> p).

(** [std::fill(p + first, p + last, v)]:
    [for(; first != last; ++first) *first = v;], unrolled from [i] for [n]
    more elements. *)
Fixpoint fill_from (p : block T) (i : Z) (n : nat) (v : T) : option (block T) :=
  match n with
  | O => Some p
  | S n' => p' ← assign_at p i v; fill_from p' (i + 1) n' v
  end.

Definition std_fill (p : block T) (first last : Z) (v : T) : option (block T) :=
  fill_from p first (Z.to_nat (last - first)) v.

(** [std::iter_swap(p + i, p + j)]: the two objects are exchanged through
    a temporary. *)
Definition iter_swap (p : block T) (i j : Z) : option (block T) :=
  x ← read_at p i;
  y ← read_at p j;
  p' ← assign_at p i y;
  assign_at p' j x.

(** The loop of [std::reverse] on random-access iterators:
    [while(first < last) { std::iter_swap(first, last); ++first; --last; }],
    with fuel [n]. *)
Fixpoint reverse_loop (p : block T) (first last : Z) (n : nat) : option (block T) :=
  match n with
  | O => Some p
  | S n' =>
      if first <? last then
        p' ← iter_swap p first last;
        reverse_loop p' (first + 1) (last - 1) n'
      else Some p
  end.

(** [std::reverse(p + first, p + last)]:
    [if(first == last) return; --last;] and the loop, which ends within
    [last - first] rounds. *)
Definition std_reverse (p : block T) (first last : Z) : option (block T) :=
  if first =? last then Some p
  else reverse_loop p first (last - 1) (Z.to_nat (last - first)).

(** The objects in the first [n] slots, if all of them are alive. *)
Definition objects (p : block T) (n : Z) : option (list T) :=
  if decide (n <= Z.of_nat (length p)) then
    mapM (λ s, match s with Live v => Some v | Raw => None end) (take (Z.to_nat n) p)
  else None.

(** A block of [cap] slots whose first slots hold [vs] and whose other
    slots are raw: the invariant of the data model. *)
Definition filled (vs : list T) (cap : Z) : block T :=
  (Live <$> vs) ++ replicate (Z.to_nat cap - length vs)%nat Raw.

(** The object a reference denotes when the buffer holds [vs]. *)
Definition referent (value : reference T) (vs : list T) : option T :=
  match value with
  | object v => Some v
  | element index => if decide (0 <= index) then vs !! Z.to_nat index else None
  end.

End Memory.

(** ** Objects and references

    Member functions that take a second buffer by reference are embedded
    on a store of objects, so that [this] and [other] may be the same
    object. *)

Definition addr := nat.

(** Runs [f] on the two distinct objects at [a] and [b] and writes both
    back. *)
Definition on_two {B : Type} (f : B → B → option (B * B)) (a b : addr)
    (st : gmap addr B) : option (gmap addr B) :=
  x ← st !! a;
  y ← st !! b;
  r ← f x y;
  Some (<[b := r.2]> (<[a := r.1]> st)).

(** ** V-inline: [new_buffer<T, SZ, INITIAL_SIZE>] *)

Module VInline.
Section VInline.
Context {T : Type}.
Variable SZ : size_type.
Variable INITIAL_SIZE : Z.

Definition initial_size : Z := to_SZ SZ INITIAL_SIZE.

(** [m_data] either points at the object's own [m_initial_buffer] or owns
    a heap allocation. *)
Inductive pointer := initial_buffer | heap (p : block T).

Record new_buffer := mk {
  m_data : pointer;
  m_size : Z;
  m_capacity : Z;
  m_initial_buffer : block T
}.

(** The default member initialisers; the inline slots are uninitialised. *)
Definition empty_buffer : new_buffer :=
  {| m_data := initial_buffer; m_size := 0; m_capacity := initial_size;
     m_initial_buffer := allocate initial_size |}.

(** The storage [m_data] points at. *)
Definition ptr (b : new_buffer) : block T :=
  match m_data b with
  | initial_buffer => m_initial_buffer b
  | heap p => p
  end.

(** The effect on [b] of writes through [m_data] that leave the storage
    as [p]. *)
Definition with_storage (b : new_buffer) (p : block T) : new_buffer :=
  match m_data b with
  | initial_buffer => mk initial_buffer (m_size b) (m_capacity b) p
  | heap _ => mk (heap p) (m_size b) (m_capacity b) (m_initial_buffer b)
  end.

Definition with_size (b : new_buffer) (n : Z) : new_buffer :=
  mk (m_data b) n (m_capacity b) (m_initial_buffer b).

Definition with_capacity (b : new_buffer) (n : Z) : new_buffer :=
  mk (m_data b) (m_size b) n (m_initial_buffer b).

Definition is_inline (b : new_buffer) : bool :=
  match m_data b with initial_buffer => true | heap _ => false end.

Definition size (b : new_buffer) : Z := m_size b.
Definition capacity (b : new_buffer) : Z := m_capacity b.
Definition empty (b : new_buffer) : bool := size b =? 0.

Definition next_capacity (b : new_buffer) : Z :=
  let cap := capacity b in
  if cap =? 0 then 2 else three_halves SZ cap.

(** The old storage is destroyed element by element; a heap allocation is
    then released, the inline slots stay in the object. *)
Definition reallocate (new_capacity : Z) (b : new_buffer) : option new_buffer :=
  new_buffer ← move_into (allocate new_capacity) (ptr b) (m_size b);
  let b := with_storage b (destroy (ptr b) 0 (m_size b)) in
  Some (mk (heap new_buffer) (m_size b) new_capacity (m_initial_buffer b)).

Definition clear (b : new_buffer) : new_buffer :=
  with_size (with_storage b (destroy (ptr b) 0 (size b))) 0.

Definition reserve (new_capacity : Z) (b : new_buffer) : option new_buffer :=
  if capacity b <? new_capacity then reallocate new_capacity b else Some b.

Definition shrink_to_fit (b : new_buffer) : option new_buffer :=
  if m_size b <=? initial_size then
    match m_data b with
    | heap p =>
        ib ← move_into (m_initial_buffer b) p (m_size b);
        Some (mk initial_buffer (m_size b) (m_capacity b) ib)
    | initial_buffer => Some b
    end
  else if size b <? capacity b then reallocate (m_size b) b
  else Some b.

(** [push_back(value_type const& value)].  [value] is read after
    [reallocate] has run; [in_place] says that the storage has not been
    replaced. *)
Definition push_back (value : reference T) (b : new_buffer) : option new_buffer :=
  let size := size b in
  let in_place := negb (size >=? capacity b) in
  b ← (if size >=? capacity b then reallocate (next_capacity b) b else Some b);
  v ← read_reference value in_place (ptr b);
  p ← construct_at (ptr b) size v;
  let b := with_storage b p in
  Some (with_size b (to_SZ SZ (m_size b + 1))).

(** [end()->~value_type(); --m_size;] *)
Definition pop_back (b : new_buffer) : new_buffer :=
  let b := with_storage b (destroy_at (ptr b) (size b)) in
  with_size b (to_SZ SZ (m_size b - 1)).

(** [new_buffer(new_buffer&& other)]: the new object and what is left of
    [other]. *)
Definition move_construct (other : new_buffer) : option (new_buffer * new_buffer) :=
  match m_data other with
  | heap p =>
      let this := mk (heap p) (m_size other) (m_capacity other) (allocate initial_size) in
      let other := mk initial_buffer (m_size other) (m_capacity other) (m_initial_buffer other) in
      let other := with_size other 0 in
      let other := with_size other initial_size in
      Some (this, other)
  | initial_buffer =>
      let this := mk initial_buffer (m_size other) initial_size (allocate initial_size) in
      p ← move_into (ptr this) (ptr other) (m_size this);
      let this := with_storage this p in
      let other := with_storage other (destroy (ptr other) 0 (size other)) in
      let other := with_size other 0 in
      Some (this, other)
  end.

(** The state in which the move constructor of [T] leaves its source. *)
Variable moved_from : T → T.

(** The body of [operator=(new_buffer&& other)] under [this != &other].
    From a source in inline storage the elements are moved one by one, and
    the source keeps its size and the moved-from objects. *)
Definition move_assign_distinct (this other : new_buffer) : option (new_buffer * new_buffer) :=
  match m_data other with
  | heap q =>
      match m_data this with
      | heap p =>
          Some (mk (heap q) (m_size other) (m_capacity other) (m_initial_buffer this),
                mk (heap p) (m_size this) (m_capacity this) (m_initial_buffer other))
      | initial_buffer =>
          let this := with_storage this (destroy (ptr this) 0 (size this)) in
          let this := mk (heap q) (m_size other) (m_capacity other) (m_initial_buffer this) in
          let other := mk initial_buffer (m_size other) (m_capacity other) (m_initial_buffer other) in
          let other := with_size other 0 in
          let other := with_size other initial_size in
          Some (this, other)
      end
  | initial_buffer =>
      let this := with_storage this (destroy (ptr this) 0 (size this)) in
      let this := with_size this (m_size other) in
      p ← move_into (ptr this) (ptr other) (m_size this);
      Some (with_storage this p,
            with_storage other (moved_out moved_from (ptr other) (m_size this)))
  end.

Definition move_assign (this other : addr) (st : gmap addr new_buffer) : option (gmap addr new_buffer) :=
  if decide (this ≠ other) then on_two move_assign_distinct this other st
  else Some st.

(** The body of [operator=(new_buffer const& other)] under
    [this != &other]. *)
Definition copy_assign_distinct (this other : new_buffer) : option (new_buffer * new_buffer) :=
  let this := clear this in
  this ← reserve (m_size other) this;
  let this := with_size this (m_size other) in
  p ← copy_into (ptr this) (ptr other) (m_size this);
  Some (with_storage this p, other).

Definition copy_assign (this other : addr) (st : gmap addr new_buffer) : option (gmap addr new_buffer) :=
  if decide (this ≠ other) then on_two copy_assign_distinct this other st
  else Some st.

(** [friend void swap(new_buffer& lhs, new_buffer& rhs)] on two distinct
    objects. *)
Definition swap (lhs rhs : new_buffer) : option (new_buffer * new_buffer) :=
  match m_data lhs with
  | heap lp =>
      match m_data rhs with
      | heap rp =>
          Some (mk (heap rp) (m_size rhs) (m_capacity rhs) (m_initial_buffer lhs),
                mk (heap lp) (m_size lhs) (m_capacity lhs) (m_initial_buffer rhs))
      | initial_buffer =>
          lib ← move_into (m_initial_buffer lhs) (ptr rhs) (m_size rhs);
          let rhs := with_storage rhs (destroy (ptr rhs) 0 (m_size rhs)) in
          let rhs := mk (heap lp) (m_size rhs) (m_capacity rhs) (m_initial_buffer rhs) in
          let rhs := with_capacity rhs (m_capacity rhs) in
          let lhs := mk initial_buffer (m_size lhs) (m_capacity lhs) lib in
          let lhs := with_capacity lhs initial_size in
          Some (lhs, rhs)
      end
  | initial_buffer =>
      match m_data rhs with
      | heap rp =>
          rib ← move_into (m_initial_buffer rhs) (ptr lhs) (m_size lhs);
          let lhs := with_storage lhs (destroy (ptr lhs) 0 (m_size lhs)) in
          let lhs := mk (heap rp) (m_size lhs) (m_capacity lhs) (m_initial_buffer lhs) in
          let lhs := with_capacity lhs (m_capacity lhs) in
          let rhs := mk initial_buffer (m_size rhs) (m_capacity rhs) rib in
          let rhs := with_capacity rhs initial_size in
          Some (lhs, rhs)
      | initial_buffer =>
          let rhs := with_capacity rhs (next_capacity rhs) in
          buffer ← move_into (allocate (m_capacity rhs)) (ptr lhs) (m_size lhs);
          let lhs := with_storage lhs (destroy (ptr lhs) 0 (m_size lhs)) in
          lp ← move_into (ptr lhs) (ptr rhs) (m_size rhs);
          let lhs := with_storage lhs lp in
          let rhs := with_storage rhs (destroy (ptr rhs) 0 (m_size rhs)) in
          let rhs := mk (heap buffer) (m_size rhs) (m_capacity rhs) (m_initial_buffer rhs) in
          Some (with_size lhs (m_size rhs), with_size rhs (m_size lhs))
      end
  end.

(** The sequence an iteration from [begin()] to [end()] yields. *)
Definition elements (b : new_buffer) : option (list T) := objects (ptr b) (size b).

(** The invariant of the data model, for a buffer holding [vs]: the first
    [size] slots hold the elements, the slots up to [capacity] are raw, and
    both fit the size type. *)
Definition holds (b : new_buffer) (vs : list T) : Prop :=
  m_size b = Z.of_nat (length vs) ∧
  Z.of_nat (length vs) <= m_capacity b < modulus SZ ∧
  ptr b = filled vs (m_capacity b).

(** The capacity invariant of V-inline. *)
Definition capacity_invariant (b : new_buffer) : Prop :=
  initial_size <= capacity b ∧ (is_inline b = true → capacity b = initial_size).

(** The value of [value_type()]. *)
Variable value_init : T.

(** [new_buffer(new_buffer const& other)] *)
Definition copy_construct (other : new_buffer) : option new_buffer :=
  let pos := m_size other in
  let this :=
    if pos <=? initial_size
    then mk initial_buffer pos initial_size (allocate initial_size)
    else mk (heap (allocate pos)) pos pos (allocate initial_size) in
  p ← copy_into (ptr this) (ptr other) pos;
  Some (with_storage this p).

(** [new_buffer(size_type count, value_type const& elem)]; [elem] cannot
    refer to an element of the buffer under construction. *)
Definition construct_count (count : Z) (elem : T) : option new_buffer :=
  let this :=
    if count <=? initial_size
    then mk initial_buffer count initial_size (allocate initial_size)
    else mk (heap (allocate count)) count count (allocate initial_size) in
  p ← construct_range (ptr this) 0 count (object elem) true;
  Some (with_storage this p).

(** [resize(count, value_type const& value)].  [value] is read in every
    round of the loop, after [reserve] may have reallocated; [in_place] says
    that it has not.  [resize(count)] constructs [value_type()]
    instead. *)
Definition resize_with (count : Z) (value : reference T) (b : new_buffer) : option new_buffer :=
  let in_place := negb (capacity b <? count) in
  b ← reserve count b;
  let ptr_ := ptr b in
  let size := size b in
  let b := with_storage b (destroy ptr_ count size) in
  p ← construct_range (ptr b) size count value in_place;
  Some (with_size (with_storage b p) count).

Definition resize (count : Z) (b : new_buffer) : option new_buffer :=
  resize_with count (object value_init) b.

(** [operator[](index)], read through the reference it returns. *)
Definition at_index (index : Z) (b : new_buffer) : option T := read_at (ptr b) index.

(** [front()] is [begin()[0]], [back()] is [end()[-1]]. *)
Definition front (b : new_buffer) : option T := read_at (ptr b) 0.
Definition back (b : new_buffer) : option T := read_at (ptr b) (size b - 1).

Definition get (index : Z) (b : new_buffer) : option T := at_index index b.

(** [set(index, value)] assigns [value] to the element [operator[](index)]
    refers to. *)
Definition set (index : Z) (value : T) (b : new_buffer) : option new_buffer :=
  p ← assign_at (ptr b) index value;
  Some (with_storage b p).

Definition reset (b : new_buffer) : new_buffer := clear b.

(** [finalize()] is [clear(); shrink_to_fit();]. *)
Definition finalize (b : new_buffer) : option new_buffer := shrink_to_fit (clear b).

Definition shrink (count : Z) (b : new_buffer) : option new_buffer := resize count b.

(** [append(unsigned n, T const* elems)]:
    [for(unsigned i = 0; i < n; i++) push_back(elems[i]);], unrolled from
    [i] for [k] more elements; [elems] is an array outside the buffer. *)
Fixpoint append_from (elems : block T) (i : Z) (k : nat) (b : new_buffer) : option new_buffer :=
  match k with
  | O => Some b
  | S k' =>
      v ← read_at elems i;
      b ← push_back (object v) b;
      append_from elems (i + 1) k' b
  end.

Definition append (n : Z) (elems : block T) (b : new_buffer) : option new_buffer :=
  append_from elems 0 (Z.to_nat n) b.

(** [append(const new_buffer& source)] for a [source] that is another
    object. *)
Definition append_buffer (source : new_buffer) (b : new_buffer) : option new_buffer :=
  append (to_unsigned (size source)) (ptr source) b.

End VInline.

Arguments pointer : clear implicits.
Arguments new_buffer : clear implicits.
End VInline.

(** ** V-header: [new_buffer<T, SZ, 0>] *)

Module VHeader.
Section VHeader.
Context {T : Type} `{EqDecision T}.
Variable SZ : size_type.
(** The value of [value_type()]. *)
Variable value_init : T.

(** One allocation: the header fields, then the element slots. *)
Record allocation := mk_allocation {
  h_size : Z;
  h_capacity : Z;
  slots : block T
}.

(** [m_data] is null ([None]) or points at the slots of an allocation. *)
Record new_buffer := mk { m_data : option allocation }.

Definition empty_buffer : new_buffer := mk None.

Definition ptr (b : new_buffer) : block T :=
  match m_data b with Some a => slots a | None => [] end.

Definition size (b : new_buffer) : Z :=
  match m_data b with Some a => h_size a | None => 0 end.

Definition capacity (b : new_buffer) : Z :=
  match m_data b with Some a => h_capacity a | None => 0 end.

Definition empty (b : new_buffer) : bool := size b =? 0.

(** Writes through [m_data] that leave the slots as [p]. *)
Definition with_storage (b : new_buffer) (p : block T) : new_buffer :=
  mk ((λ a, mk_allocation (h_size a) (h_capacity a) p) <$> m_data b).

(** [header()->m_size = n]; the header of a null buffer cannot be
    written. *)
Definition set_size (n : Z) (b : new_buffer) : option new_buffer :=
  a ← m_data b;
  Some (mk (Some (mk_allocation n (h_capacity a) (slots a)))).

Definition next_capacity (b : new_buffer) : Z :=
  let cap := capacity b in
  if cap =? 0 then 2 else three_halves SZ cap.

Definition reallocate (new_capacity : Z) (b : new_buffer) : option new_buffer :=
  match m_data b with
  | None => Some (mk (Some (mk_allocation 0 new_capacity (allocate new_capacity))))
  | Some a =>
      let size := h_size a in
      p ← move_into (allocate new_capacity) (ptr b) size;
      Some (mk (Some (mk_allocation size new_capacity p)))
  end.

Definition clear (b : new_buffer) : new_buffer :=
  match m_data b with
  | Some a => mk (Some (mk_allocation 0 (h_capacity a) (destroy (slots a) 0 (h_size a))))
  | None => b
  end.

Definition _reserve (new_capacity : Z) (b : new_buffer) : option new_buffer :=
  if new_capacity >? capacity b then reallocate new_capacity b else Some b.

(** [resize(count, value_type const& value)].  [value] is read in every
    round of the loop, after [_reserve] may have reallocated; [in_place] says
    that it has not.  [resize(count)] constructs [value_type()]
    instead. *)
Definition resize_with (count : Z) (value : reference T) (b : new_buffer) : option new_buffer :=
  if count =? 0 then Some (clear b)
  else
    let in_place := negb (count >? capacity b) in
    b ← _reserve count b;
    let size := size b in
    let b := with_storage b (destroy (ptr b) count size) in
    p ← construct_range (ptr b) size count value in_place;
    set_size count (with_storage b p).

Definition resize (count : Z) (b : new_buffer) : option new_buffer :=
  resize_with count (object value_init) b.

Definition reserve (count : Z) (b : new_buffer) : option new_buffer :=
  if count >? size b then resize count b else Some b.

Definition shrink_to_fit (b : new_buffer) : option new_buffer :=
  if size b >? 0 then
    if size b <? capacity b then reallocate (size b) b else Some b
  else Some (mk None).

(** [push_back(value_type const& value)].  [value] is read after
    [reallocate] has run; [in_place] says that the storage has not been
    replaced. *)
Definition push_back (value : reference T) (b : new_buffer) : option new_buffer :=
  let size := size b in
  let in_place := negb (size >=? capacity b) in
  b ← (if size >=? capacity b then reallocate (next_capacity b) b else Some b);
  v ← read_reference value in_place (ptr b);
  p ← construct_at (ptr b) size v;
  let b := with_storage b p in
  a ← m_data b;
  set_size (to_SZ SZ (h_size a + 1)) b.

(** [end()->~value_type(); --header()->m_size;] *)
Definition pop_back (b : new_buffer) : option new_buffer :=
  let b := with_storage b (destroy_at (ptr b) (size b)) in
  a ← m_data b;
  set_size (to_SZ SZ (h_size a - 1)) b.

(** [erase(const_iterator position)], iterators being offsets from
    [ptr()]. *)
Definition erase (position : Z) (b : new_buffer) : option (new_buffer * Z) :=
  let index := to_SZ SZ position in
  let b := with_storage b (destroy_at (ptr b) index) in
  p ← move_around (ptr b) index (index + 1) (count_after SZ (size b) index);
  let b := with_storage b p in
  a ← m_data b;
  b ← set_size (to_SZ SZ (h_size a - 1)) b;
  Some (b, index).

(** [erase(value_type const& element)] *)
Definition erase_value (element : T) (b : new_buffer) : option (new_buffer * Z) :=
  it ← std_find (ptr b) 0 (size b) element;
  if decide (it ≠ size b) then erase it b
  else Some (b, size b).

(** [new_buffer(new_buffer&& other)] *)
Definition move_construct (other : new_buffer) : new_buffer * new_buffer :=
  (mk (m_data other), mk None).

(** [operator=(new_buffer&& other)] exchanges the pointers. *)
Definition move_assign (this other : new_buffer) : new_buffer * new_buffer :=
  (mk (m_data other), mk (m_data this)).

Definition swap (lhs rhs : new_buffer) : new_buffer * new_buffer :=
  (mk (m_data rhs), mk (m_data lhs)).

(** The body of [operator=(new_buffer const& other)] under
    [this != &other]. *)
Definition copy_assign_distinct (this other : new_buffer) : option (new_buffer * new_buffer) :=
  let this := clear this in
  let size := size other in
  if size >? 0 then
    this ← reallocate size this;
    p ← copy_into (ptr this) (ptr other) size;
    this ← set_size size (with_storage this p);
    Some (this, other)
  else Some (this, other).

Definition copy_assign (this other : addr) (st : gmap addr new_buffer) : option (gmap addr new_buffer) :=
  if decide (this ≠ other) then on_two copy_assign_distinct this other st
  else Some st.

Definition elements (b : new_buffer) : option (list T) := objects (ptr b) (size b).

(** The invariant of the data model, for a buffer holding [vs]. *)
Definition holds (b : new_buffer) (vs : list T) : Prop :=
  match m_data b with
  | Some a =>
      h_size a = Z.of_nat (length vs) ∧
      Z.of_nat (length vs) <= h_capacity a < modulus SZ ∧
      slots a = filled vs (h_capacity a)
  | None => vs = []
  end.

(** [new_buffer(new_buffer const& other)] *)
Definition copy_construct (other : new_buffer) : option new_buffer :=
  let size := size other in
  if size >? 0 then
    this ← reallocate size empty_buffer;
    p ← copy_into (ptr this) (ptr other) size;
    set_size size (with_storage this p)
  else Some empty_buffer.

(** [new_buffer(size_type count, const_pointer elements)], with [elements]
    an array outside the buffer. *)
Definition construct_from_array (count : Z) (elements : block T) : option new_buffer :=
  if count >? 0 then
    this ← reallocate count empty_buffer;
    p ← copy_into (ptr this) elements count;
    set_size count (with_storage this p)
  else Some empty_buffer.

(** [new_buffer(size_type count)] and
    [new_buffer(size_type count, value_type const& element)] *)
Definition construct_count (count : Z) (element : T) : option new_buffer :=
  resize_with count (object element) empty_buffer.

(** [operator[](index)], read through the reference it returns. *)
Definition at_index (index : Z) (b : new_buffer) : option T := read_at (ptr b) index.

(** [front()] is [begin()[0]], [back()] is [end()[-1]]. *)
Definition front (b : new_buffer) : option T := read_at (ptr b) 0.
Definition back (b : new_buffer) : option T := read_at (ptr b) (size b - 1).

Definition get (index : Z) (b : new_buffer) : option T := at_index index b.

(** [get(index, otherwise)] *)
Definition get_or (index : Z) (otherwise : T) (b : new_buffer) : option T :=
  if index <? size b then at_index index b else Some otherwise.

(** [set(index, value)] assigns [value] to the element [operator[](index)]
    refers to. *)
Definition set (index : Z) (value : T) (b : new_buffer) : option new_buffer :=
  p ← assign_at (ptr b) index value;
  Some (with_storage b p).

(** [setx(index, value, default_value)].  Both arguments are references:
    [default_value] is read by [resize], [value] after it; [in_place] says
    that [resize] was not called or did not reallocate. *)
Definition setx (index : Z) (value default_value : reference T) (b : new_buffer)
    : option new_buffer :=
  let count := to_SZ SZ (index + 1) in
  let in_place := negb ((index >=? size b) && (count >? capacity b)) in
  b ← (if index >=? size b then resize_with count default_value b else Some b);
  v ← read_reference value in_place (ptr b);
  set index v b.

(** [contains(element)] is [std::find(begin(), end(), element) != end()]. *)
Definition contains (element : T) (b : new_buffer) : option bool :=
  it ← std_find (ptr b) 0 (size b) element;
  Some (bool_decide (it ≠ size b)).

(** [reverse()] is [std::reverse(begin(), end())]. *)
Definition reverse (b : new_buffer) : option new_buffer :=
  p ← std_reverse (ptr b) 0 (size b);
  Some (with_storage b p).

Definition insert (element : reference T) (b : new_buffer) : option new_buffer :=
  push_back element b.

(** [fill(elem)] is [std::fill(begin(), end(), elem)]. *)
Definition fill (elem : T) (b : new_buffer) : option new_buffer :=
  p ← std_fill (ptr b) 0 (size b) elem;
  Some (with_storage b p).

(** [shrink(count)]; a null buffer is left alone. *)
Definition shrink (count : Z) (b : new_buffer) : option new_buffer :=
  match m_data b with
  | Some _ => set_size count (with_storage b (destroy (ptr b) count (size b)))
  | None => Some b
  end.

(** [set_end(it)], the iterator being an offset from [ptr()]. *)
Definition set_end (it : Z) (b : new_buffer) : option new_buffer :=
  match m_data b with
  | Some _ =>
      let index := to_SZ SZ it in
      set_size index (with_storage b (destroy (ptr b) index (size b)))
  | None => Some b
  end.

Definition reset (b : new_buffer) : new_buffer := clear b.

(** [finalize()] is [clear(); shrink_to_fit();]. *)
Definition finalize (b : new_buffer) : option new_buffer := shrink_to_fit (clear b).

(** [append(unsigned n, T const* elems)]:
    [for(unsigned i = 0; i < n; i++) push_back(elems[i]);], unrolled from
    [i] for [k] more elements; [elems] is an array outside the buffer. *)
Fixpoint append_from (elems : block T) (i : Z) (k : nat) (b : new_buffer) : option new_buffer :=
  match k with
  | O => Some b
  | S k' =>
      v ← read_at elems i;
      b ← push_back (object v) b;
      append_from elems (i + 1) k' b
  end.

Definition append (n : Z) (elems : block T) (b : new_buffer) : option new_buffer :=
  append_from elems 0 (Z.to_nat n) b.

(** [append(const new_buffer& source)] for a [source] that is another
    object. *)
Definition append_buffer (source : new_buffer) (b : new_buffer) : option new_buffer :=
  append (to_unsigned (size source)) (ptr source) b.

(** [reserve(count, default_element)] *)
Definition reserve_with (count : Z) (default_element : reference T) (b : new_buffer)
    : option new_buffer :=
  if count >? size b then resize_with count default_element b else Some b.

End VHeader.

Arguments allocation : clear implicits.
Arguments new_buffer : clear implicits.

(** The buffer whose allocation has [cap] slots and holds [vs]. *)
Abbreviation allocated vs cap :=
  (mk (Some (mk_allocation (Z.of_nat (length vs)) cap (filled vs cap)))).

End VHeader.

(** ** V-split: [new_buffer<T, SZ, -1>] *)

Module VSplit.
Section VSplit.
Context {T : Type} `{EqDecision T}.
Variable SZ : size_type.
(** The value of [value_type()]. *)
Variable value_init : T.

(** [m_data] is null ([None]) or owns a heap allocation. *)
Record new_buffer := mk {
  m_data : option (block T);
  m_size : Z;
  m_capacity : Z
}.

Definition empty_buffer : new_buffer := mk None 0 0.

Definition ptr (b : new_buffer) : block T :=
  match m_data b with Some p => p | None => [] end.

Definition size (b : new_buffer) : Z := m_size b.
Definition capacity (b : new_buffer) : Z := m_capacity b.
Definition empty (b : new_buffer) : bool := size b =? 0.

(** Writes through [m_data] that leave the storage as [p]. *)
Definition with_storage (b : new_buffer) (p : block T) : new_buffer :=
  mk ((λ _, p) <$> m_data b) (m_size b) (m_capacity b).

Definition with_size (b : new_buffer) (n : Z) : new_buffer :=
  mk (m_data b) n (m_capacity b).

Definition next_capacity (b : new_buffer) : Z :=
  let cap := capacity b in
  if cap =? 0 then 2 else three_halves SZ cap.

Definition reallocate (new_capacity : Z) (b : new_buffer) : option new_buffer :=
  new_data ← move_into (allocate new_capacity) (ptr b) (m_size b);
  Some (mk (Some new_data) (m_size b) new_capacity).

Definition clear (b : new_buffer) : new_buffer :=
  with_size (with_storage b (destroy (ptr b) 0 (size b))) 0.

Definition _reserve (new_capacity : Z) (b : new_buffer) : option new_buffer :=
  if new_capacity >? capacity b then reallocate new_capacity b else Some b.

(** [resize(count, value_type const& value)].  [value] is read in every
    round of the loop, after [_reserve] may have reallocated; [in_place] says
    that it has not.  [resize(count)] constructs [value_type()]
    instead. *)
Definition resize_with (count : Z) (value : reference T) (b : new_buffer) : option new_buffer :=
  let in_place := negb (count >? capacity b) in
  b ← _reserve count b;
  let b := with_storage b (destroy (ptr b) count (size b)) in
  p ← construct_range (ptr b) (size b) count value in_place;
  Some (with_size (with_storage b p) count).

Definition resize (count : Z) (b : new_buffer) : option new_buffer :=
  resize_with count (object value_init) b.

Definition shrink_to_fit (b : new_buffer) : option new_buffer :=
  if size b >? 0 then
    if negb (size b =? capacity b) then reallocate (size b) b else Some b
  else
    match m_data b with
    | Some _ => Some (mk None (m_size b) 0)
    | None => Some b
    end.

(** [push_back(value_type const& value)].  [value] is read after
    [reallocate] has run; [in_place] says that the storage has not been
    replaced. *)
Definition push_back (value : reference T) (b : new_buffer) : option new_buffer :=
  let in_place := negb (size b >=? capacity b) in
  b ← (if size b >=? capacity b then reallocate (next_capacity b) b else Some b);
  v ← read_reference value in_place (ptr b);
  p ← construct_at (ptr b) (size b) v;
  let b := with_storage b p in
  Some (with_size b (to_SZ SZ (m_size b + 1))).

(** [end()->~value_type(); --m_size;] *)
Definition pop_back (b : new_buffer) : new_buffer :=
  let b := with_storage b (destroy_at (ptr b) (size b)) in
  with_size b (to_SZ SZ (m_size b - 1)).

(** [erase(const_iterator position)], iterators being offsets from
    [ptr()]. *)
Definition erase (position : Z) (b : new_buffer) : option (new_buffer * Z) :=
  let index := to_SZ SZ position in
  let b := with_storage b (destroy_at (ptr b) index) in
  p ← move_around (ptr b) index (index + 1) (count_after SZ (size b) index);
  let b := with_storage b p in
  let b := with_size b (to_SZ SZ (m_size b - 1)) in
  Some (b, index).

(** [erase(value_type const& element)] *)
Definition erase_value (element : T) (b : new_buffer) : option (new_buffer * Z) :=
  it ← std_find (ptr b) 0 (size b) element;
  if decide (it ≠ size b) then erase it b
  else Some (b, size b).

Definition reserve (count : Z) (b : new_buffer) : option new_buffer :=
  if count >? size b then resize count b else Some b.

(** [new_buffer(new_buffer&& other)] *)
Definition move_construct (other : new_buffer) : new_buffer * new_buffer :=
  (mk (m_data other) (m_size other) (m_capacity other), mk None 0 0).

(** [operator=(new_buffer&& other)] exchanges the three fields. *)
Definition move_assign (this other : new_buffer) : new_buffer * new_buffer :=
  (mk (m_data other) (m_size other) (m_capacity other),
   mk (m_data this) (m_size this) (m_capacity this)).

Definition swap (lhs rhs : new_buffer) : new_buffer * new_buffer :=
  (mk (m_data rhs) (m_size rhs) (m_capacity rhs),
   mk (m_data lhs) (m_size lhs) (m_capacity lhs)).

(** The body of [operator=(new_buffer const& other)] under
    [this != &other]. *)
Definition copy_assign_distinct (this other : new_buffer) : option (new_buffer * new_buffer) :=
  let this := clear this in
  let size := m_size other in
  if size >? 0 then
    this ← reallocate size this;
    p ← copy_into (ptr this) (ptr other) size;
    Some (with_size (with_storage this p) size, other)
  else Some (this, other).

Definition copy_assign (this other : addr) (st : gmap addr new_buffer) : option (gmap addr new_buffer) :=
  if decide (this ≠ other) then on_two copy_assign_distinct this other st
  else Some st.

Definition elements (b : new_buffer) : option (list T) := objects (ptr b) (size b).

(** The invariant of the data model, for a buffer holding [vs]. *)
Definition holds (b : new_buffer) (vs : list T) : Prop :=
  m_size b = Z.of_nat (length vs) ∧
  Z.of_nat (length vs) <= m_capacity b < modulus SZ ∧
  ptr b = filled vs (m_capacity b) ∧
  (m_data b = None → m_capacity b = 0).

(** [new_buffer(new_buffer const& other)] *)
Definition copy_construct (other : new_buffer) : option new_buffer :=
  let size := m_size other in
  if size >? 0 then
    this ← reallocate size empty_buffer;
    p ← copy_into (ptr this) (ptr other) size;
    Some (with_size (with_storage this p) size)
  else Some empty_buffer.

(** [new_buffer(size_type count, const_pointer elements)], with [elements]
    an array outside the buffer. *)
Definition construct_from_array (count : Z) (elements : block T) : option new_buffer :=
  if count >? 0 then
    this ← reallocate count empty_buffer;
    p ← copy_into (ptr this) elements count;
    Some (with_size (with_storage this p) count)
  else Some empty_buffer.

(** [new_buffer(size_type count)] and
    [new_buffer(size_type count, value_type const& element)] *)
Definition construct_count (count : Z) (element : T) : option new_buffer :=
  resize_with count (object element) empty_buffer.

(** [operator[](index)], read through the reference it returns. *)
Definition at_index (index : Z) (b : new_buffer) : option T := read_at (ptr b) index.

(** [front()] is [begin()[0]], [back()] is [end()[-1]]. *)
Definition front (b : new_buffer) : option T := read_at (ptr b) 0.
Definition back (b : new_buffer) : option T := read_at (ptr b) (size b - 1).

Definition get (index : Z) (b : new_buffer) : option T := at_index index b.

(** [get(index, otherwise)] *)
Definition get_or (index : Z) (otherwise : T) (b : new_buffer) : option T :=
  if index <? size b then at_index index b else Some otherwise.

(** [set(index, value)] assigns [value] to the element [operator[](index)]
    refers to. *)
Definition set (index : Z) (value : T) (b : new_buffer) : option new_buffer :=
  p ← assign_at (ptr b) index value;
  Some (with_storage b p).

(** [setx(index, value, default_value)].  Both arguments are references:
    [default_value] is read by [resize], [value] after it; [in_place] says
    that [resize] was not called or did not reallocate. *)
Definition setx (index : Z) (value default_value : reference T) (b : new_buffer)
    : option new_buffer :=
  let count := to_SZ SZ (index + 1) in
  let in_place := negb ((index >=? size b) && (count >? capacity b)) in
  b ← (if index >=? size b then resize_with count default_value b else Some b);
  v ← read_reference value in_place (ptr b);
  set index v b.

(** [contains(element)] is [std::find(begin(), end(), element) != end()]. *)
Definition contains (element : T) (b : new_buffer) : option bool :=
  it ← std_find (ptr b) 0 (size b) element;
  Some (bool_decide (it ≠ size b)).

(** [reverse()] is [std::reverse(begin(), end())]. *)
Definition reverse (b : new_buffer) : option new_buffer :=
  p ← std_reverse (ptr b) 0 (size b);
  Some (with_storage b p).

Definition insert (element : reference T) (b : new_buffer) : option new_buffer :=
  push_back element b.

(** [fill(elem)] is [std::fill(begin(), end(), elem)]. *)
Definition fill (elem : T) (b : new_buffer) : option new_buffer :=
  p ← std_fill (ptr b) 0 (size b) elem;
  Some (with_storage b p).

Definition shrink (count : Z) (b : new_buffer) : new_buffer :=
  with_size (with_storage b (destroy (ptr b) count (size b))) count.

(** [set_end(it)], the iterator being an offset from [ptr()]. *)
Definition set_end (it : Z) (b : new_buffer) : new_buffer :=
  let index := to_SZ SZ it in
  with_size (with_storage b (destroy (ptr b) index (size b))) index.

Definition reset (b : new_buffer) : new_buffer := clear b.

(** [finalize()] is [clear(); shrink_to_fit();]. *)
Definition finalize (b : new_buffer) : option new_buffer := shrink_to_fit (clear b).

(** [append(unsigned n, T const* elems)]:
    [for(unsigned i = 0; i < n; i++) push_back(elems[i]);], unrolled from
    [i] for [k] more elements; [elems] is an array outside the buffer. *)
Fixpoint append_from (elems : block T) (i : Z) (k : nat) (b : new_buffer) : option new_buffer :=
  match k with
  | O => Some b
  | S k' =>
      v ← read_at elems i;
      b ← push_back (object v) b;
      append_from elems (i + 1) k' b
  end.

Definition append (n : Z) (elems : block T) (b : new_buffer) : option new_buffer :=
  append_from elems 0 (Z.to_nat n) b.

(** [append(const new_buffer& source)] for a [source] that is another
    object. *)
Definition append_buffer (source : new_buffer) (b : new_buffer) : option new_buffer :=
  append (to_unsigned (size source)) (ptr source) b.

(** [reserve(count, default_element)] *)
Definition reserve_with (count : Z) (default_element : reference T) (b : new_buffer)
    : option new_buffer :=
  if count >? size b then resize_with count default_element b else Some b.

End VSplit.

Arguments new_buffer : clear implicits.
End VSplit.

(** ** V-split-actual: [new_buffer<T, SZ, -2>] *)

Module VSplitActual.
Section VSplitActual.
Context {T : Type} `{EqDecision T}.
Variable SZ : size_type.
(** The value of [value_type()]. *)
Variable value_init : T.
(** The number of elements that fit in the usable size the allocator
    reports for an allocation requested for [n] elements
    ([actual_size / sizeof(value_type)]). *)
Variable usable_elements : Z → Z.

(** [m_data] is null ([None]) or owns a heap allocation. *)
Record new_buffer := mk {
  m_data : option (block T);
  m_size : Z;
  m_capacity : Z
}.

Definition empty_buffer : new_buffer := mk None 0 0.

Definition ptr (b : new_buffer) : block T :=
  match m_data b with Some p => p | None => [] end.

Definition size (b : new_buffer) : Z := m_size b.
Definition capacity (b : new_buffer) : Z := m_capacity b.
Definition empty (b : new_buffer) : bool := size b =? 0.

(** Writes through [m_data] that leave the storage as [p]. *)
Definition with_storage (b : new_buffer) (p : block T) : new_buffer :=
  mk ((λ _, p) <$> m_data b) (m_size b) (m_capacity b).

Definition with_size (b : new_buffer) (n : Z) : new_buffer :=
  mk (m_data b) n (m_capacity b).

Definition next_capacity (b : new_buffer) : Z :=
  let cap := capacity b in
  if cap =? 0 then 2 else three_halves SZ cap.

(** The allocation has all the slots the allocator reports usable, and
    the capacity recorded is their number converted to [size_type]. *)
Definition reallocate (new_capacity : Z) (b : new_buffer) : option new_buffer :=
  let actual := usable_elements new_capacity in
  let new_capacity := to_SZ SZ actual in
  new_data ← move_into (allocate actual) (ptr b) (m_size b);
  Some (mk (Some new_data) (m_size b) new_capacity).

Definition clear (b : new_buffer) : new_buffer :=
  with_size (with_storage b (destroy (ptr b) 0 (size b))) 0.

Definition _reserve (new_capacity : Z) (b : new_buffer) : option new_buffer :=
  if new_capacity >? capacity b then reallocate new_capacity b else Some b.

(** [resize(count, value_type const& value)].  [value] is read in every
    round of the loop, after [_reserve] may have reallocated; [in_place] says
    that it has not.  [resize(count)] constructs [value_type()]
    instead. *)
Definition resize_with (count : Z) (value : reference T) (b : new_buffer) : option new_buffer :=
  let in_place := negb (count >? capacity b) in
  b ← _reserve count b;
  let b := with_storage b (destroy (ptr b) count (size b)) in
  p ← construct_range (ptr b) (size b) count value in_place;
  Some (with_size (with_storage b p) count).

Definition resize (count : Z) (b : new_buffer) : option new_buffer :=
  resize_with count (object value_init) b.

Definition shrink_to_fit (b : new_buffer) : option new_buffer :=
  if size b >? 0 then
    if negb (size b =? capacity b) then reallocate (size b) b else Some b
  else
    match m_data b with
    | Some _ => Some (mk None (m_size b) 0)
    | None => Some b
    end.

(** [push_back(value_type const& value)].  [value] is read after
    [reallocate] has run; [in_place] says that the storage has not been
    replaced. *)
Definition push_back (value : reference T) (b : new_buffer) : option new_buffer :=
  let in_place := negb (size b >=? capacity b) in
  b ← (if size b >=? capacity b then reallocate (next_capacity b) b else Some b);
  v ← read_reference value in_place (ptr b);
  p ← construct_at (ptr b) (size b) v;
  let b := with_storage b p in
  Some (with_size b (to_SZ SZ (m_size b + 1))).

(** [end()->~value_type(); --m_size;] *)
Definition pop_back (b : new_buffer) : new_buffer :=
  let b := with_storage b (destroy_at (ptr b) (size b)) in
  with_size b (to_SZ SZ (m_size b - 1)).

(** [new_buffer(new_buffer&& other)] *)
Definition move_construct (other : new_buffer) : new_buffer * new_buffer :=
  (mk (m_data other) (m_size other) (m_capacity other), mk None 0 0).

(** [operator=(new_buffer&& other)] exchanges the three fields. *)
Definition move_assign (this other : new_buffer) : new_buffer * new_buffer :=
  (mk (m_data other) (m_size other) (m_capacity other),
   mk (m_data this) (m_size this) (m_capacity this)).

Definition swap (lhs rhs : new_buffer) : new_buffer * new_buffer :=
  (mk (m_data rhs) (m_size rhs) (m_capacity rhs),
   mk (m_data lhs) (m_size lhs) (m_capacity lhs)).

(** The body of [operator=(new_buffer const& other)] under
    [this != &other]. *)
Definition copy_assign_distinct (this other : new_buffer) : option (new_buffer * new_buffer) :=
  let this := clear this in
  let size := m_size other in
  if size >? 0 then
    this ← reallocate size this;
    p ← copy_into (ptr this) (ptr other) size;
    Some (with_size (with_storage this p) size, other)
  else Some (this, other).

Definition copy_assign (this other : addr) (st : gmap addr new_buffer) : option (gmap addr new_buffer) :=
  if decide (this ≠ other) then on_two copy_assign_distinct this other st
  else Some st.

Definition elements (b : new_buffer) : option (list T) := objects (ptr b) (size b).

(** The invariant of the data model, for a buffer holding [vs]. *)
Definition holds (b : new_buffer) (vs : list T) : Prop :=
  m_size b = Z.of_nat (length vs) ∧
  Z.of_nat (length vs) <= m_capacity b < modulus SZ ∧
  ptr b = filled vs (m_capacity b) ∧
  (m_data b = None → m_capacity b = 0).

(** [new_buffer(new_buffer const& other)] *)
Definition copy_construct (other : new_buffer) : option new_buffer :=
  let size := m_size other in
  if size >? 0 then
    this ← reallocate size empty_buffer;
    p ← copy_into (ptr this) (ptr other) size;
    Some (with_size (with_storage this p) size)
  else Some empty_buffer.

(** [new_buffer(size_type count, const_pointer elements)], with [elements]
    an array outside the buffer. *)
Definition construct_from_array (count : Z) (elements : block T) : option new_buffer :=
  if count >? 0 then
    this ← reallocate count empty_buffer;
    p ← copy_into (ptr this) elements count;
    Some (with_size (with_storage this p) count)
  else Some empty_buffer.

(** [new_buffer(size_type count)] and
    [new_buffer(size_type count, value_type const& element)] *)
Definition construct_count (count : Z) (element : T) : option new_buffer :=
  resize_with count (object element) empty_buffer.

(** [operator[](index)], read through the reference it returns. *)
Definition at_index (index : Z) (b : new_buffer) : option T := read_at (ptr b) index.

(** [front()] is [begin()[0]], [back()] is [end()[-1]]. *)
Definition front (b : new_buffer) : option T := read_at (ptr b) 0.
Definition back (b : new_buffer) : option T := read_at (ptr b) (size b - 1).

End VSplitActual.

Arguments new_buffer : clear implicits.
End VSplitActual.

(** ** Equality and ordering

    The operators are templates over any two buffers; they read their
    arguments through [size()], [cbegin()] and [cend()] only, so they are
    embedded on the sequences an iteration yields. *)

Module Compare.

(** The comparisons the element type provides. *)
Class Comparable (T : Type) := {
  elem_ne : T → T → bool;
  elem_lt : T → T → bool;
  elem_le : T → T → bool;
  elem_gt : T → T → bool;
  elem_ge : T → T → bool
}.

#[export] Instance Z_comparable : Comparable Z := {|
  elem_ne x y := negb (x =? y);
  elem_lt := Z.ltb;
  elem_le := Z.leb;
  elem_gt := Z.gtb;
  elem_ge := Z.geb
|}.

Section Compare.
Context {T : Type} `{Comparable T}.

(** [std::lexicographical_compare(first1, last1, first2, last2, comp)] as
    the language standard defines it: at each position, [comp(a, b)] decides
    for true, [comp(b, a)] for false; when one range ends, the result is
    whether the first ended and the second did not. *)
Fixpoint lexicographical_compare (comp : T → T → bool) (l1 l2 : list T) : bool :=
  match l1, l2 with
  | x :: l1', y :: l2' =>
      if comp x y then true
      else if comp y x then false
      else lexicographical_compare comp l1' l2'
  | [], _ :: _ => true
  | _, _ => false
  end.

(** The loop of [operator==]: [li] runs over the left range, [ri] follows
    it. *)
Fixpoint all_equal (li ri : list T) : bool :=
  match li, ri with
  | x :: li', y :: ri' => if elem_ne x y then false else all_equal li' ri'
  | _, _ => true
  end.

Definition operator_eq (lhs rhs : list T) : bool :=
  if decide (length lhs ≠ length rhs) then false else all_equal lhs rhs.

Definition operator_ne (lhs rhs : list T) : bool := negb (operator_eq lhs rhs).

Definition operator_lt (lhs rhs : list T) : bool :=
  lexicographical_compare (λ lhs rhs, elem_lt lhs rhs) lhs rhs.

Definition operator_le (lhs rhs : list T) : bool :=
  lexicographical_compare (λ lhs rhs, elem_le lhs rhs) lhs rhs.

Definition operator_gt (lhs rhs : list T) : bool :=
  lexicographical_compare (λ lhs rhs, elem_gt lhs rhs) lhs rhs.

Definition operator_ge (lhs rhs : list T) : bool :=
  lexicographical_compare (λ lhs rhs, elem_ge lhs rhs) lhs rhs.

End Compare.

(** The lexicographic order of the specification on sequences of
    integers: the first differing position decides, and a proper prefix
    ranks smaller. *)
Inductive lex_lt : list Z → list Z → Prop :=
  | lex_prefix y l2 : lex_lt [] (y :: l2)
  | lex_differ x y l1 l2 : x < y → lex_lt (x :: l1) (y :: l2)
  | lex_equal x l1 l2 : lex_lt l1 l2 → lex_lt (x :: l1) (x :: l2).

End Compare.

(** ** Hashing

    [std::hash<new_buffer<T, SZ, INITIAL_SIZE>>] reads its argument through
    [size()] and an iteration, so it is embedded on the sequence the
    iteration yields, whose length is [size()]. *)

Module Hash.

(** [std::numeric_limits<std::size_t>::digits] *)
Definition result_digits : Z := 64.

(** Conversion to [result_type], which is [std::size_t]. *)
Definition to_result (x : Z) : Z := x mod 2 ^ result_digits.

Section Hash.
Context {T : Type}.
(** [std::hash<size_type>] and [std::hash<value_type>], which the standard
    library provides. *)
Variable hash_size : Z → Z.
Variable hasher : T → Z.

(** [(result << 11) | (result >> (digits - 11))] *)
Definition rotate (result : Z) : Z :=
  Z.lor (to_result (Z.shiftl result 11)) (Z.shiftr result (result_digits - 11)).

(** One round of the loop: the rotation, then [result ^= hasher(element)]. *)
Definition hash_step (result : Z) (element : T) : Z :=
  Z.lxor (rotate result) (hasher element).

Definition hash (value : list T) : Z :=
  foldl hash_step (hash_size (Z.of_nat (length value))) value.

End Hash.
End Hash.

(** ** Scenarios

    Concrete runs with [int] elements ([T = Z]). *)

Module Scenarios.

(** [for(v : values) b.push_back(v);] on a V-inline buffer. *)
Definition push_all (SZ : size_type) (values : list Z) (b : VInline.new_buffer Z)
    : option (VInline.new_buffer Z) :=
  foldl (λ acc v, b ← acc; VInline.push_back SZ (object v) b) (Some b) values.

(** Scenario A: [new_buffer<int, std::uint32_t, 4>], four elements pushed,
    then a fifth. *)
Definition scenario_A_four : option (VInline.new_buffer Z) :=
  push_all uint32 [1; 2; 3; 4] (VInline.empty_buffer uint32 4).

Definition scenario_A_five : option (VInline.new_buffer Z) :=
  b ← scenario_A_four; VInline.push_back uint32 (object 5) b.

(** [b.clear(); b.shrink_to_fit();] after scenario A. *)
Definition cleared_and_shrunk : option (VInline.new_buffer Z) :=
  b ← scenario_A_five; VInline.shrink_to_fit uint32 4 (VInline.clear b).

(** [swap(lhs, rhs)] with [lhs] the buffer of scenario A (on the heap) and
    [rhs] a buffer holding the single element 9 (inline). *)
Definition swap_heap_with_inline : option (VInline.new_buffer Z * VInline.new_buffer Z) :=
  lhs ← scenario_A_five;
  rhs ← VInline.push_back uint32 (object 9) (VInline.empty_buffer uint32 4);
  VInline.swap uint32 4 lhs rhs.

(** A V-split buffer [new_buffer<int, std::uint8_t, -1>] that has grown to
    capacity 210. *)
Definition capacity_210 : VSplit.new_buffer Z :=
  VSplit.mk (Some (filled (replicate 210 0) 210)) 210 210.

(** V-split buffers holding [1, 2] and [9]. *)
Definition split_1_2 : VSplit.new_buffer Z := VSplit.mk (Some [Live 1; Live 2]) 2 2.
Definition split_9 : VSplit.new_buffer Z := VSplit.mk (Some [Live 9]) 1 1.

(** Scenario B: a V-split buffer holding 0, 1, ..., 999. *)
Definition thousand : VSplit.new_buffer Z :=
  VSplit.mk (Some (Live <$> seqZ 0 1000)) 1000 1000.

(** The benchmarks of [main.cpp] use
    [new_buffer<unsigned, unsigned, initial_size>], which is V-inline for
    the initial sizes 16 and 1024.  [simple_copy] times
    [vec_t destination(source);]. *)
Definition simple_copy (INITIAL_SIZE : Z) (source : VInline.new_buffer Z)
    : option (VInline.new_buffer Z) :=
  VInline.copy_construct uint32 INITIAL_SIZE source.

(** [simple_pushback_copy] times
    [vec_t destination; for(auto const u : source) destination.push_back(u);]. *)
Definition simple_pushback_copy (INITIAL_SIZE : Z) (source : VInline.new_buffer Z)
    : option (VInline.new_buffer Z) :=
  values ← VInline.elements source;
  push_all uint32 values (VInline.empty_buffer uint32 INITIAL_SIZE).

End Scenarios.

(** * Verification *)

(** ** Facts about size types *)

Lemma modulus_pos SZ : 0 < modulus SZ.
Proof. destruct SZ; reflexivity. Qed.

Lemma modulus_ge_256 SZ : 256 <= modulus SZ.
Proof. destruct SZ; vm_compute; discriminate. Qed.

Lemma to_SZ_small SZ x : 0 <= x < modulus SZ → to_SZ SZ x = x.
Proof. intros Hx. unfold to_SZ. apply Z.mod_small, Hx. Qed.

Lemma three_halves_exact SZ cap :
  0 <= cap → 3 * cap + 1 < modulus SZ → three_halves SZ cap = (3 * cap + 1) / 2.
Proof.
  intros Hcap Hfit. unfold three_halves.
  assert (0 <= (3 * cap + 1) / 2 <= 3 * cap + 1).
  { split; [apply Z.div_pos; lia |]. apply Z.div_le_upper_bound; lia. }
  destruct (promotes_to_int SZ); rewrite to_SZ_small; auto; lia.
Qed.

Lemma growth_policy_bounds SZ cap :
  0 <= cap → 3 * cap + 1 < modulus SZ →
  cap < growth_policy cap < modulus SZ.
Proof.
  intros Hcap Hfit. pose proof (modulus_ge_256 SZ). unfold growth_policy.
  destruct (Z.eqb_spec cap 0) as [->|Hne]; [lia |].
  assert (cap + 1 <= (3 * cap + 1) / 2) by (apply Z.div_le_lower_bound; lia).
  assert ((3 * cap + 1) / 2 <= 3 * cap + 1) by (apply Z.div_le_upper_bound; lia).
  lia.
Qed.

Lemma grow_exact SZ cap :
  0 <= cap → 3 * cap + 1 < modulus SZ → grow SZ cap = growth_policy cap.
Proof.
  intros Hcap Hfit. unfold grow, growth_policy.
  destruct (cap =? 0); [done |]. by apply three_halves_exact.
Qed.

Lemma grows_exactly_small SZ cap :
  0 <= cap → 3 * cap + 1 < modulus SZ → grows_exactly SZ cap.
Proof.
  intros Hcap Hfit. unfold grows_exactly. destruct (promotes_to_int SZ); [| done].
  pose proof (growth_policy_bounds SZ cap Hcap Hfit). lia.
Qed.

(** Where [next_capacity] does not wrap it is the growth policy, and the
    new capacity is larger and fits the size type. *)
Lemma grows_exactly_bounds SZ cap :
  0 <= cap → grows_exactly SZ cap →
  grow SZ cap = growth_policy cap ∧ cap < growth_policy cap < modulus SZ.
Proof.
  intros Hcap. unfold grows_exactly, grow, growth_policy, three_halves, to_SZ.
  destruct (Z.eqb_spec cap 0) as [->|Hne].
  { intros _. destruct SZ; vm_compute; repeat split; discriminate || reflexivity. }
  assert (cap + 1 <= (3 * cap + 1) / 2) by (apply Z.div_le_lower_bound; lia).
  assert ((3 * cap + 1) / 2 <= 3 * cap + 1) by (apply Z.div_le_upper_bound; lia).
  destruct (promotes_to_int SZ); intros Hfit; rewrite Z.mod_small by lia; lia.
Qed.

(** Where it wraps, the capacity it returns is below the current one. *)
Lemma grow_wraps SZ cap :
  0 <= cap < modulus SZ → ¬ grows_exactly SZ cap → 0 <= grow SZ cap < cap.
Proof.
  unfold grows_exactly, grow, growth_policy, three_halves, to_SZ.
  destruct (Z.eqb_spec cap 0) as [->|Hne].
  { intros _ Hwrap. exfalso. apply Hwrap. destruct SZ; vm_compute; reflexivity. }
  destruct SZ; unfold promotes_to_int, modulus, digits; simpl; intros Hcap Hwrap;
    Z.div_mod_to_equations; lia.
Qed.

Lemma modulus_le_size_t SZ : modulus SZ <= 2 ^ 64.
Proof. destruct SZ; vm_compute; discriminate. Qed.

Lemma count_after_exact SZ (n1 n2 : nat) :
  Z.of_nat (n1 + S n2) < modulus SZ →
  count_after SZ (Z.of_nat (n1 + S n2)) (Z.of_nat n1) = Z.of_nat n2.
Proof.
  intros Hlt. pose proof (modulus_le_size_t SZ). unfold count_after.
  replace (Z.of_nat (n1 + S n2) - Z.of_nat n1 - 1) with (Z.of_nat n2) by lia.
  destruct (promotes_to_int SZ).
  - apply Z.mod_small. lia.
  - apply to_SZ_small. lia.
Qed.

(** ** Facts about the bulk primitives *)

Section MemoryFacts.
Context {T : Type}.
Implicit Types (p d pre rest : block T) (vs l : list T) (v x : T).

Lemma length_allocate n : length (allocate (T:=T) n) = Z.to_nat n.
Proof. apply length_replicate. Qed.

Lemma filled_nil cap : filled (T:=T) [] cap = allocate cap.
Proof. unfold filled, allocate. simpl. by rewrite Nat.sub_0_r. Qed.

Lemma length_filled vs cap :
  Z.of_nat (length vs) <= cap → length (filled vs cap) = Z.to_nat cap.
Proof.
  intros Hle. unfold filled.
  rewrite length_app, length_fmap, length_replicate. lia.
Qed.

Lemma read_at_lookup p (i : nat) v :
  p !! i = Some (Live v) → read_at p (Z.of_nat i) = Some v.
Proof.
  intros Hi. unfold read_at. rewrite decide_True by lia.
  by rewrite Nat2Z.id, Hi.
Qed.

Lemma construct_at_lookup p (i : nat) v :
  (i < length p)%nat → construct_at p (Z.of_nat i) v = Some (<[i := Live v]> p).
Proof.
  intros Hi. unfold construct_at. rewrite decide_True by lia.
  by rewrite Nat2Z.id.
Qed.

Lemma destroy_at_nat p (i : nat) : destroy_at p (Z.of_nat i) = <[i := Raw]> p.
Proof. unfold destroy_at. rewrite decide_True by lia. by rewrite Nat2Z.id. Qed.

(** Copying [vs] from offset [k] of the source to offset [k] of the
    destination. *)
Lemma uninitialized_copy_app vs : ∀ (k : nat) d pre rest,
  length pre = k →
  (k + length vs <= length d)%nat →
  uninitialized_copy d (pre ++ (Live <$> vs) ++ rest) (Z.of_nat k) (length vs)
  = Some (take k d ++ (Live <$> vs) ++ drop (k + length vs) d).
Proof.
  induction vs as [|v vs IH]; intros k d pre rest Hpre Hlen.
  - cbn. rewrite Nat.add_0_r. by rewrite take_drop.
  - rewrite fmap_cons. cbn [length uninitialized_copy] in *.
    rewrite (read_at_lookup _ k v); last first.
    { rewrite lookup_app_r by lia. by replace (k - length pre)%nat with 0%nat by lia. }
    cbn [mbind option_bind]. rewrite construct_at_lookup by lia.
    cbn [mbind option_bind].
    replace (Z.of_nat k + 1) with (Z.of_nat (S k)) by lia.
    replace (pre ++ (Live v :: (Live <$> vs)) ++ rest)
      with ((pre ++ [Live v]) ++ (Live <$> vs) ++ rest) by by rewrite <- app_assoc.
    rewrite IH; [| rewrite length_app; simpl; lia | rewrite length_insert; lia].
    f_equal.
    rewrite (take_S_r _ _ (Live v)); last first.
    { rewrite list_lookup_insert_eq; [done | lia]. }
    rewrite take_insert_ge by lia.
    rewrite drop_insert_lt by lia.
    rewrite <- !app_assoc. simpl.
    by replace (S (k + length vs))%nat with (k + S (length vs))%nat by lia.
Qed.

Lemma move_into_prefix vs cap d :
  (length vs <= length d)%nat →
  move_into d (filled vs cap) (Z.of_nat (length vs))
  = Some ((Live <$> vs) ++ drop (length vs) d).
Proof.
  intros Hd. unfold move_into. rewrite Nat2Z.id. unfold filled.
  by apply (uninitialized_copy_app vs 0 d [] _ eq_refl).
Qed.

Lemma move_into_filled vs cap n :
  Z.of_nat (length vs) <= n →
  move_into (allocate n) (filled vs cap) (Z.of_nat (length vs)) = Some (filled vs n).
Proof.
  intros Hn. rewrite move_into_prefix by (rewrite length_allocate; lia).
  unfold filled, allocate. by rewrite drop_replicate.
Qed.

Lemma copy_into_filled vs cap n :
  Z.of_nat (length vs) <= n →
  copy_into (allocate n) (filled vs cap) (Z.of_nat (length vs)) = Some (filled vs n).
Proof. apply move_into_filled. Qed.

Lemma destroy_empty_range p first last : last <= first → destroy p first last = p.
Proof. intros Hle. unfold destroy. rewrite seqZ_nil by lia. done. Qed.

Lemma destroy_step p first last :
  first < last → destroy p first last = destroy (destroy_at p first) (first + 1) last.
Proof.
  intros Hlt. unfold destroy. rewrite seqZ_cons by lia. simpl.
  by replace (Z.pred (last - first)) with (last - (first + 1)) by lia.
Qed.

(** Destroying the objects that follow a prefix [pre]. *)
Lemma destroy_app vs : ∀ pre rest,
  destroy (pre ++ (Live <$> vs) ++ rest) (Z.of_nat (length pre))
    (Z.of_nat (length pre + length vs))
  = pre ++ replicate (length vs) Raw ++ rest.
Proof.
  induction vs as [|v vs IH]; intros pre rest.
  - rewrite destroy_empty_range by (simpl; lia). done.
  - rewrite destroy_step by (simpl; lia).
    rewrite destroy_at_nat. rewrite fmap_cons. cbn [app length replicate].
    replace (length pre) with (length pre + 0)%nat at 1 by lia.
    rewrite insert_app_r. cbn [insert list_insert].
    replace (pre ++ Raw :: (Live <$> vs) ++ rest)
      with ((pre ++ [Raw]) ++ (Live <$> vs) ++ rest) by by rewrite <- app_assoc.
    replace (Z.of_nat (length pre) + 1) with (Z.of_nat (length (pre ++ [Raw])))
      by (rewrite length_app; simpl; lia).
    replace (length pre + S (length vs))%nat with (length (pre ++ [Raw]) + length vs)%nat
      by (rewrite length_app; simpl; lia).
    rewrite IH. by rewrite <- app_assoc.
Qed.

Lemma destroy_filled vs cap :
  Z.of_nat (length vs) <= cap →
  destroy (filled vs cap) 0 (Z.of_nat (length vs)) = allocate cap.
Proof.
  intros Hcap. unfold filled.
  pose proof (destroy_app vs [] (replicate (Z.to_nat cap - length vs) Raw)) as Hd.
  simpl in Hd. change (Z.of_nat 0) with 0 in Hd. rewrite Hd.
  unfold allocate. rewrite <- replicate_add. f_equal. lia.
Qed.

Lemma construct_at_filled vs cap v :
  Z.of_nat (length vs) < cap →
  construct_at (filled vs cap) (Z.of_nat (length vs)) v = Some (filled (vs ++ [v]) cap).
Proof.
  intros Hcap. rewrite construct_at_lookup by (rewrite length_filled; lia).
  f_equal. unfold filled.
  replace (length vs) with (length (Live <$> vs) + 0)%nat at 1
    by (rewrite length_fmap; lia).
  rewrite insert_app_r, fmap_app, length_app, <- app_assoc. f_equal.
  destruct (Z.to_nat cap - length vs)%nat as [|k] eqn:Hk; [lia |].
  simpl. do 2 f_equal. lia.
Qed.

(** The loop that appends copies of the object [value] denotes, as long
    as [value] reads as [v] whatever has been appended. *)
Lemma construct_from_reads (value : reference T) in_place v (n : nat) : ∀ vs cap,
  (∀ ws, read_reference value in_place (filled (vs ++ ws) cap) = Some v) →
  Z.of_nat (length vs) + Z.of_nat n <= cap →
  construct_from (filled vs cap) (Z.of_nat (length vs)) n value in_place
  = Some (filled (vs ++ replicate n v) cap).
Proof.
  induction n as [|n IH]; intros vs cap Hread Hcap; cbn [construct_from replicate].
  - by rewrite app_nil_r.
  - pose proof (Hread []) as Hnow. rewrite app_nil_r in Hnow. rewrite Hnow.
    cbn [mbind option_bind].
    rewrite construct_at_filled by lia. cbn [mbind option_bind].
    replace (Z.of_nat (length vs) + 1) with (Z.of_nat (length (vs ++ [v])))
      by (rewrite length_app; simpl; lia).
    rewrite IH; [by rewrite <- app_assoc | | rewrite length_app; simpl; lia].
    intros ws. rewrite <- app_assoc. apply Hread.
Qed.

Lemma construct_from_filled v (n : nat) in_place : ∀ vs cap,
  Z.of_nat (length vs) + Z.of_nat n <= cap →
  construct_from (filled vs cap) (Z.of_nat (length vs)) n (object v) in_place
  = Some (filled (vs ++ replicate n v) cap).
Proof. intros vs cap Hcap. by apply construct_from_reads. Qed.

Lemma construct_range_filled vs cap n v in_place :
  Z.of_nat (length vs) <= n <= cap →
  construct_range (filled vs cap) (Z.of_nat (length vs)) n (object v) in_place
  = Some (filled (vs ++ replicate (Z.to_nat n - length vs) v) cap).
Proof.
  intros Hn. unfold construct_range.
  replace (Z.to_nat (n - Z.of_nat (length vs))) with (Z.to_nat n - length vs)%nat by lia.
  apply construct_from_filled. lia.
Qed.

Lemma objects_filled vs cap :
  Z.of_nat (length vs) <= cap → objects (filled vs cap) (Z.of_nat (length vs)) = Some vs.
Proof.
  intros Hcap. unfold objects.
  rewrite decide_True by (rewrite length_filled; lia).
  rewrite Nat2Z.id. unfold filled.
  rewrite take_app_length' by (by rewrite length_fmap).
  apply mapM_fmap_Some. done.
Qed.


(** One step of the forward loop of [move_around] shifts an object into
    the raw slot before it. *)
Lemma move_one_shift pre v rest (d i : nat) :
  length pre = (d + i)%nat →
  move_one (pre ++ Raw :: Live v :: rest) (Z.of_nat d) (Z.of_nat d + 1) (Z.of_nat i)
  = Some (pre ++ Live v :: Raw :: rest).
Proof.
  intros Hpre. unfold move_one.
  replace (Z.of_nat d + 1 + Z.of_nat i) with (Z.of_nat (length pre + 1)) by lia.
  replace (Z.of_nat d + Z.of_nat i) with (Z.of_nat (length pre + 0)) by lia.
  rewrite (read_at_lookup _ _ v); last first.
  { rewrite lookup_app_r by lia. by replace (length pre + 1 - length pre)%nat with 1%nat by lia. }
  cbn [mbind option_bind].
  rewrite construct_at_lookup by (rewrite length_app; simpl; lia).
  cbn [mbind option_bind]. f_equal.
  rewrite destroy_at_nat, !insert_app_r. done.
Qed.

Lemma move_forward_shift (l2 : list T) : ∀ pre rest (d i : nat),
  length pre = (d + i)%nat →
  move_forward (pre ++ Raw :: (Live <$> l2) ++ rest) (Z.of_nat d) (Z.of_nat d + 1)
    (Z.of_nat i) (length l2)
  = Some (pre ++ (Live <$> l2) ++ Raw :: rest).
Proof.
  induction l2 as [|v l2 IH]; intros pre rest d i Hpre.
  - done.
  - rewrite fmap_cons. cbn [length move_forward app].
    rewrite move_one_shift by done. cbn [mbind option_bind].
    replace (pre ++ Live v :: Raw :: (Live <$> l2) ++ rest)
      with ((pre ++ [Live v]) ++ Raw :: (Live <$> l2) ++ rest) by by rewrite <- app_assoc.
    replace (Z.of_nat i + 1) with (Z.of_nat (S i)) by lia.
    rewrite IH by (rewrite length_app; simpl; lia).
    by rewrite <- app_assoc.
Qed.

(** Destroying the object at position [length l1] and closing the gap. *)
Lemma erase_slots (l1 : list T) v (l2 : list T) cap :
  Z.of_nat (length (l1 ++ v :: l2)) <= cap →
  move_around (destroy_at (filled (l1 ++ v :: l2) cap) (Z.of_nat (length l1)))
    (Z.of_nat (length l1)) (Z.of_nat (length l1) + 1) (Z.of_nat (length l2))
  = Some (filled (l1 ++ l2) cap).
Proof.
  intros Hcap. rewrite length_app in Hcap. cbn [length] in Hcap.
  unfold move_around. rewrite (proj2 (Z.ltb_lt _ _)) by lia.
  rewrite destroy_at_nat, Nat2Z.id. unfold filled.
  rewrite fmap_app, fmap_cons, <- app_assoc. cbn [app].
  replace (length l1) with (length (Live <$> l1) + 0)%nat at 1
    by (rewrite length_fmap; lia).
  rewrite insert_app_r. cbn [insert list_insert].
  change 0 with (Z.of_nat 0).
  rewrite (move_forward_shift l2 (Live <$> l1) _ (length l1) 0)
    by (rewrite length_fmap; lia).
  f_equal. rewrite fmap_app, <- app_assoc. do 2 f_equal.
  rewrite !length_app. cbn [length].
  replace (Z.to_nat cap - (length l1 + length l2))%nat
    with (S (Z.to_nat cap - (length l1 + S (length l2))))%nat by lia.
  done.
Qed.

Section Find.
Context `{EqDecision T}.

Lemma find_from_absent v vs : ∀ pre rest,
  v ∉ vs →
  find_from (pre ++ (Live <$> vs) ++ rest) (Z.of_nat (length pre)) (length vs) v
  = Some (Z.of_nat (length pre + length vs)).
Proof.
  induction vs as [|x vs IH]; intros pre rest Hnot.
  - cbn. do 2 f_equal. lia.
  - rewrite fmap_cons. cbn [length find_from app].
    rewrite (read_at_lookup _ _ x); last first.
    { rewrite lookup_app_r by lia. by rewrite Nat.sub_diag. }
    cbn [mbind option_bind].
    rewrite decide_False by (intros ->; apply Hnot; left).
    replace (pre ++ Live x :: (Live <$> vs) ++ rest)
      with ((pre ++ [Live x]) ++ (Live <$> vs) ++ rest) by by rewrite <- app_assoc.
    replace (Z.of_nat (length pre) + 1) with (Z.of_nat (length (pre ++ [Live x])))
      by (rewrite length_app; simpl; lia).
    rewrite IH by (intros Hin; apply Hnot; by right).
    rewrite length_app. cbn [length]. do 2 f_equal. lia.
Qed.

Lemma find_from_first v (l1 l2 : list T) : ∀ pre rest,
  v ∉ l1 →
  find_from (pre ++ (Live <$> (l1 ++ v :: l2)) ++ rest) (Z.of_nat (length pre))
    (length (l1 ++ v :: l2)) v
  = Some (Z.of_nat (length pre + length l1)).
Proof.
  induction l1 as [|x l1 IH]; intros pre rest Hnot.
  - cbn [app length find_from]. rewrite fmap_cons. cbn [app].
    rewrite (read_at_lookup _ _ v); last first.
    { rewrite lookup_app_r by lia. by rewrite Nat.sub_diag. }
    cbn [mbind option_bind]. rewrite decide_True by done.
    do 2 f_equal. lia.
  - cbn [app length find_from]. rewrite fmap_cons. cbn [app].
    rewrite (read_at_lookup _ _ x); last first.
    { rewrite lookup_app_r by lia. by rewrite Nat.sub_diag. }
    cbn [mbind option_bind].
    rewrite decide_False by (intros ->; apply Hnot; left).
    replace (pre ++ Live x :: (Live <$> l1 ++ v :: l2) ++ rest)
      with ((pre ++ [Live x]) ++ (Live <$> l1 ++ v :: l2) ++ rest) by by rewrite <- app_assoc.
    replace (Z.of_nat (length pre) + 1) with (Z.of_nat (length (pre ++ [Live x])))
      by (rewrite length_app; simpl; lia).
    rewrite IH by (intros Hin; apply Hnot; by right).
    rewrite length_app. cbn [length]. do 2 f_equal. lia.
Qed.

Lemma std_find_absent v vs cap :
  v ∉ vs →
  std_find (filled vs cap) 0 (Z.of_nat (length vs)) v = Some (Z.of_nat (length vs)).
Proof.
  intros Hnot. unfold std_find, filled.
  replace (Z.to_nat (Z.of_nat (length vs) - 0)) with (length vs) by lia.
  apply (find_from_absent v vs [] _ Hnot).
Qed.

Lemma std_find_first v (l1 l2 : list T) cap :
  v ∉ l1 →
  std_find (filled (l1 ++ v :: l2) cap) 0 (Z.of_nat (length (l1 ++ v :: l2))) v
  = Some (Z.of_nat (length l1)).
Proof.
  intros Hnot. unfold std_find, filled.
  replace (Z.to_nat (Z.of_nat (length (l1 ++ v :: l2)) - 0))
    with (length (l1 ++ v :: l2)) by lia.
  apply (find_from_first v l1 l2 [] _ Hnot).
Qed.

End Find.

End MemoryFacts.

Section EndOfStorage.
Context {T : Type}.

(** The destructor call of [pop_back] is at [end()], one past the last
    object: it meets a raw slot or the end of the allocation. *)
Lemma destroy_at_end (l : list T) cap :
  destroy_at (filled l cap) (Z.of_nat (length l)) = filled l cap.
Proof.
  rewrite destroy_at_nat. unfold filled.
  replace (length l) with (length (Live (T:=T) <$> l) + 0)%nat at 1
    by (rewrite length_fmap; lia).
  rewrite insert_app_r. f_equal.
  by destruct (Z.to_nat cap - length l)%nat.
Qed.

Lemma lookup_filled_last (l : list T) v cap :
  filled (l ++ [v]) cap !! length l = Some (Live v).
Proof.
  unfold filled. rewrite fmap_app, <- app_assoc.
  rewrite lookup_app_r by (rewrite length_fmap; lia).
  by rewrite length_fmap, Nat.sub_diag.
Qed.

End EndOfStorage.

(** ** Facts about V-split *)

Module VSplitFacts.
Import VSplit.
Section VSplitFacts.
Context {T : Type} `{EqDecision T}.
Variable SZ : size_type.
Variable value_init : T.
Implicit Types (b : new_buffer T) (vs : list T) (v : T).

Lemma split_empty_holds : holds SZ (empty_buffer (T:=T)) [].
Proof.
  pose proof (modulus_pos SZ). unfold holds, empty_buffer; simpl. repeat split; lia || done.
Qed.

Lemma split_elements_holds b vs : holds SZ b vs → elements b = Some vs.
Proof.
  intros (Hsize & Hcap & Hptr & _). unfold elements, size.
  rewrite Hsize, Hptr. apply objects_filled. lia.
Qed.

Lemma split_reallocate_holds b vs n :
  holds SZ b vs → Z.of_nat (length vs) <= n < modulus SZ → 0 < n →
  ∃ b', reallocate n b = Some b' ∧ holds SZ b' vs ∧ capacity b' = n.
Proof.
  intros (Hsize & Hcap & Hptr & Hnull) Hn Hpos. unfold reallocate.
  rewrite Hsize, Hptr, move_into_filled by lia. cbn [mbind option_bind].
  eexists; split; [done |]. split; [| done].
  unfold holds; simpl. repeat split; try lia; try done.
Qed.

Lemma split_push_back_grows b vs v :
  holds SZ b vs → size b < capacity b ∨ grows_exactly SZ (capacity b) →
  ∃ b', push_back SZ (object v) b = Some b' ∧ holds SZ b' (vs ++ [v]) ∧
        capacity b' = if size b <? capacity b then capacity b
                      else growth_policy (capacity b).
Proof.
  intros Hb Hfit. pose proof Hb as (Hsize & Hcap & Hptr & Hnull).
  unfold push_back, next_capacity. fold (grow SZ (capacity b)).
  unfold size, capacity in *.
  destruct (Z.ltb_spec (m_size b) (m_capacity b)) as [Hlt|Hge];
    [clear Hfit | destruct Hfit as [Hfit|Hfit]; [lia |];
       destruct (grows_exactly_bounds SZ (m_capacity b) ltac:(lia) Hfit) as [Hgrow Hbounds];
       rewrite Hgrow].
  - rewrite Z.geb_leb, (proj2 (Z.leb_gt _ _)) by lia. cbn [mbind option_bind read_reference].
    rewrite Hptr, Hsize, construct_at_filled by lia. cbn [mbind option_bind read_reference].
    eexists; split; [done |]. split; [| done].
    unfold holds; simpl. rewrite length_app; simpl.
    destruct (m_data b) eqn:Hd; [| specialize (Hnull eq_refl); lia].
    rewrite to_SZ_small by lia. unfold ptr; simpl. rewrite Hd; simpl.
    repeat split; try lia; done.
  - assert (m_size b = m_capacity b) as Heq by lia.
    rewrite Z.geb_leb, (proj2 (Z.leb_le _ _)) by lia.
    destruct (split_reallocate_holds b vs (growth_policy (m_capacity b))) as (b1 & -> & Hb1 & Hcap1);
      [done | lia | lia |].
    cbn [mbind option_bind read_reference].
    destruct Hb1 as (Hsize1 & Hcapb1 & Hptr1 & Hnull1). unfold capacity in Hcap1.
    rewrite Hptr1, Hsize1, construct_at_filled by lia. cbn [mbind option_bind read_reference].
    eexists; split; [done |]. split; [| simpl; lia].
    unfold holds; simpl. rewrite length_app; simpl.
    destruct (m_data b1) eqn:Hd; [| specialize (Hnull1 eq_refl); lia].
    rewrite to_SZ_small by lia. unfold ptr; simpl. rewrite Hd; simpl.
    repeat split; try lia; done.
Qed.

Lemma split_push_back_holds b vs v :
  holds SZ b vs → size b < capacity b ∨ 3 * capacity b + 1 < modulus SZ →
  ∃ b', push_back SZ (object v) b = Some b' ∧ holds SZ b' (vs ++ [v]) ∧
        capacity b' = if size b <? capacity b then capacity b
                      else growth_policy (capacity b).
Proof.
  intros Hb Hfit. apply split_push_back_grows; [done |].
  destruct Hfit as [Hroom|Hfit]; [by left | right].
  apply grows_exactly_small; [| done].
  pose proof Hb as Hb'. unfold holds in Hb'. unfold capacity. lia.
Qed.

Lemma split_with_storage_ptr b : with_storage b (ptr b) = b.
Proof. destruct b as [[p|] n c]; done. Qed.

Lemma split_reserve_noop b n : n <= size b → reserve value_init n b = Some b.
Proof.
  intros Hn. unfold reserve. by rewrite Z.gtb_ltb, (proj2 (Z.ltb_ge _ _)) by lia.
Qed.

Lemma split_reserve_grows b vs n :
  holds SZ b vs → size b < n < modulus SZ →
  ∃ b', reserve value_init n b = Some b' ∧
        holds SZ b' (vs ++ replicate (Z.to_nat n - length vs) value_init) ∧
        capacity b' = Z.max (capacity b) n.
Proof.
  intros Hb Hn. pose proof Hb as (Hsize & Hcap & Hptr & Hnull).
  unfold reserve, size, capacity in *.
  rewrite Z.gtb_ltb, (proj2 (Z.ltb_lt _ _)) by lia.
  unfold resize, resize_with, _reserve, capacity.
  assert (∃ b1, (if n >? m_capacity b then reallocate n b else Some b) = Some b1 ∧
                holds SZ b1 vs ∧ m_capacity b1 = Z.max (m_capacity b) n)
    as (b1 & -> & Hb1 & Hcap1).
  { rewrite Z.gtb_ltb. destruct (Z.ltb_spec (m_capacity b) n).
    - destruct (split_reallocate_holds b vs n) as (b1 & ? & ? & ?); [done | lia | lia |].
      exists b1. unfold capacity in *. split; [done | split; [done | lia]].
    - exists b. split; [done | split; [done | lia]]. }
  cbn [mbind option_bind]. destruct Hb1 as (Hsize1 & Hcapb1 & Hptr1 & Hnull1).
  unfold size. rewrite destroy_empty_range, split_with_storage_ptr by lia.
  rewrite Hptr1, Hsize1, construct_range_filled by lia. cbn [mbind option_bind].
  eexists; split; [done |]. split; [| done].
  unfold holds; simpl. rewrite length_app, length_replicate.
  destruct (m_data b1) eqn:Hd; [| specialize (Hnull1 eq_refl); lia].
  unfold ptr; simpl. rewrite Hd; simpl. repeat split; try lia; done.
Qed.

Lemma split_erase_value_absent b vs v :
  holds SZ b vs → v ∉ vs → erase_value SZ v b = Some (b, size b).
Proof.
  intros (Hsize & Hcap & Hptr & Hnull) Hnot. unfold erase_value, size.
  rewrite Hptr, Hsize, std_find_absent by done. cbn [mbind option_bind].
  by rewrite decide_False by (intros Hne; by apply Hne).
Qed.

Lemma split_erase_value_first b (l1 l2 : list T) v :
  holds SZ b (l1 ++ v :: l2) → v ∉ l1 →
  ∃ b', erase_value SZ v b = Some (b', Z.of_nat (length l1)) ∧
        holds SZ b' (l1 ++ l2) ∧ capacity b' = capacity b.
Proof.
  intros (Hsize & Hcap & Hptr & Hnull) Hnot. unfold erase_value, size.
  rewrite Hptr, Hsize, std_find_first by done. cbn [mbind option_bind].
  rewrite length_app in *. cbn [length] in *.
  rewrite decide_True by lia.
  destruct (m_data b) as [p|] eqn:Hd; [| specialize (Hnull eq_refl); lia].
  unfold erase, size. rewrite to_SZ_small by lia.
  assert (ptr (with_storage b (destroy_at (ptr b) (Z.of_nat (length l1))))
          = destroy_at (ptr b) (Z.of_nat (length l1))) as ->.
  { unfold ptr, with_storage. by rewrite Hd. }
  assert (m_size (with_storage b (destroy_at (ptr b) (Z.of_nat (length l1))))
          = Z.of_nat (length l1 + S (length l2))) as -> by done.
  rewrite count_after_exact by lia.
  rewrite Hptr, erase_slots by (rewrite length_app; cbn [length]; lia).
  cbn [mbind option_bind]. eexists; split; [done |].
  split; [| unfold capacity, with_storage; by rewrite Hd].
  unfold holds, ptr, with_storage; rewrite Hd; simpl. rewrite Hsize.
  rewrite to_SZ_small by lia. rewrite length_app. repeat split; try lia; done.
Qed.

Lemma split_pop_back_keeps_last b vs v :
  holds SZ b (vs ++ [v]) →
  pop_back SZ b = with_size b (Z.of_nat (length vs)) ∧
  ptr (pop_back SZ b) !! length vs = Some (Live v).
Proof.
  intros (Hsize & Hcap & Hptr & Hnull). rewrite length_app in *. cbn [length] in *.
  assert (pop_back SZ b = with_size b (Z.of_nat (length vs))) as ->.
  { unfold pop_back, size. rewrite Hptr, Hsize.
    replace (Z.of_nat (length vs + 1)) with (Z.of_nat (length (vs ++ [v])))
      by (rewrite length_app; simpl; lia).
    rewrite destroy_at_end, <- Hptr, split_with_storage_ptr, Hsize.
    rewrite to_SZ_small by lia. f_equal. lia. }
  split; [done |].
  change (ptr (with_size b (Z.of_nat (length vs)))) with (ptr b).
  rewrite Hptr. apply lookup_filled_last.
Qed.

End VSplitFacts.
End VSplitFacts.

(** ** Facts about V-inline *)

Module VInlineFacts.
Import VInline.
Section VInlineFacts.
Context {T : Type}.
Variable SZ : size_type.
Variable INITIAL_SIZE : Z.
Implicit Types (b : new_buffer T) (vs : list T) (v : T).

Lemma inline_with_storage_ptr b : with_storage b (ptr b) = b.
Proof. destruct b as [[|p] n c ib]; done. Qed.

Lemma inline_ptr_with_storage b p : ptr (with_storage b p) = p.
Proof. destruct b as [[|q] n c ib]; done. Qed.

Lemma inline_empty_holds : holds SZ (empty_buffer (T:=T) SZ INITIAL_SIZE) [].
Proof.
  unfold holds, empty_buffer, ptr; simpl.
  pose proof (Z.mod_pos_bound INITIAL_SIZE (modulus SZ) (modulus_pos SZ)).
  unfold initial_size, to_SZ. rewrite filled_nil. repeat split; lia || done.
Qed.

Lemma inline_elements_holds b vs : holds SZ b vs → elements b = Some vs.
Proof.
  intros (Hsize & Hcap & Hptr). unfold elements, size.
  rewrite Hsize, Hptr. apply objects_filled. lia.
Qed.

Lemma inline_reallocate_holds b vs n :
  holds SZ b vs → Z.of_nat (length vs) <= n < modulus SZ →
  ∃ b', reallocate n b = Some b' ∧ holds SZ b' vs ∧ capacity b' = n ∧
        is_inline b' = false.
Proof.
  intros (Hsize & Hcap & Hptr) Hn. unfold reallocate.
  rewrite Hsize, Hptr, move_into_filled by lia. cbn [mbind option_bind].
  eexists; split; [done |]. split; [| done].
  unfold holds, ptr; simpl.
  destruct b as [[|q] ? ? ?]; simpl in *; repeat split; try lia; done.
Qed.

Lemma inline_push_back_grows b vs v :
  holds SZ b vs → size b < capacity b ∨ grows_exactly SZ (capacity b) →
  ∃ b', push_back SZ (object v) b = Some b' ∧ holds SZ b' (vs ++ [v]) ∧
        capacity b' = (if size b <? capacity b then capacity b
                       else growth_policy (capacity b)) ∧
        is_inline b' = (if size b <? capacity b then is_inline b else false).
Proof.
  intros Hb Hfit. pose proof Hb as (Hsize & Hcap & Hptr).
  unfold push_back, next_capacity. fold (grow SZ (capacity b)).
  unfold size, capacity in *.
  destruct (Z.ltb_spec (m_size b) (m_capacity b)) as [Hlt|Hge];
    [clear Hfit | destruct Hfit as [Hfit|Hfit]; [lia |];
       destruct (grows_exactly_bounds SZ (m_capacity b) ltac:(lia) Hfit) as [Hgrow Hbounds];
       rewrite Hgrow].
  - rewrite Z.geb_leb, (proj2 (Z.leb_gt _ _)) by lia. cbn [mbind option_bind read_reference].
    rewrite Hptr, Hsize, construct_at_filled by lia. cbn [mbind option_bind read_reference].
    eexists; split; [done |].
    split; [| by destruct b as [[|q] ? ? ?]].
    unfold holds. rewrite length_app; simpl.
    change (ptr (with_size ?x _)) with (ptr x). rewrite inline_ptr_with_storage.
    destruct b as [[|q] ? ? ?]; simpl in *;
      (rewrite to_SZ_small by lia); repeat split; try lia; done.
  - rewrite Z.geb_leb, (proj2 (Z.leb_le _ _)) by lia.
    destruct (inline_reallocate_holds b vs (growth_policy (m_capacity b)))
      as (b1 & -> & Hb1 & Hcap1 & Hin1); [done | lia |].
    cbn [mbind option_bind read_reference].
    destruct Hb1 as (Hsize1 & Hcapb1 & Hptr1). unfold capacity in Hcap1.
    rewrite Hptr1, Hsize, construct_at_filled by lia. cbn [mbind option_bind read_reference].
    eexists; split; [done |].
    split; [| by destruct b1 as [[|q] ? ? ?]].
    unfold holds. rewrite length_app; simpl.
    change (ptr (with_size ?x _)) with (ptr x). rewrite inline_ptr_with_storage.
    destruct b1 as [[|q] ? ? ?]; simpl in *;
      (rewrite to_SZ_small by lia); repeat split; try lia; done.
Qed.

Lemma inline_push_back_holds b vs v :
  holds SZ b vs → size b < capacity b ∨ 3 * capacity b + 1 < modulus SZ →
  ∃ b', push_back SZ (object v) b = Some b' ∧ holds SZ b' (vs ++ [v]) ∧
        capacity b' = (if size b <? capacity b then capacity b
                       else growth_policy (capacity b)) ∧
        is_inline b' = (if size b <? capacity b then is_inline b else false).
Proof.
  intros Hb Hfit. apply inline_push_back_grows; [done |].
  destruct Hfit as [Hroom|Hfit]; [by left | right].
  apply grows_exactly_small; [| done].
  pose proof Hb as Hb'. unfold holds in Hb'. unfold capacity. lia.
Qed.

Lemma inline_reserve_holds b vs n :
  holds SZ b vs → 0 <= n < modulus SZ →
  ∃ b', reserve n b = Some b' ∧ holds SZ b' vs ∧ size b' = size b ∧
        capacity b' = Z.max (capacity b) n.
Proof.
  intros Hb Hn. pose proof Hb as (Hsize & Hcap & Hptr). unfold reserve, capacity.
  destruct (Z.ltb_spec (m_capacity b) n).
  - destruct (inline_reallocate_holds b vs n) as (b1 & ? & Hb1 & ? & _); [done | lia |].
    exists b1. unfold capacity, size in *.
    split; [done |]. split; [done |]. destruct Hb1 as (? & _). lia.
  - exists b. split; [done |]. split; [done |]. unfold size. lia.
Qed.

Lemma inline_pop_back_keeps_last b vs v :
  holds SZ b (vs ++ [v]) →
  pop_back SZ b = with_size b (Z.of_nat (length vs)) ∧
  ptr (pop_back SZ b) !! length vs = Some (Live v).
Proof.
  intros (Hsize & Hcap & Hptr). rewrite length_app in *. cbn [length] in *.
  assert (pop_back SZ b = with_size b (Z.of_nat (length vs))) as ->.
  { unfold pop_back, size. rewrite Hptr, Hsize.
    replace (Z.of_nat (length vs + 1)) with (Z.of_nat (length (vs ++ [v])))
      by (rewrite length_app; simpl; lia).
    rewrite destroy_at_end, <- Hptr, inline_with_storage_ptr, Hsize.
    rewrite to_SZ_small by lia. f_equal. lia. }
  split; [done |].
  change (ptr (with_size b (Z.of_nat (length vs)))) with (ptr b).
  rewrite Hptr. apply lookup_filled_last.
Qed.

(** Move construction from a buffer in inline storage. *)
Lemma inline_move_construct_inline b vs :
  holds SZ b vs → is_inline b = true → capacity b = initial_size SZ INITIAL_SIZE →
  ∃ this other,
    move_construct SZ INITIAL_SIZE b = Some (this, other) ∧
    holds SZ this vs ∧ holds SZ other [] ∧
    size other = 0 ∧ is_inline other = true ∧
    capacity other = initial_size SZ INITIAL_SIZE.
Proof.
  intros (Hsize & Hcap & Hptr) Hin Hini. unfold move_construct.
  destruct b as [[|p] n c ib]; [| done]. unfold capacity, ptr, size in *; simpl in *.
  subst c. rewrite Hptr, Hsize, move_into_filled by lia. cbn [mbind option_bind].
  rewrite destroy_filled by lia.
  do 2 eexists; split; [done |].
  unfold holds, ptr; simpl. rewrite filled_nil. repeat split; try lia; done.
Qed.

(** [push_back] keeps the capacity invariant. *)
Lemma inline_push_back_capacity_invariant b vs v b' :
  holds SZ b vs → 3 * capacity b + 1 < modulus SZ →
  capacity_invariant SZ INITIAL_SIZE b →
  push_back SZ (object v) b = Some b' →
  capacity_invariant SZ INITIAL_SIZE b'.
Proof.
  intros Hb Hfit [Hge Hin] Hpush.
  destruct (inline_push_back_holds b vs v Hb) as (b1 & Hb1 & _ & Hcap & Hinl);
    [by right |].
  rewrite Hpush in Hb1. injection Hb1 as <-.
  pose proof Hb as (_ & Hcapb & _).
  pose proof (growth_policy_bounds SZ (capacity b)) as Hbounds.
  unfold capacity_invariant, capacity in *.
  rewrite Hcap, Hinl. destruct (size b <? m_capacity b); [done |].
  split; [lia | done].
Qed.

(** [swap] of two buffers on the heap exchanges them. *)
Lemma inline_swap_both_heap (lhs rhs : new_buffer T) :
  is_inline lhs = false → is_inline rhs = false →
  ∃ lhs' rhs', swap SZ INITIAL_SIZE lhs rhs = Some (lhs', rhs') ∧
    ptr lhs' = ptr rhs ∧ size lhs' = size rhs ∧ capacity lhs' = capacity rhs ∧
    ptr rhs' = ptr lhs ∧ size rhs' = size lhs ∧ capacity rhs' = capacity lhs.
Proof.
  destruct lhs as [[|p] ? ? ?], rhs as [[|q] ? ? ?]; try done.
  intros _ _. do 2 eexists. split; [done |]. done.
Qed.

(** [swap] of two buffers in inline storage exchanges their elements: the
    left buffer stays inline, the right one moves to a heap allocation of
    the next capacity. *)
Lemma inline_swap_both_inline (lhs rhs : new_buffer T) vs (ws : list T) :
  holds SZ lhs vs → holds SZ rhs ws →
  is_inline lhs = true → is_inline rhs = true →
  capacity lhs = capacity rhs →
  3 * capacity rhs + 1 < modulus SZ →
  ∃ lhs' rhs', swap SZ INITIAL_SIZE lhs rhs = Some (lhs', rhs') ∧
    holds SZ lhs' ws ∧ holds SZ rhs' vs ∧
    is_inline lhs' = true ∧ capacity lhs' = capacity lhs ∧
    is_inline rhs' = false ∧ capacity rhs' = growth_policy (capacity rhs).
Proof.
  intros (Hsl & Hcl & Hpl) (Hsr & Hcr & Hpr) Hil Hir Hcap Hfit.
  destruct lhs as [[|p] nl cl ibl], rhs as [[|q] nr cr ibr]; try done.
  unfold holds, capacity, ptr in *. simpl in *. subst cl nl nr ibl ibr.
  pose proof (growth_policy_bounds SZ cr ltac:(lia) Hfit) as Hbounds.
  unfold swap, next_capacity, capacity, ptr. simpl.
  fold (grow SZ cr). rewrite grow_exact by lia.
  rewrite move_into_filled by lia. cbn [mbind option_bind].
  rewrite destroy_filled by lia.
  rewrite move_into_filled by lia. cbn [mbind option_bind].
  do 2 eexists. split; [done |]. simpl.
  repeat split; try lia; done.
Qed.

End VInlineFacts.
End VInlineFacts.

(** ** Facts about V-header *)

Module VHeaderFacts.
Import VHeader.
Section VHeaderFacts.
Context {T : Type} `{EqDecision T}.
Variable SZ : size_type.
Variable value_init : T.
Implicit Types (b : new_buffer T) (vs : list T) (v : T).

Lemma header_empty_holds : holds SZ (empty_buffer (T:=T)) [].
Proof. done. Qed.

Lemma header_elements_holds b vs : holds SZ b vs → elements b = Some vs.
Proof.
  unfold holds, elements, size, ptr. destruct (m_data b) as [a|].
  - intros (Hsize & Hcap & Hptr). rewrite Hsize, Hptr. apply objects_filled. lia.
  - by intros ->.
Qed.

Lemma header_reallocate_holds b vs n :
  holds SZ b vs → Z.of_nat (length vs) <= n < modulus SZ →
  ∃ a, reallocate n b = Some (mk (Some a)) ∧ holds SZ (mk (Some a)) vs ∧
       h_capacity a = n.
Proof.
  unfold holds, reallocate, ptr. destruct (m_data b) as [a|]; simpl.
  - intros (Hsize & Hcap & Hptr) Hn.
    rewrite Hsize, Hptr, move_into_filled by lia. cbn [mbind option_bind].
    eexists; split; [done |]. simpl. repeat split; try lia; done.
  - intros -> Hn. eexists; split; [done |]. simpl.
    rewrite filled_nil. repeat split; try lia; done.
Qed.

Lemma header_push_back_grows b vs v :
  holds SZ b vs → size b < capacity b ∨ grows_exactly SZ (capacity b) →
  ∃ b', push_back SZ (object v) b = Some b' ∧ holds SZ b' (vs ++ [v]) ∧
        capacity b' = if size b <? capacity b then capacity b
                      else growth_policy (capacity b).
Proof.
  intros Hb Hfit. unfold push_back, next_capacity. fold (grow SZ (capacity b)).
  assert (size b = Z.of_nat (length vs) ∧
          Z.of_nat (length vs) <= capacity b < modulus SZ) as (Hsize & Hcap).
  { pose proof (modulus_pos SZ). unfold holds, size, capacity in *.
    destruct (m_data b); [| subst vs; simpl; lia]. lia. }
  destruct (Z.ltb_spec (size b) (capacity b)) as [Hlt|Hge];
    [clear Hfit | destruct Hfit as [Hfit|Hfit]; [lia |];
       destruct (grows_exactly_bounds SZ (capacity b) ltac:(lia) Hfit) as [Hgrow Hbounds];
       rewrite Hgrow].
  - rewrite Z.geb_leb, (proj2 (Z.leb_gt _ _)) by lia. cbn [mbind option_bind read_reference].
    unfold holds, size, capacity, ptr, with_storage, set_size in *.
    destruct (m_data b) as [a|]; [| lia]. destruct Hb as (_ & _ & Hptr).
    rewrite Hptr, Hsize, construct_at_filled by lia. simpl.
    eexists; split; [done |]. simpl. rewrite length_app; simpl.
    rewrite Hsize, to_SZ_small by lia. repeat split; try lia; done.
  - rewrite Z.geb_leb, (proj2 (Z.leb_le _ _)) by lia.
    destruct (header_reallocate_holds b vs (growth_policy (capacity b)))
      as (a & -> & Ha & Hcapa); [done | lia |].
    cbn [mbind option_bind read_reference].
    unfold holds, ptr, with_storage, set_size in *. simpl in *.
    destruct Ha as (Hsizea & _ & Hptr).
    rewrite Hptr, Hsize, construct_at_filled by lia. simpl.
    eexists; split; [done |]. simpl. rewrite length_app; simpl.
    rewrite Hsizea, to_SZ_small by lia. repeat split; try lia; done.
Qed.

Lemma header_push_back_holds b vs v :
  holds SZ b vs → size b < capacity b ∨ 3 * capacity b + 1 < modulus SZ →
  ∃ b', push_back SZ (object v) b = Some b' ∧ holds SZ b' (vs ++ [v]) ∧
        capacity b' = if size b <? capacity b then capacity b
                      else growth_policy (capacity b).
Proof.
  intros Hb Hfit. apply header_push_back_grows; [done |].
  destruct Hfit as [Hroom|Hfit]; [by left | right].
  apply grows_exactly_small; [| done].
  pose proof Hb as Hb'. unfold holds in Hb'. unfold capacity. destruct (m_data b); lia.
Qed.

Lemma header_reserve_noop b n : n <= size b → reserve value_init n b = Some b.
Proof.
  intros Hn. unfold reserve. by rewrite Z.gtb_ltb, (proj2 (Z.ltb_ge _ _)) by lia.
Qed.

Lemma header_reserve_grows b vs n :
  holds SZ b vs → size b < n < modulus SZ →
  ∃ b', reserve value_init n b = Some b' ∧
        holds SZ b' (vs ++ replicate (Z.to_nat n - length vs) value_init) ∧
        capacity b' = Z.max (capacity b) n.
Proof.
  intros Hb Hn.
  assert (size b = Z.of_nat (length vs) ∧
          Z.of_nat (length vs) <= capacity b < modulus SZ) as (Hsize & Hcap).
  { pose proof (modulus_pos SZ). unfold holds, size, capacity in *.
    destruct (m_data b); [| subst vs; simpl; lia]. lia. }
  unfold reserve. rewrite Z.gtb_ltb, (proj2 (Z.ltb_lt _ _)) by lia.
  unfold resize, resize_with, _reserve.
  rewrite (proj2 (Z.eqb_neq _ _)) by lia.
  assert (∃ a, (if n >? capacity b then reallocate n b else Some b) = Some (mk (Some a)) ∧
               holds SZ (mk (Some a)) vs ∧ h_capacity a = Z.max (capacity b) n)
    as (a & -> & Ha & Hcapa).
  { rewrite Z.gtb_ltb. destruct (Z.ltb_spec (capacity b) n).
    - destruct (header_reallocate_holds b vs n) as (a & ? & ? & ?); [done | lia |].
      exists a. split; [done | split; [done | lia]].
    - unfold holds, size, capacity in *. destruct b as [[a|]]; simpl in *; [| lia].
      exists a. split; [done | split; [done | lia]]. }
  cbn [mbind option_bind].
  unfold holds, size, ptr, with_storage, set_size in *. simpl in *.
  destruct Ha as (Hsizea & Hcapa' & Hptr).
  rewrite destroy_empty_range by lia.
  rewrite Hptr, Hsizea, construct_range_filled by lia. simpl.
  eexists; split; [done |]. unfold capacity; simpl.
  rewrite length_app, length_replicate. repeat split; try lia; done.
Qed.

Lemma header_erase_value_absent b vs v :
  holds SZ b vs → v ∉ vs → erase_value SZ v b = Some (b, size b).
Proof.
  intros Hb Hnot. unfold erase_value, holds, size, ptr in *.
  destruct (m_data b) as [a|].
  - destruct Hb as (Hsize & Hcap & Hptr).
    rewrite Hptr, Hsize, std_find_absent by done. cbn [mbind option_bind].
    by rewrite decide_False by (intros Hne; by apply Hne).
  - by subst vs.
Qed.

Lemma header_erase_value_first b (l1 l2 : list T) v :
  holds SZ b (l1 ++ v :: l2) → v ∉ l1 →
  ∃ b', erase_value SZ v b = Some (b', Z.of_nat (length l1)) ∧
        holds SZ b' (l1 ++ l2) ∧ capacity b' = capacity b.
Proof.
  intros Hb Hnot.
  unfold erase_value, erase, holds, size, capacity, ptr, with_storage, set_size in *.
  destruct (m_data b) as [a|]; [| by destruct l1]. simpl.
  destruct Hb as (Hsize & Hcap & Hptr).
  rewrite Hptr, Hsize, std_find_first by done. cbn [mbind option_bind].
  rewrite length_app in *. cbn [length] in *.
  rewrite decide_True by lia. rewrite !to_SZ_small by lia.
  rewrite count_after_exact by lia.
  rewrite erase_slots by (rewrite length_app; cbn [length]; lia).
  simpl. eexists; split; [done |]. simpl.
  rewrite length_app. repeat split; try lia; done.
Qed.

Lemma header_pop_back_keeps_last b vs v :
  holds SZ b (vs ++ [v]) →
  ∃ b', pop_back SZ b = Some b' ∧ size b' = Z.of_nat (length vs) ∧
        capacity b' = capacity b ∧
        ptr b' !! length vs = Some (Live v).
Proof.
  intros Hb. unfold pop_back, holds, size, capacity, ptr, with_storage, set_size in *.
  destruct (m_data b) as [a|]; [| by destruct vs]. simpl.
  destruct Hb as (Hsize & Hcap & Hptr). rewrite length_app in *. cbn [length] in *.
  rewrite Hptr, Hsize.
  replace (Z.of_nat (length vs + 1)) with (Z.of_nat (length (vs ++ [v])))
    by (rewrite length_app; simpl; lia).
  rewrite destroy_at_end. eexists; split; [done |]. simpl.
  rewrite length_app; cbn [length]. rewrite to_SZ_small by lia.
  split; [lia |]. split; [done |]. apply lookup_filled_last.
Qed.

End VHeaderFacts.
End VHeaderFacts.

(** ** Facts about V-split-actual *)

Module VSplitActualFacts.
Import VSplitActual.
Section VSplitActualFacts.
Context {T : Type}.
Variable SZ : size_type.
Variable usable_elements : Z → Z.
Implicit Types (b : new_buffer T) (vs : list T) (v : T).

Lemma actual_empty_holds : holds SZ (empty_buffer (T:=T)) [].
Proof.
  pose proof (modulus_pos SZ). unfold holds, empty_buffer; simpl. repeat split; lia || done.
Qed.

Lemma actual_with_storage_ptr b : with_storage b (ptr b) = b.
Proof. destruct b as [[p|] n c]; done. Qed.

Lemma actual_reallocate_holds b vs n :
  holds SZ b vs →
  Z.of_nat (length vs) <= usable_elements n < modulus SZ → 0 < usable_elements n →
  ∃ b', reallocate SZ usable_elements n b = Some b' ∧ holds SZ b' vs ∧
        capacity b' = usable_elements n.
Proof.
  intros (Hsize & Hcap & Hptr & Hnull) Hn Hpos. unfold reallocate.
  rewrite Hsize, Hptr, move_into_filled by lia. cbn [mbind option_bind].
  eexists; split; [done |]. unfold capacity; simpl. rewrite to_SZ_small by lia.
  split; [| done].
  unfold holds; simpl. repeat split; try lia; done.
Qed.

(** The allocator reports at least what was requested, and the usable size
    of the grown allocation fits the size type. *)
Lemma actual_push_back_grows b vs v :
  holds SZ b vs →
  size b < capacity b ∨
    (grows_exactly SZ (capacity b) ∧
     growth_policy (capacity b) <= usable_elements (growth_policy (capacity b))
       < modulus SZ) →
  ∃ b', push_back SZ usable_elements (object v) b = Some b' ∧ holds SZ b' (vs ++ [v]) ∧
        capacity b' = if size b <? capacity b then capacity b
                      else usable_elements (growth_policy (capacity b)).
Proof.
  intros Hb Hfit. pose proof Hb as (Hsize & Hcap & Hptr & Hnull).
  unfold push_back, next_capacity. fold (grow SZ (capacity b)).
  unfold size, capacity in *.
  destruct (Z.ltb_spec (m_size b) (m_capacity b)) as [Hlt|Hge];
    [clear Hfit | destruct Hfit as [Hfit|[Hfit Husable]]; [lia |];
       destruct (grows_exactly_bounds SZ (m_capacity b) ltac:(lia) Hfit) as [Hgrow Hbounds];
       rewrite Hgrow].
  - rewrite Z.geb_leb, (proj2 (Z.leb_gt _ _)) by lia. cbn [mbind option_bind read_reference].
    rewrite Hptr, Hsize, construct_at_filled by lia. cbn [mbind option_bind read_reference].
    eexists; split; [done |]. split; [| done].
    unfold holds; simpl. rewrite length_app; simpl.
    destruct (m_data b) eqn:Hd; [| specialize (Hnull eq_refl); lia].
    rewrite to_SZ_small by lia. unfold ptr; simpl. rewrite Hd; simpl.
    repeat split; try lia; done.
  - assert (m_size b = m_capacity b) as Heq by lia.
    rewrite Z.geb_leb, (proj2 (Z.leb_le _ _)) by lia.
    destruct (actual_reallocate_holds b vs (growth_policy (m_capacity b)))
      as (b1 & -> & Hb1 & Hcap1); [done | lia | lia |].
    cbn [mbind option_bind read_reference].
    destruct Hb1 as (Hsize1 & Hcapb1 & Hptr1 & Hnull1). unfold capacity in Hcap1.
    rewrite Hptr1, Hsize1, construct_at_filled by lia. cbn [mbind option_bind read_reference].
    eexists; split; [done |]. split; [| simpl; lia].
    unfold holds; simpl. rewrite length_app; simpl.
    destruct (m_data b1) eqn:Hd; [| specialize (Hnull1 eq_refl); lia].
    rewrite to_SZ_small by lia. unfold ptr; simpl. rewrite Hd; simpl.
    repeat split; try lia; done.
Qed.

Lemma actual_push_back_holds b vs v :
  holds SZ b vs →
  size b < capacity b ∨
    (3 * capacity b + 1 < modulus SZ ∧
     growth_policy (capacity b) <= usable_elements (growth_policy (capacity b))
       < modulus SZ) →
  ∃ b', push_back SZ usable_elements (object v) b = Some b' ∧ holds SZ b' (vs ++ [v]) ∧
        capacity b' = if size b <? capacity b then capacity b
                      else usable_elements (growth_policy (capacity b)).
Proof.
  intros Hb Hfit. apply actual_push_back_grows; [done |].
  destruct Hfit as [Hroom|[Hfit Husable]]; [by left | right].
  split; [| done]. apply grows_exactly_small; [| done].
  pose proof Hb as Hb'. unfold holds in Hb'. unfold capacity. lia.
Qed.

Lemma actual_pop_back_keeps_last b vs v :
  holds SZ b (vs ++ [v]) →
  pop_back SZ b = with_size b (Z.of_nat (length vs)) ∧
  ptr (pop_back SZ b) !! length vs = Some (Live v).
Proof.
  intros (Hsize & Hcap & Hptr & Hnull). rewrite length_app in *. cbn [length] in *.
  assert (pop_back SZ b = with_size b (Z.of_nat (length vs))) as ->.
  { unfold pop_back, size. rewrite Hptr, Hsize.
    replace (Z.of_nat (length vs + 1)) with (Z.of_nat (length (vs ++ [v])))
      by (rewrite length_app; simpl; lia).
    rewrite destroy_at_end, <- Hptr, actual_with_storage_ptr, Hsize.
    rewrite to_SZ_small by lia. f_equal. lia. }
  split; [done |].
  change (ptr (with_size b (Z.of_nat (length vs)))) with (ptr b).
  rewrite Hptr. apply lookup_filled_last.
Qed.

End VSplitActualFacts.
End VSplitActualFacts.

(** ** Facts about the comparison operators *)

Import Compare.

Lemma operator_eq_iff (lhs rhs : list Z) :
  Compare.operator_eq lhs rhs = true ↔ lhs = rhs.
Proof.
  unfold Compare.operator_eq. destruct (decide (length lhs ≠ length rhs)) as [Hne|Heq].
  - split; [done | by intros ->].
  - assert (length lhs = length rhs) as Hlen by (destruct (decide (length lhs = length rhs)); done).
    clear Heq. revert rhs Hlen.
    induction lhs as [|x lhs IH]; intros [|y rhs] Hlen; try done.
    cbn [Compare.all_equal Compare.elem_ne Compare.Z_comparable].
    destruct (Z.eqb_spec x y) as [->|Hxy]; cbn [negb].
    + rewrite IH by (simpl in Hlen; lia). split; [by intros -> | by intros [= ->]].
    + split; [done | by intros [= ? ?]].
Qed.

Lemma operator_lt_iff (lhs rhs : list Z) :
  Compare.operator_lt lhs rhs = true ↔ Compare.lex_lt lhs rhs.
Proof.
  unfold Compare.operator_lt. revert rhs.
  induction lhs as [|x lhs IH]; intros [|y rhs];
    cbn [Compare.lexicographical_compare Compare.elem_lt Compare.Z_comparable].
  - split; [done | inversion 1].
  - split; [constructor | done].
  - split; [done | inversion 1].
  - destruct (Z.ltb_spec x y) as [Hlt|Hge].
    + split; [by constructor | done].
    + destruct (Z.ltb_spec y x) as [Hgt|Hle].
      * split; [done |]. inversion 1; subst; lia.
      * assert (x = y) as -> by lia. rewrite IH.
        split; [by constructor |]. inversion 1; subst; [lia | done].
Qed.

(** ** More facts about the bulk primitives *)

Section BulkFacts.
Context {T : Type}.
Implicit Types (p d pre rest : block T) (vs ws : list T) (v x : T).

Lemma read_at_filled vs cap (i : nat) :
  read_at (filled vs cap) (Z.of_nat i) = vs !! i.
Proof.
  unfold read_at, filled. rewrite decide_True by lia. rewrite Nat2Z.id.
  destruct (vs !! i) as [v|] eqn:Hi.
  - rewrite lookup_app_l by (rewrite length_fmap; by eapply lookup_lt_Some).
    by rewrite list_lookup_fmap, Hi.
  - apply lookup_ge_None in Hi.
    rewrite lookup_app_r by (rewrite length_fmap; lia).
    destruct (replicate _ _ !! _) as [s|] eqn:Hr; [| done].
    apply lookup_replicate in Hr as [-> _]. done.
Qed.

Lemma read_at_negative p i : i < 0 → read_at p i = None.
Proof. intros Hi. unfold read_at. by rewrite decide_False by lia. Qed.

Lemma assign_at_filled vs cap (i : nat) x v :
  vs !! i = Some x →
  assign_at (filled vs cap) (Z.of_nat i) v = Some (filled (<[i := v]> vs) cap).
Proof.
  intros Hi. unfold assign_at. rewrite read_at_filled, Hi. cbn [mbind option_bind].
  f_equal. rewrite Nat2Z.id. unfold filled.
  rewrite insert_app_l by (rewrite length_fmap; by eapply lookup_lt_Some).
  by rewrite list_fmap_insert, length_insert.
Qed.

(** Destroying from offset [n] to the end of the elements. *)
Lemma destroy_filled_from vs cap (n : nat) :
  Z.of_nat (length vs) <= cap → (n <= length vs)%nat →
  destroy (filled vs cap) (Z.of_nat n) (Z.of_nat (length vs)) = filled (take n vs) cap.
Proof.
  intros Hcap Hn. unfold filled.
  rewrite <- (take_drop n vs) at 1. rewrite fmap_app, <- app_assoc.
  replace (Z.of_nat n) with (Z.of_nat (length (Live <$> take n vs)))
    by (rewrite length_fmap, length_take; lia).
  replace (Z.of_nat (length vs))
    with (Z.of_nat (length (Live <$> take n vs) + length (drop n vs)))
    by (rewrite length_fmap, length_take, length_drop; lia).
  rewrite destroy_app. f_equal. rewrite <- replicate_add. f_equal.
  rewrite length_drop, length_take. lia.
Qed.

(** Copying the first objects of any array into fresh storage. *)
Lemma copy_into_array vs rest n :
  Z.of_nat (length vs) <= n →
  copy_into (allocate n) ((Live <$> vs) ++ rest) (Z.of_nat (length vs))
  = Some (filled vs n).
Proof.
  intros Hn. unfold copy_into. rewrite Nat2Z.id.
  pose proof (uninitialized_copy_app vs 0 (allocate n) [] rest eq_refl) as Hcopy.
  simpl in Hcopy. change (Z.of_nat 0) with 0 in Hcopy.
  rewrite Hcopy by (rewrite length_allocate; lia).
  unfold filled, allocate. by rewrite drop_replicate.
Qed.

Lemma fill_from_app v ws : ∀ pre rest,
  fill_from (pre ++ (Live <$> ws) ++ rest) (Z.of_nat (length pre)) (length ws) v
  = Some (pre ++ (Live <$> replicate (length ws) v) ++ rest).
Proof.
  induction ws as [|w ws IH]; intros pre rest; [done |].
  rewrite fmap_cons. cbn [length fill_from app replicate].
  unfold assign_at.
  rewrite (read_at_lookup _ _ w); last first.
  { rewrite lookup_app_r by lia. by rewrite Nat.sub_diag. }
  cbn [mbind option_bind]. rewrite Nat2Z.id.
  replace (length pre) with (length pre + 0)%nat at 1 by lia.
  rewrite insert_app_r. cbn [insert list_insert].
  replace (pre ++ Live v :: (Live <$> ws) ++ rest)
    with ((pre ++ [Live v]) ++ (Live <$> ws) ++ rest) by by rewrite <- app_assoc.
  replace (Z.of_nat (length pre) + 1) with (Z.of_nat (length (pre ++ [Live v])))
    by (rewrite length_app; simpl; lia).
  rewrite IH. rewrite fmap_cons. by rewrite <- app_assoc.
Qed.

Lemma std_fill_filled vs cap v :
  std_fill (filled vs cap) 0 (Z.of_nat (length vs)) v
  = Some (filled (replicate (length vs) v) cap).
Proof.
  unfold std_fill, filled.
  replace (Z.to_nat (Z.of_nat (length vs) - 0)) with (length vs) by lia.
  pose proof (fill_from_app v vs [] (replicate (Z.to_nat cap - length vs) Raw)) as Hfill.
  simpl in Hfill. change (Z.of_nat 0) with 0 in Hfill.
  rewrite Hfill. by rewrite length_replicate.
Qed.


Lemma iter_swap_ends pre x (mid : list T) y rest :
  iter_swap (pre ++ Live x :: (Live <$> mid) ++ Live y :: rest)
    (Z.of_nat (length pre)) (Z.of_nat (length pre + S (length mid)))
  = Some (pre ++ Live y :: (Live <$> mid) ++ Live x :: rest).
Proof.
  unfold iter_swap, assign_at.
  assert (∀ a b, (pre ++ Live a :: (Live <$> mid) ++ Live b :: rest) !! length pre
                 = Some (Live a)) as Hfirst.
  { intros a b. rewrite lookup_app_r by lia. by rewrite Nat.sub_diag. }
  assert (∀ a b, (pre ++ Live a :: (Live <$> mid) ++ Live b :: rest)
                   !! (length pre + S (length mid))%nat = Some (Live b)) as Hlast.
  { intros a b.
    replace (pre ++ Live a :: (Live <$> mid) ++ Live b :: rest)
      with ((pre ++ Live a :: (Live <$> mid)) ++ Live b :: rest)
      by by rewrite <- app_assoc.
    rewrite lookup_app_r by (rewrite length_app; cbn [length]; rewrite length_fmap; lia).
    rewrite length_app. cbn [length]. rewrite length_fmap. by rewrite Nat.sub_diag. }
  rewrite (read_at_lookup _ _ x) by apply Hfirst.
  rewrite (read_at_lookup _ _ y) by apply Hlast. cbn [mbind option_bind].
  rewrite !Nat2Z.id.
  rewrite (insert_app_r_alt pre _ (length pre)) by lia.
  rewrite Nat.sub_diag. cbn [insert list_insert].
  rewrite (read_at_lookup _ _ y) by apply Hlast. cbn [mbind option_bind].
  f_equal.
  rewrite insert_app_r_alt by lia.
  replace (length pre + S (length mid) - length pre)%nat with (S (length mid)) by lia.
  f_equal. rewrite !app_comm_cons.
  rewrite insert_app_r_alt by (cbn [length]; rewrite length_fmap; lia).
  cbn [length]. by rewrite length_fmap, Nat.sub_diag.
Qed.

Lemma reverse_loop_app (n : nat) : ∀ (mid : list T) pre rest,
  (length mid <= n)%nat →
  reverse_loop (pre ++ (Live <$> mid) ++ rest) (Z.of_nat (length pre))
    (Z.of_nat (length pre) + Z.of_nat (length mid) - 1) n
  = Some (pre ++ (Live <$> rev mid) ++ rest).
Proof.
  induction n as [|n IH]; intros mid pre rest Hlen.
  - by destruct mid; [| simpl in Hlen; lia].
  - cbn [reverse_loop]. destruct mid as [|x mid].
    { by rewrite (proj2 (Z.ltb_ge _ _)) by (simpl; lia). }
    destruct mid as [|y mid _] using rev_ind.
    { by rewrite (proj2 (Z.ltb_ge _ _)) by (simpl; lia). }
    cbn [length] in Hlen. rewrite length_app in Hlen. cbn [length] in Hlen.
    rewrite (proj2 (Z.ltb_lt _ _)) by (cbn [length]; rewrite length_app; simpl; lia).
    rewrite fmap_cons, fmap_app. cbn [fmap list_fmap app]. rewrite <- app_assoc.
    cbn [app].
    replace (Z.of_nat (length pre) + Z.of_nat (length (x :: mid ++ [y])) - 1)
      with (Z.of_nat (length pre + S (length mid)))
      by (cbn [length]; rewrite length_app; simpl; lia).
    rewrite iter_swap_ends. cbn [mbind option_bind].
    replace (pre ++ Live y :: (Live <$> mid) ++ Live x :: rest)
      with ((pre ++ [Live y]) ++ (Live <$> mid) ++ Live x :: rest)
      by by rewrite <- app_assoc.
    replace (Z.of_nat (length pre) + 1) with (Z.of_nat (length (pre ++ [Live y])))
      by (rewrite length_app; simpl; lia).
    replace (Z.of_nat (length pre + S (length mid)) - 1)
      with (Z.of_nat (length (pre ++ [Live y])) + Z.of_nat (length mid) - 1)
      by (rewrite length_app; simpl; lia).
    rewrite IH by lia.
    f_equal. rewrite <- app_assoc. cbn [app]. f_equal.
    cbn [rev]. rewrite rev_app_distr. cbn [rev app].
    rewrite fmap_cons, fmap_app. cbn [fmap list_fmap app].
    by rewrite <- app_assoc.
Qed.

Lemma std_reverse_filled vs cap :
  std_reverse (filled vs cap) 0 (Z.of_nat (length vs)) = Some (filled (rev vs) cap).
Proof.
  unfold std_reverse. destruct (Z.eqb_spec 0 (Z.of_nat (length vs))) as [Heq|Hne].
  - by destruct vs.
  - unfold filled.
    pose proof (reverse_loop_app (length vs) vs []
                  (replicate (Z.to_nat cap - length vs) Raw) (le_n _)) as Hrev.
    simpl in Hrev. change (Z.of_nat 0) with 0 in Hrev.
    replace (Z.to_nat (Z.of_nat (length vs) - 0)) with (length vs) by lia.
    replace (Z.of_nat (length vs) - 1) with (0 + Z.of_nat (length vs) - 1) by lia.
    rewrite Hrev. by rewrite length_rev.
Qed.


(** One step of [move_around] towards lower addresses over a gap of
    [S k] raw slots. *)
Lemma move_one_down pre (k : nat) v rest (d i : nat) :
  length pre = (d + i)%nat →
  move_one (pre ++ replicate (S k) Raw ++ Live v :: rest)
    (Z.of_nat d) (Z.of_nat (d + S k)) (Z.of_nat i)
  = Some (pre ++ Live v :: replicate (S k) Raw ++ rest).
Proof.
  intros Hpre. unfold move_one.
  replace (Z.of_nat (d + S k) + Z.of_nat i) with (Z.of_nat (length pre + S k)) by lia.
  replace (Z.of_nat d + Z.of_nat i) with (Z.of_nat (length pre)) by lia.
  rewrite (read_at_lookup _ _ v); last first.
  { rewrite lookup_app_r by lia.
    rewrite lookup_app_r by (rewrite length_replicate; lia).
    rewrite length_replicate.
    by replace (length pre + S k - length pre - S k)%nat with 0%nat by lia. }
  cbn [mbind option_bind].
  rewrite construct_at_lookup by (rewrite length_app; simpl; lia).
  cbn [mbind option_bind]. f_equal. rewrite destroy_at_nat.
  rewrite (insert_app_r_alt pre _ (length pre)) by lia.
  rewrite Nat.sub_diag. cbn [replicate app insert list_insert].
  rewrite insert_app_r_alt by lia.
  replace (length pre + S k - length pre)%nat with (S k) by lia.
  f_equal. rewrite !app_comm_cons.
  rewrite insert_app_r_alt by (cbn [length]; rewrite length_replicate; lia).
  cbn [length]. rewrite length_replicate, Nat.sub_diag. cbn [insert list_insert].
  rewrite <- !app_comm_cons. f_equal.
  rewrite app_comm_cons, replicate_cons_app, <- app_assoc. done.
Qed.

Lemma move_forward_down (k : nat) ws : ∀ pre rest (d i : nat),
  length pre = (d + i)%nat →
  move_forward (pre ++ replicate (S k) Raw ++ (Live <$> ws) ++ rest)
    (Z.of_nat d) (Z.of_nat (d + S k)) (Z.of_nat i) (length ws)
  = Some (pre ++ (Live <$> ws) ++ replicate (S k) Raw ++ rest).
Proof.
  induction ws as [|w ws IH]; intros pre rest d i Hpre; [done |].
  rewrite fmap_cons. cbn [length move_forward app].
  rewrite move_one_down by done. cbn [mbind option_bind].
  replace (pre ++ Live w :: replicate (S k) Raw ++ (Live <$> ws) ++ rest)
    with ((pre ++ [Live w]) ++ replicate (S k) Raw ++ (Live <$> ws) ++ rest)
    by by rewrite <- app_assoc.
  replace (Z.of_nat i + 1) with (Z.of_nat (S i)) by lia.
  rewrite IH by (rewrite length_app; simpl; lia).
  by rewrite <- app_assoc.
Qed.

Lemma insert_middle {A} (l1 l2 : list A) (n : nat) (a b : A) :
  n = length l1 → <[n := a]> (l1 ++ b :: l2) = l1 ++ a :: l2.
Proof. intros ->. rewrite insert_app_r_alt by lia. by rewrite Nat.sub_diag. Qed.

(** One step of [move_around] towards higher addresses over a gap of
    [S k] raw slots. *)
Lemma move_one_up pre (k : nat) v rest (s i : nat) :
  length pre = (s + i)%nat →
  move_one (pre ++ Live v :: replicate (S k) Raw ++ rest)
    (Z.of_nat (s + S k)) (Z.of_nat s) (Z.of_nat i)
  = Some (pre ++ replicate (S k) Raw ++ Live v :: rest).
Proof.
  intros Hpre. unfold move_one.
  replace (Z.of_nat s + Z.of_nat i) with (Z.of_nat (length pre)) by lia.
  replace (Z.of_nat (s + S k) + Z.of_nat i) with (Z.of_nat (length pre + S k)) by lia.
  rewrite (read_at_lookup _ _ v); last first.
  { rewrite lookup_app_r by lia. by rewrite Nat.sub_diag. }
  cbn [mbind option_bind].
  rewrite construct_at_lookup
    by (rewrite length_app; cbn [length]; rewrite length_app, length_replicate; lia).
  cbn [mbind option_bind]. f_equal. rewrite destroy_at_nat.
  replace (pre ++ Live v :: replicate (S k) Raw ++ rest)
    with ((pre ++ Live v :: replicate k Raw) ++ Raw :: rest)
    by (rewrite (replicate_S_end k), <- !app_assoc; cbn [app];
        by rewrite <- ?app_assoc).
  rewrite (insert_middle _ rest _ (Live v) Raw)
    by (rewrite length_app; cbn [length]; rewrite length_replicate; lia).
  rewrite <- app_assoc. cbn [app].
  by rewrite (insert_middle pre _ _ Raw (Live v)).
Qed.

Lemma move_backward_up (k : nat) ws : ∀ pre rest,
  move_backward (pre ++ (Live <$> ws) ++ replicate (S k) Raw ++ rest)
    (Z.of_nat (length pre + S k)) (Z.of_nat (length pre)) (length ws)
  = Some (pre ++ replicate (S k) Raw ++ (Live <$> ws) ++ rest).
Proof.
  induction ws as [|w ws IH] using rev_ind; intros pre rest; [done |].
  rewrite length_app. cbn [length]. rewrite Nat.add_1_r. cbn [move_backward].
  rewrite fmap_app. cbn [fmap list_fmap]. rewrite <- !app_assoc. cbn [app].
  rewrite app_assoc.
  rewrite (move_one_up (pre ++ (Live <$> ws)) k w rest (length pre) (length ws))
    by (by rewrite length_app, length_fmap).
  cbn [mbind option_bind]. rewrite <- app_assoc.
  rewrite (IH pre (Live w :: rest)). done.
Qed.

(** The offsets and the count of [move_around] as the source passes
    them. *)
Lemma move_around_down pre (k : nat) ws rest :
  move_around (pre ++ replicate (S k) Raw ++ (Live <$> ws) ++ rest)
    (Z.of_nat (length pre)) (Z.of_nat (length pre + S k)) (Z.of_nat (length ws))
  = Some (pre ++ (Live <$> ws) ++ replicate (S k) Raw ++ rest).
Proof.
  unfold move_around. rewrite (proj2 (Z.ltb_lt _ _)) by lia. rewrite Nat2Z.id.
  change 0 with (Z.of_nat 0).
  apply (move_forward_down k ws pre rest (length pre) 0). lia.
Qed.

Lemma move_around_up pre (k : nat) ws rest :
  move_around (pre ++ (Live <$> ws) ++ replicate (S k) Raw ++ rest)
    (Z.of_nat (length pre + S k)) (Z.of_nat (length pre)) (Z.of_nat (length ws))
  = Some (pre ++ replicate (S k) Raw ++ (Live <$> ws) ++ rest).
Proof.
  unfold move_around. rewrite (proj2 (Z.ltb_ge _ _)) by lia. rewrite Nat2Z.id.
  apply move_backward_up.
Qed.

End BulkFacts.

(** ** More facts about V-split *)

Module VSplitMore.
Import VSplit VSplitFacts.
Section VSplitMore.
Context {T : Type} `{EqDecision T}.
Variable SZ : size_type.
Implicit Types (b : new_buffer T) (vs ws : list T) (v x : T).

(** A buffer that satisfies the invariant is determined by its elements,
    its capacity and whether it is null. *)
Lemma split_holds_inv b vs :
  holds SZ b vs →
  (∃ cap, Z.of_nat (length vs) <= cap < modulus SZ ∧
          b = mk (Some (filled vs cap)) (Z.of_nat (length vs)) cap) ∨
  (vs = [] ∧ b = mk None 0 0).
Proof.
  destruct b as [[p|] n c]; unfold holds, ptr; simpl.
  - intros (-> & Hc & -> & _). left. by exists c.
  - intros (-> & Hc & Hp & Hnull). specialize (Hnull eq_refl). subst c.
    destruct vs; [| done]. by right.
Qed.

Lemma split_holds_filled vs cap :
  Z.of_nat (length vs) <= cap < modulus SZ →
  holds SZ (mk (Some (filled vs cap)) (Z.of_nat (length vs)) cap) vs.
Proof. intros Hc. unfold holds, ptr; simpl. repeat split; try lia; done. Qed.

Lemma split_holds_filled_size vs cap n :
  n = Z.of_nat (length vs) → Z.of_nat (length vs) <= cap < modulus SZ →
  holds SZ (mk (Some (filled vs cap)) n cap) vs.
Proof. intros ->. apply split_holds_filled. Qed.

Lemma split_holds_null : holds SZ (mk (T:=T) None 0 0) [].
Proof. apply split_empty_holds. Qed.

Lemma split_clear_holds b vs :
  holds SZ b vs → holds SZ (clear b) [] ∧ capacity (clear b) = capacity b.
Proof.
  intros Hb. destruct (split_holds_inv b vs Hb) as [(cap & Hc & ->) | [-> ->]].
  - unfold clear, size, capacity, ptr, with_storage, with_size. simpl.
    rewrite destroy_filled by lia. rewrite <- filled_nil.
    split; [| done]. apply (split_holds_filled []). simpl. lia.
  - split; [| done]. apply split_holds_null.
Qed.

Lemma split_resize_holds b vs count v :
  holds SZ b vs → 0 <= count < modulus SZ →
  ∃ b', resize_with count (object v) b = Some b' ∧
        holds SZ b' (take (Z.to_nat count) vs ++ replicate (Z.to_nat count - length vs) v) ∧
        capacity b' = Z.max (capacity b) count.
Proof.
  intros Hb Hcount.
  assert (∃ n : nat, count = Z.of_nat n) as [n ->] by (exists (Z.to_nat count); lia).
  rewrite Nat2Z.id. unfold resize_with, _reserve.
  assert (∃ b1, (if (Z.of_nat n) >? capacity b then reallocate (Z.of_nat n) b else Some b) = Some b1 ∧
                holds SZ b1 vs ∧ capacity b1 = Z.max (capacity b) (Z.of_nat n))
    as (b1 & -> & Hb1 & Hcap1).
  { pose proof Hb as (_ & Hc & _). unfold capacity.
    rewrite Z.gtb_ltb. destruct (Z.ltb_spec (m_capacity b) (Z.of_nat n)).
    - destruct (split_reallocate_holds SZ b vs (Z.of_nat n)) as (b1 & ? & ? & ?); [done | lia | lia |].
      exists b1. unfold capacity in *. split; [done | split; [done | lia]].
    - exists b. split; [done | split; [done | lia]]. }
  cbn [mbind option_bind].
  assert ((Z.of_nat n) <= m_capacity b1) as Hcc by (unfold capacity in Hcap1; lia).
  rewrite <- Hcap1. clear Hb Hcap1.
  destruct (split_holds_inv b1 vs Hb1) as [(cap & Hc & ->) | [-> ->]]; simpl in Hcc.
  - unfold size, capacity, ptr, with_storage, with_size. simpl.
    destruct (Z.le_gt_cases (Z.of_nat (length vs)) (Z.of_nat n)) as [Hle|Hgt].
    + rewrite destroy_empty_range by lia.
      rewrite construct_range_filled by lia. cbn [mbind option_bind].
      rewrite take_ge by lia.
      eexists; split; [done |]. split; [| done].
      rewrite Nat2Z.id.
      replace (Z.of_nat n) with (Z.of_nat (length (vs ++ replicate (n - length vs) v)))
        by (rewrite length_app, length_replicate; lia).
      apply split_holds_filled. rewrite length_app, length_replicate. lia.
    + replace (n - length vs)%nat with 0%nat by lia.
      rewrite app_nil_r.
      rewrite destroy_filled_from by lia.
      unfold construct_range.
      replace (Z.to_nat (Z.of_nat n - Z.of_nat (length vs))) with 0%nat by lia.
      cbn [construct_from mbind option_bind].
      eexists; split; [done |]. split; [| done].
      replace (Z.of_nat n) with (Z.of_nat (length (take n vs)))
        by (rewrite length_take; lia).
      apply split_holds_filled. rewrite length_take. lia.
  - unfold size, capacity, ptr, with_storage, with_size. simpl.
    assert (n = 0%nat) as -> by (simpl in *; lia). cbn.
    eexists; split; [done |]. split; [| done]. apply split_holds_null.
Qed.


Lemma split_shrink_to_fit_holds b vs :
  holds SZ b vs →
  ∃ b', shrink_to_fit b = Some b' ∧ holds SZ b' vs ∧
        capacity b' = Z.of_nat (length vs) ∧
        (vs = [] → m_data b' = None) ∧
        shrink_to_fit b' = Some b'.
Proof.
  intros Hb. destruct (split_holds_inv b vs Hb) as [(cap & Hc & ->) | [-> ->]].
  - unfold shrink_to_fit, size, capacity. cbn [m_size m_capacity m_data].
    destruct vs as [|v vs].
    + cbn. eexists; split; [done |]. split; [apply split_holds_null | done].
    + rewrite Z.gtb_ltb, (proj2 (Z.ltb_lt _ _)) by (cbn [length]; lia).
      destruct (Z.eqb_spec (Z.of_nat (length (v :: vs))) cap) as [Hfit|Hfit];
        cbn [negb].
      * eexists; split; [done |].
        split; [done |]. split; [done |]. split; [done |].
        cbn [m_size m_capacity m_data].
        rewrite Z.gtb_ltb, (proj2 (Z.ltb_lt _ _)) by (cbn [length]; lia).
        by rewrite (proj2 (Z.eqb_eq _ _)).
      * unfold reallocate, ptr. cbn [m_data m_size].
        rewrite move_into_filled by lia. cbn [mbind option_bind].
        eexists; split; [done |].
        split; [apply split_holds_filled; lia |].
        split; [done |]. split; [done |].
        cbn [m_size m_capacity m_data].
        rewrite Z.gtb_ltb, (proj2 (Z.ltb_lt _ _)) by (cbn [length]; lia).
        by rewrite Z.eqb_refl.
  - exists (mk None 0 0). split; [done |]. split; [apply split_holds_null | done].
Qed.

Lemma split_copy_construct_holds other vs :
  holds SZ other vs →
  ∃ this, copy_construct other = Some this ∧ holds SZ this vs ∧
          capacity this = Z.of_nat (length vs).
Proof.
  intros Hb. destruct (split_holds_inv other vs Hb) as [(cap & Hc & ->) | [-> ->]].
  - unfold copy_construct. cbn [m_size].
    destruct vs as [|v vs].
    + cbn. eexists; split; [done |]. split; [apply split_holds_null | done].
    + rewrite Z.gtb_ltb, (proj2 (Z.ltb_lt _ _)) by (cbn [length]; lia).
      unfold reallocate, empty_buffer, ptr. cbn [m_data m_size].
      change (move_into (allocate ?n) [] 0) with (Some (allocate (T:=T) n)).
      cbn [mbind option_bind with_storage m_data fmap option_fmap option_map].
      rewrite copy_into_filled by lia. cbn [mbind option_bind].
      eexists; split; [done |].
      unfold with_size, with_storage.
      cbn [m_data m_size m_capacity fmap option_fmap option_map].
      split; [apply split_holds_filled; lia | done].
  - exists (mk None 0 0). split; [done |]. split; [apply split_holds_null | done].
Qed.

Lemma split_construct_from_array vs rest :
  Z.of_nat (length vs) < modulus SZ →
  ∃ this, construct_from_array (Z.of_nat (length vs)) ((Live <$> vs) ++ rest) = Some this ∧
          holds SZ this vs ∧ capacity this = Z.of_nat (length vs).
Proof.
  intros Hlen. unfold construct_from_array.
  destruct vs as [|v vs].
  - cbn. eexists; split; [done |]. split; [apply split_holds_null | done].
  - rewrite Z.gtb_ltb, (proj2 (Z.ltb_lt _ _)) by (cbn [length]; lia).
    unfold reallocate, empty_buffer, ptr. cbn [m_data m_size].
    change (move_into (allocate ?n) [] 0) with (Some (allocate (T:=T) n)).
    cbn [mbind option_bind with_storage m_data fmap option_fmap option_map].
    rewrite copy_into_array by lia. cbn [mbind option_bind].
    eexists; split; [done |].
    unfold with_size, with_storage.
    cbn [m_data m_size m_capacity fmap option_fmap option_map].
    split; [apply split_holds_filled; lia | done].
Qed.

Lemma split_erase_at b vs (i : nat) x :
  holds SZ b vs → vs !! i = Some x →
  ∃ b', erase SZ (Z.of_nat i) b = Some (b', Z.of_nat i) ∧
        holds SZ b' (delete i vs) ∧ capacity b' = capacity b.
Proof.
  intros Hb Hi. pose proof (lookup_lt_Some _ _ _ Hi) as Hlt.
  destruct (split_holds_inv b vs Hb) as [(cap & Hc & ->) | [-> ->]]; [| done].
  clear Hb.
  assert (∃ l1 l2, vs = l1 ++ x :: l2 ∧ length l1 = i) as (l1 & l2 & -> & Hl1).
  { exists (take i vs), (drop (S i) vs).
    split; [by rewrite take_drop_middle | rewrite length_take; lia]. }
  clear Hi. subst i. rewrite delete_middle.
  rewrite length_app in *. cbn [length] in *.
  unfold erase, size, capacity, ptr, with_storage, with_size.
  cbn [m_data m_size m_capacity fmap option_fmap option_map].
  rewrite !to_SZ_small by lia.
  rewrite count_after_exact by lia.
  rewrite erase_slots by (rewrite length_app; cbn [length]; lia).
  cbn [mbind option_bind].
  eexists; split; [done |]. split; [| done].
  replace (Z.of_nat (length l1 + S (length l2)) - 1)
    with (Z.of_nat (length (l1 ++ l2))) by (rewrite length_app; lia).
  apply split_holds_filled. rewrite length_app. lia.
Qed.

Lemma split_at_index b vs (i : nat) :
  holds SZ b vs → at_index (Z.of_nat i) b = vs !! i.
Proof.
  intros (_ & _ & Hptr & _). unfold at_index. rewrite Hptr. apply read_at_filled.
Qed.

Lemma split_set_holds b vs (i : nat) x v :
  holds SZ b vs → vs !! i = Some x →
  ∃ b', set (Z.of_nat i) v b = Some b' ∧ holds SZ b' (<[i := v]> vs) ∧
        capacity b' = capacity b.
Proof.
  intros Hb Hi.
  destruct (split_holds_inv b vs Hb) as [(cap & Hc & ->) | [-> ->]]; [| done].
  unfold set, ptr. cbn [m_data].
  rewrite (assign_at_filled vs _ i x v Hi). cbn [mbind option_bind].
  eexists; split; [done |]. split; [| done].
  unfold with_storage. cbn [m_data m_size m_capacity fmap option_fmap option_map].
  apply split_holds_filled_size; rewrite length_insert; [done | lia].
Qed.

Lemma split_contains b vs v :
  holds SZ b vs → contains v b = Some (bool_decide (v ∈ vs)).
Proof.
  intros (Hsize & _ & Hptr & _). unfold contains, size. rewrite Hptr, Hsize.
  destruct (decide (v ∈ vs)) as [Hin|Hnot].
  - apply list_elem_of_split_l in Hin as (l1 & l2 & -> & Hnot).
    rewrite std_find_first by done. cbn [mbind option_bind]. f_equal.
    rewrite length_app. cbn [length].
    rewrite !bool_decide_eq_true_2; [done | | lia].
    apply elem_of_app. right. left.
  - rewrite std_find_absent by done. cbn [mbind option_bind]. f_equal.
    rewrite !bool_decide_eq_false_2; [done | done |]. intros Hne. by apply Hne.
Qed.

Lemma split_reverse_holds b vs :
  holds SZ b vs →
  ∃ b', reverse b = Some b' ∧ holds SZ b' (rev vs) ∧ capacity b' = capacity b.
Proof.
  intros Hb. destruct (split_holds_inv b vs Hb) as [(cap & Hc & ->) | [-> ->]].
  - unfold reverse, size, ptr. cbn [m_data m_size].
    rewrite std_reverse_filled. cbn [mbind option_bind].
    eexists; split; [done |]. split; [| done].
    unfold with_storage. cbn [m_data m_size m_capacity fmap option_fmap option_map].
    apply split_holds_filled_size; rewrite length_rev; [done | lia].
  - exists (mk None 0 0). split; [done |]. split; [apply split_holds_null | done].
Qed.

Lemma split_fill_holds b vs v :
  holds SZ b vs →
  ∃ b', fill v b = Some b' ∧ holds SZ b' (replicate (length vs) v) ∧
        capacity b' = capacity b.
Proof.
  intros Hb. destruct (split_holds_inv b vs Hb) as [(cap & Hc & ->) | [-> ->]].
  - unfold fill, size, ptr. cbn [m_data m_size].
    rewrite std_fill_filled. cbn [mbind option_bind].
    eexists; split; [done |]. split; [| done].
    unfold with_storage. cbn [m_data m_size m_capacity fmap option_fmap option_map].
    apply split_holds_filled_size; rewrite length_replicate; [done | lia].
  - exists (mk None 0 0). split; [done |]. split; [apply split_holds_null | done].
Qed.

Lemma split_shrink_holds b vs (n : nat) :
  holds SZ b vs → (n <= length vs)%nat →
  holds SZ (shrink (Z.of_nat n) b) (take n vs) ∧
  capacity (shrink (Z.of_nat n) b) = capacity b.
Proof.
  intros Hb Hn. destruct (split_holds_inv b vs Hb) as [(cap & Hc & ->) | [-> ->]].
  - unfold shrink, size, capacity, ptr, with_storage, with_size.
    cbn [m_data m_size m_capacity fmap option_fmap option_map].
    rewrite destroy_filled_from by lia. split; [| done].
    replace (Z.of_nat n) with (Z.of_nat (length (take n vs)))
      by (rewrite length_take; lia).
    apply split_holds_filled. rewrite length_take. lia.
  - simpl in Hn. assert (n = 0%nat) as -> by lia.
    split; [apply split_holds_null | done].
Qed.


Lemma split_front_back b vs :
  holds SZ b vs → front b = head vs ∧ back b = last vs.
Proof.
  intros Hb. pose proof Hb as (Hsize & _ & Hptr & _). unfold front, back, size.
  rewrite Hptr, Hsize. split.
  - rewrite head_lookup. apply (read_at_filled vs _ 0).
  - rewrite last_lookup. destruct vs as [|v vs].
    + apply read_at_negative. simpl. lia.
    + replace (Z.of_nat (length (v :: vs)) - 1) with (Z.of_nat (length vs))
        by (cbn [length]; lia).
      apply read_at_filled.
Qed.

Lemma split_get_or b vs (i : nat) otherwise :
  holds SZ b vs → get_or (Z.of_nat i) otherwise b = Some (default otherwise (vs !! i)).
Proof.
  intros Hb. pose proof Hb as (Hsize & _). unfold get_or, size. rewrite Hsize.
  destruct (Z.ltb_spec (Z.of_nat i) (Z.of_nat (length vs))) as [Hlt|Hge].
  - rewrite (split_at_index b vs i Hb).
    destruct (lookup_lt_is_Some_2 vs i ltac:(lia)) as [x ->]. done.
  - by rewrite lookup_ge_None_2 by lia.
Qed.

Lemma split_set_end_holds b vs (n : nat) :
  holds SZ b vs → (n <= length vs)%nat →
  holds SZ (set_end SZ (Z.of_nat n) b) (take n vs) ∧
  capacity (set_end SZ (Z.of_nat n) b) = capacity b.
Proof.
  intros Hb Hn. pose proof Hb as (_ & Hc & _).
  unfold set_end. rewrite to_SZ_small by lia.
  apply (split_shrink_holds b vs n Hb Hn).
Qed.

Lemma split_setx_holds b vs (i : nat) v filler :
  holds SZ b vs → Z.of_nat i + 1 < modulus SZ →
  ∃ b', setx SZ (Z.of_nat i) (object v) (object filler) b = Some b' ∧
        holds SZ b' (<[i := v]> (vs ++ replicate (S i - length vs) filler)).
Proof.
  intros Hb Hi. pose proof Hb as (Hsize & _). unfold setx, size. rewrite Hsize.
  rewrite Z.geb_leb.
  destruct (Z.leb_spec (Z.of_nat (length vs)) (Z.of_nat i)) as [Hge|Hlt].
  - rewrite to_SZ_small by lia.
    destruct (split_resize_holds b vs (Z.of_nat i + 1) filler Hb) as (b1 & -> & Hb1 & _);
      [lia |].
    cbn [mbind option_bind].
    replace (Z.to_nat (Z.of_nat i + 1)) with (S i) in Hb1 by lia.
    rewrite take_ge in Hb1 by lia.
    destruct (lookup_lt_is_Some_2 (vs ++ replicate (S i - length vs) filler) i) as [x Hx].
    { rewrite length_app, length_replicate. lia. }
    destruct (split_set_holds b1 _ i x v Hb1 Hx) as (b2 & ? & ? & _).
    by exists b2.
  - cbn [mbind option_bind].
    replace (S i - length vs)%nat with 0%nat by lia. rewrite app_nil_r.
    destruct (lookup_lt_is_Some_2 vs i ltac:(lia)) as [x Hx].
    destruct (split_set_holds b vs i x v Hb Hx) as (b2 & ? & ? & _).
    by exists b2.
Qed.

Lemma split_append_from_holds ws : ∀ b vs pre rest,
  holds SZ b vs → 3 * Z.of_nat (length vs + length ws) < modulus SZ →
  ∃ b', append_from SZ (pre ++ (Live <$> ws) ++ rest) (Z.of_nat (length pre))
          (length ws) b = Some b' ∧
        holds SZ b' (vs ++ ws).
Proof.
  induction ws as [|w ws IH]; intros b vs pre rest Hb Hfit.
  - exists b. split; [done |]. by rewrite app_nil_r.
  - rewrite fmap_cons. cbn [length append_from app] in *.
    rewrite (read_at_lookup _ _ w); last first.
    { rewrite lookup_app_r by lia. by rewrite Nat.sub_diag. }
    cbn [mbind option_bind].
    destruct (split_push_back_holds SZ b vs w Hb) as (b1 & -> & Hb1 & _).
    { pose proof Hb as (Hsize & Hc & _). unfold size, capacity.
      destruct (Z.lt_ge_cases (m_size b) (m_capacity b)); [by left | right; lia]. }
    cbn [mbind option_bind].
    replace (pre ++ Live w :: (Live <$> ws) ++ rest)
      with ((pre ++ [Live w]) ++ (Live <$> ws) ++ rest) by by rewrite <- app_assoc.
    replace (Z.of_nat (length pre) + 1) with (Z.of_nat (length (pre ++ [Live w])))
      by (rewrite length_app; simpl; lia).
    destruct (IH b1 (vs ++ [w]) (pre ++ [Live w]) rest Hb1) as (b' & -> & Hb').
    { rewrite length_app. cbn [length]. lia. }
    exists b'. split; [done |]. by rewrite <- app_assoc in Hb'.
Qed.

Lemma split_append_holds b vs ws rest :
  holds SZ b vs → 3 * Z.of_nat (length vs + length ws) < modulus SZ →
  ∃ b', append SZ (Z.of_nat (length ws)) ((Live <$> ws) ++ rest) b = Some b' ∧
        holds SZ b' (vs ++ ws).
Proof.
  intros Hb Hfit. unfold append. rewrite Nat2Z.id.
  apply (split_append_from_holds ws b vs [] rest Hb Hfit).
Qed.


Lemma split_copy_assign_distinct_holds this other ws vs :
  holds SZ this ws → holds SZ other vs →
  ∃ this', copy_assign_distinct this other = Some (this', other) ∧
           holds SZ this' vs ∧
           capacity this' = if decide (vs = []) then capacity this
                            else Z.of_nat (length vs).
Proof.
  intros Hthis Hother. unfold copy_assign_distinct.
  destruct (split_clear_holds this ws Hthis) as [Hclear Hcap].
  pose proof Hother as (Hsize & Hc & _). rewrite Hsize.
  destruct vs as [|v vs].
  - cbn. eexists; split; [done |]. by split.
  - rewrite Z.gtb_ltb, (proj2 (Z.ltb_lt _ _)) by (cbn [length]; lia).
    destruct (split_reallocate_holds SZ (clear this) [] (Z.of_nat (length (v :: vs))))
      as (b1 & -> & Hb1 & Hcap1); [done | cbn [length] in *; lia | cbn [length]; lia |].
    cbn [mbind option_bind].
    destruct (split_holds_inv b1 [] Hb1) as [(cap & _ & ->) | [_ ->]];
      [| unfold capacity in Hcap1; simpl in Hcap1; lia].
    unfold capacity in Hcap1. cbn [m_capacity] in Hcap1. subst cap.
    destruct (split_holds_inv other (v :: vs) Hother) as [(cap & _ & ->) | [? _]];
      [| done].
    unfold ptr. cbn [m_data]. rewrite filled_nil.
    rewrite copy_into_filled by lia. cbn [mbind option_bind].
    eexists; split; [done |].
    unfold with_size, with_storage.
    cbn [m_data m_size m_capacity fmap option_fmap option_map].
    split; [apply split_holds_filled; lia | done].
Qed.

Lemma split_copy_assign_holds (this other : addr) st a b ws vs :
  this ≠ other → st !! this = Some a → st !! other = Some b →
  holds SZ a ws → holds SZ b vs →
  ∃ a', copy_assign this other st = Some (<[this := a']> st) ∧
        holds SZ a' vs ∧
        capacity a' = if decide (vs = []) then capacity a else Z.of_nat (length vs).
Proof.
  intros Hne Ha Hb Hws Hvs. unfold copy_assign, on_two.
  rewrite decide_True by done. rewrite Ha, Hb. cbn [mbind option_bind].
  destruct (split_copy_assign_distinct_holds a b ws vs Hws Hvs) as (a' & -> & Ha' & Hcap).
  cbn [mbind option_bind fst snd]. exists a'. split; [| done].
  f_equal. apply insert_id. by rewrite lookup_insert_ne.
Qed.

End VSplitMore.
End VSplitMore.

(** ** More facts about V-header *)

Module VHeaderMore.
Import VHeader VHeaderFacts.
Section VHeaderMore.
Context {T : Type} `{EqDecision T}.
Variable SZ : size_type.
Implicit Types (b : new_buffer T) (vs ws : list T) (v x : T).

Lemma header_holds_inv b vs :
  holds SZ b vs →
  (∃ cap, Z.of_nat (length vs) <= cap < modulus SZ ∧ b = allocated vs cap) ∨
  (vs = [] ∧ b = mk None).
Proof.
  destruct b as [[[n c p]|]]; unfold holds; simpl.
  - intros (-> & Hc & ->). left. by exists c.
  - intros ->. by right.
Qed.

Lemma header_holds_filled vs cap :
  Z.of_nat (length vs) <= cap < modulus SZ → holds SZ (allocated vs cap) vs.
Proof. intros Hc. unfold holds; simpl. repeat split; try lia; done. Qed.

Lemma header_holds_filled_size vs cap n :
  n = Z.of_nat (length vs) → Z.of_nat (length vs) <= cap < modulus SZ →
  holds SZ (mk (Some (mk_allocation n cap (filled vs cap)))) vs.
Proof. intros ->. apply header_holds_filled. Qed.

Lemma header_holds_null : holds SZ (mk (T:=T) None) [].
Proof. done. Qed.

Lemma header_size_capacity b vs :
  holds SZ b vs →
  size b = Z.of_nat (length vs) ∧ Z.of_nat (length vs) <= capacity b < modulus SZ.
Proof.
  intros Hb. pose proof (modulus_pos SZ).
  destruct (header_holds_inv b vs Hb) as [(cap & Hc & ->) | [-> ->]];
    unfold size, capacity; simpl; lia.
Qed.

Lemma header_clear_holds b vs :
  holds SZ b vs → holds SZ (clear b) [] ∧ capacity (clear b) = capacity b.
Proof.
  intros Hb. destruct (header_holds_inv b vs Hb) as [(cap & Hc & ->) | [-> ->]].
  - unfold clear, capacity. simpl.
    rewrite destroy_filled by lia. rewrite <- filled_nil.
    split; [| done]. apply (header_holds_filled []). simpl. lia.
  - done.
Qed.

Lemma header_resize_holds b vs count v :
  holds SZ b vs → 0 <= count < modulus SZ →
  ∃ b', resize_with count (object v) b = Some b' ∧
        holds SZ b' (take (Z.to_nat count) vs ++ replicate (Z.to_nat count - length vs) v) ∧
        capacity b' = Z.max (capacity b) count.
Proof.
  intros Hb Hcount.
  assert (∃ n : nat, count = Z.of_nat n) as [n ->] by (exists (Z.to_nat count); lia).
  rewrite Nat2Z.id. unfold resize_with, _reserve.
  destruct (header_size_capacity b vs Hb) as [Hsize Hcap].
  destruct (Z.eqb_spec (Z.of_nat n) 0) as [Hzero|Hpos].
  { assert (n = 0%nat) as -> by lia. cbn [take app].
    destruct (header_clear_holds b vs Hb) as [? Hcc].
    eexists; split; [done |]. split; [done |]. rewrite Hcc. lia. }
  assert (∃ b1, (if Z.of_nat n >? capacity b then reallocate (Z.of_nat n) b else Some b)
                = Some b1 ∧
                holds SZ b1 vs ∧ capacity b1 = Z.max (capacity b) (Z.of_nat n))
    as (b1 & -> & Hb1 & Hcap1).
  { rewrite Z.gtb_ltb. destruct (Z.ltb_spec (capacity b) (Z.of_nat n)).
    - destruct (header_reallocate_holds SZ b vs (Z.of_nat n)) as (a & ? & ? & ?); [done | lia |].
      eexists. split; [done |]. split; [done |]. unfold capacity at 1; simpl. lia.
    - exists b. split; [done | split; [done | lia]]. }
  cbn [mbind option_bind]. rewrite <- Hcap1.
  assert (Z.of_nat n <= capacity b1) as Hcc by lia. clear Hb Hcap1 Hsize Hcap.
  destruct (header_holds_inv b1 vs Hb1) as [(cap & Hc & ->) | [-> ->]];
    unfold capacity in Hcc; simpl in Hcc; [| lia].
  unfold size, capacity, ptr, with_storage, set_size. simpl.
  destruct (Z.le_gt_cases (Z.of_nat (length vs)) (Z.of_nat n)) as [Hle|Hgt].
  - rewrite destroy_empty_range by lia.
    rewrite construct_range_filled by lia. simpl.
    rewrite take_ge by lia.
    eexists; split; [done |]. split; [| done].
    rewrite Nat2Z.id.
    apply header_holds_filled_size; rewrite length_app, length_replicate; lia.
  - replace (n - length vs)%nat with 0%nat by lia.
    rewrite app_nil_r.
    rewrite destroy_filled_from by lia.
    unfold construct_range.
    replace (Z.to_nat (Z.of_nat n - Z.of_nat (length vs))) with 0%nat by lia.
    simpl.
    eexists; split; [done |]. split; [| done].
    apply header_holds_filled_size; rewrite length_take; lia.
Qed.


Lemma header_shrink_to_fit_holds b vs :
  holds SZ b vs →
  ∃ b', shrink_to_fit b = Some b' ∧ holds SZ b' vs ∧
        capacity b' = Z.of_nat (length vs) ∧
        (vs = [] → m_data b' = None) ∧
        shrink_to_fit b' = Some b'.
Proof.
  intros Hb. destruct (header_holds_inv b vs Hb) as [(cap & Hc & ->) | [-> ->]].
  - unfold shrink_to_fit, size, capacity. cbn [m_data h_size h_capacity].
    destruct vs as [|v vs].
    + cbn. eexists; split; [done |]. split; [apply header_holds_null | done].
    + rewrite Z.gtb_ltb, (proj2 (Z.ltb_lt _ _)) by (cbn [length]; lia).
      destruct (Z.ltb_spec (Z.of_nat (length (v :: vs))) cap) as [Hfit|Hfit].
      * unfold reallocate, ptr. cbn [m_data h_size slots].
        rewrite move_into_filled by lia. cbn [mbind option_bind].
        eexists; split; [done |].
        split; [apply header_holds_filled; lia |].
        split; [done |]. split; [done |].
        cbn [m_data h_size h_capacity].
        rewrite Z.gtb_ltb, (proj2 (Z.ltb_lt _ _)) by (cbn [length]; lia).
        by rewrite Z.ltb_irrefl.
      * assert (cap = Z.of_nat (length (v :: vs))) as -> by lia.
        eexists; split; [done |].
        split; [apply header_holds_filled; lia |].
        split; [done |]. split; [done |].
        cbn [m_data h_size h_capacity].
        rewrite Z.gtb_ltb, (proj2 (Z.ltb_lt _ _)) by (cbn [length]; lia).
        by rewrite Z.ltb_irrefl.
  - exists (mk None). split; [done |]. split; [apply header_holds_null | done].
Qed.

Lemma header_copy_construct_holds other vs :
  holds SZ other vs →
  ∃ this, copy_construct other = Some this ∧ holds SZ this vs ∧
          capacity this = Z.of_nat (length vs).
Proof.
  intros Hb. destruct (header_holds_inv other vs Hb) as [(cap & Hc & ->) | [-> ->]].
  - unfold copy_construct, size. cbn [m_data h_size].
    destruct vs as [|v vs].
    + cbn. eexists; split; [done |]. split; [apply header_holds_null | done].
    + rewrite Z.gtb_ltb, (proj2 (Z.ltb_lt _ _)) by (cbn [length]; lia).
      unfold reallocate, empty_buffer, ptr, with_storage, set_size.
      cbn [m_data h_size h_capacity slots mbind option_bind fmap option_fmap option_map].
      rewrite copy_into_filled by lia. cbn [mbind option_bind].
      eexists; split; [done |].
      split; [apply header_holds_filled; lia | done].
  - exists (mk None). split; [done |]. split; [apply header_holds_null | done].
Qed.

Lemma header_construct_from_array vs rest :
  Z.of_nat (length vs) < modulus SZ →
  ∃ this, construct_from_array (Z.of_nat (length vs)) ((Live <$> vs) ++ rest) = Some this ∧
          holds SZ this vs ∧ capacity this = Z.of_nat (length vs).
Proof.
  intros Hlen. unfold construct_from_array.
  destruct vs as [|v vs].
  - cbn. eexists; split; [done |]. split; [apply header_holds_null | done].
  - rewrite Z.gtb_ltb, (proj2 (Z.ltb_lt _ _)) by (cbn [length]; lia).
    unfold reallocate, empty_buffer, ptr, with_storage, set_size.
    cbn [m_data h_size h_capacity slots mbind option_bind fmap option_fmap option_map].
    rewrite copy_into_array by lia. cbn [mbind option_bind].
    eexists; split; [done |].
    split; [apply header_holds_filled; lia | done].
Qed.

Lemma header_erase_at b vs (i : nat) x :
  holds SZ b vs → vs !! i = Some x →
  ∃ b', erase SZ (Z.of_nat i) b = Some (b', Z.of_nat i) ∧
        holds SZ b' (delete i vs) ∧ capacity b' = capacity b.
Proof.
  intros Hb Hi. pose proof (lookup_lt_Some _ _ _ Hi) as Hlt.
  destruct (header_holds_inv b vs Hb) as [(cap & Hc & ->) | [-> ->]]; [| done].
  clear Hb.
  assert (∃ l1 l2, vs = l1 ++ x :: l2 ∧ length l1 = i) as (l1 & l2 & -> & Hl1).
  { exists (take i vs), (drop (S i) vs).
    split; [by rewrite take_drop_middle | rewrite length_take; lia]. }
  clear Hi. subst i. rewrite delete_middle.
  rewrite length_app in *. cbn [length] in *.
  unfold erase, size, capacity, ptr, with_storage, set_size.
  cbn [m_data h_size h_capacity slots fmap option_fmap option_map mbind option_bind].
  rewrite !to_SZ_small by lia.
  rewrite count_after_exact by lia.
  rewrite erase_slots by (rewrite length_app; cbn [length]; lia).
  cbn [mbind option_bind].
  eexists; split; [done |]. split; [| done].
  apply header_holds_filled_size; rewrite length_app; lia.
Qed.

Lemma header_at_index b vs (i : nat) :
  holds SZ b vs → at_index (Z.of_nat i) b = vs !! i.
Proof.
  intros Hb. destruct (header_holds_inv b vs Hb) as [(cap & Hc & ->) | [-> ->]].
  - unfold at_index, ptr. cbn [m_data slots]. apply read_at_filled.
  - unfold at_index, ptr, read_at. cbn [m_data]. rewrite decide_True by lia.
    by rewrite lookup_nil.
Qed.

Lemma header_set_holds b vs (i : nat) x v :
  holds SZ b vs → vs !! i = Some x →
  ∃ b', set (Z.of_nat i) v b = Some b' ∧ holds SZ b' (<[i := v]> vs) ∧
        capacity b' = capacity b.
Proof.
  intros Hb Hi.
  destruct (header_holds_inv b vs Hb) as [(cap & Hc & ->) | [-> ->]]; [| done].
  unfold set, ptr. cbn [m_data slots].
  rewrite (assign_at_filled vs _ i x v Hi). cbn [mbind option_bind].
  eexists; split; [done |]. split; [| done].
  unfold with_storage. cbn [m_data h_size h_capacity fmap option_fmap option_map].
  apply header_holds_filled_size; rewrite length_insert; [done | lia].
Qed.

Lemma header_contains b vs v :
  holds SZ b vs → contains v b = Some (bool_decide (v ∈ vs)).
Proof.
  intros Hb. destruct (header_holds_inv b vs Hb) as [(cap & Hc & ->) | [-> ->]].
  - unfold contains, size, ptr. cbn [m_data h_size slots].
    destruct (decide (v ∈ vs)) as [Hin|Hnot].
    + apply list_elem_of_split_l in Hin as (l1 & l2 & -> & Hnot).
      rewrite std_find_first by done. cbn [mbind option_bind]. f_equal.
      rewrite length_app. cbn [length].
      rewrite !bool_decide_eq_true_2; [done | | lia].
      apply elem_of_app. right. left.
    + rewrite std_find_absent by done. cbn [mbind option_bind]. f_equal.
      rewrite (bool_decide_eq_false_2 (_ ≠ _)) by (intros Hne; by apply Hne).
      by rewrite bool_decide_eq_false_2.
  - rewrite bool_decide_eq_false_2 by apply not_elem_of_nil. done.
Qed.

Lemma header_reverse_holds b vs :
  holds SZ b vs →
  ∃ b', reverse b = Some b' ∧ holds SZ b' (rev vs) ∧ capacity b' = capacity b.
Proof.
  intros Hb. destruct (header_holds_inv b vs Hb) as [(cap & Hc & ->) | [-> ->]].
  - unfold reverse, size, ptr. cbn [m_data h_size slots].
    rewrite std_reverse_filled. cbn [mbind option_bind].
    eexists; split; [done |]. split; [| done].
    unfold with_storage. cbn [m_data h_size h_capacity fmap option_fmap option_map].
    apply header_holds_filled_size; rewrite length_rev; [done | lia].
  - exists (mk None). split; [done |]. split; [apply header_holds_null | done].
Qed.

Lemma header_fill_holds b vs v :
  holds SZ b vs →
  ∃ b', fill v b = Some b' ∧ holds SZ b' (replicate (length vs) v) ∧
        capacity b' = capacity b.
Proof.
  intros Hb. destruct (header_holds_inv b vs Hb) as [(cap & Hc & ->) | [-> ->]].
  - unfold fill, size, ptr. cbn [m_data h_size slots].
    rewrite std_fill_filled. cbn [mbind option_bind].
    eexists; split; [done |]. split; [| done].
    unfold with_storage. cbn [m_data h_size h_capacity fmap option_fmap option_map].
    apply header_holds_filled_size; rewrite length_replicate; [done | lia].
  - exists (mk None). split; [done |]. split; [apply header_holds_null | done].
Qed.

Lemma header_shrink_holds b vs (n : nat) :
  holds SZ b vs → (n <= length vs)%nat →
  ∃ b', shrink (Z.of_nat n) b = Some b' ∧ holds SZ b' (take n vs) ∧
        capacity b' = capacity b.
Proof.
  intros Hb Hn. destruct (header_holds_inv b vs Hb) as [(cap & Hc & ->) | [-> ->]].
  - unfold shrink, size, capacity, ptr, with_storage, set_size.
    cbn [m_data h_size h_capacity slots fmap option_fmap option_map mbind option_bind].
    rewrite destroy_filled_from by lia.
    eexists; split; [done |]. split; [| done].
    apply header_holds_filled_size; rewrite length_take; lia.
  - exists (mk None). split; [done |]. split; [| done].
    rewrite take_nil. apply header_holds_null.
Qed.

Lemma header_set_end_holds b vs (n : nat) :
  holds SZ b vs → (n <= length vs)%nat →
  ∃ b', set_end SZ (Z.of_nat n) b = Some b' ∧ holds SZ b' (take n vs) ∧
        capacity b' = capacity b.
Proof.
  intros Hb Hn. destruct (header_size_capacity b vs Hb) as [_ Hc].
  destruct (header_shrink_holds b vs n Hb Hn) as (b' & Hshrink & ? & ?).
  exists b'. split; [| done]. rewrite <- Hshrink.
  unfold set_end, shrink. by rewrite to_SZ_small by lia.
Qed.

Lemma header_front_back b vs :
  holds SZ b vs → front b = head vs ∧ back b = last vs.
Proof.
  intros Hb. destruct (header_holds_inv b vs Hb) as [(cap & Hc & ->) | [-> ->]].
  - unfold front, back, size, ptr. cbn [m_data h_size slots]. split.
    + rewrite head_lookup. apply (read_at_filled vs _ 0).
    + rewrite last_lookup. destruct vs as [|v vs].
      * apply read_at_negative. simpl. lia.
      * replace (Z.of_nat (length (v :: vs)) - 1) with (Z.of_nat (length vs))
          by (cbn [length]; lia).
        apply read_at_filled.
  - done.
Qed.

Lemma header_get_or b vs (i : nat) otherwise :
  holds SZ b vs → get_or (Z.of_nat i) otherwise b = Some (default otherwise (vs !! i)).
Proof.
  intros Hb. destruct (header_size_capacity b vs Hb) as [Hsize _].
  unfold get_or. rewrite Hsize.
  destruct (Z.ltb_spec (Z.of_nat i) (Z.of_nat (length vs))) as [Hlt|Hge].
  - rewrite (header_at_index b vs i Hb).
    destruct (lookup_lt_is_Some_2 vs i ltac:(lia)) as [x ->]. done.
  - by rewrite lookup_ge_None_2 by lia.
Qed.

Lemma header_setx_holds b vs (i : nat) v filler :
  holds SZ b vs → Z.of_nat i + 1 < modulus SZ →
  ∃ b', setx SZ (Z.of_nat i) (object v) (object filler) b = Some b' ∧
        holds SZ b' (<[i := v]> (vs ++ replicate (S i - length vs) filler)).
Proof.
  intros Hb Hi. destruct (header_size_capacity b vs Hb) as [Hsize _].
  unfold setx. rewrite Hsize, Z.geb_leb.
  destruct (Z.leb_spec (Z.of_nat (length vs)) (Z.of_nat i)) as [Hge|Hlt].
  - rewrite to_SZ_small by lia.
    destruct (header_resize_holds b vs (Z.of_nat i + 1) filler Hb) as (b1 & -> & Hb1 & _);
      [lia |].
    cbn [mbind option_bind].
    replace (Z.to_nat (Z.of_nat i + 1)) with (S i) in Hb1 by lia.
    rewrite take_ge in Hb1 by lia.
    destruct (lookup_lt_is_Some_2 (vs ++ replicate (S i - length vs) filler) i) as [x Hx].
    { rewrite length_app, length_replicate. lia. }
    destruct (header_set_holds b1 _ i x v Hb1 Hx) as (b2 & ? & ? & _).
    by exists b2.
  - cbn [mbind option_bind].
    replace (S i - length vs)%nat with 0%nat by lia. rewrite app_nil_r.
    destruct (lookup_lt_is_Some_2 vs i ltac:(lia)) as [x Hx].
    destruct (header_set_holds b vs i x v Hb Hx) as (b2 & ? & ? & _).
    by exists b2.
Qed.

Lemma header_append_from_holds ws : ∀ b vs pre rest,
  holds SZ b vs → 3 * Z.of_nat (length vs + length ws) < modulus SZ →
  ∃ b', append_from SZ (pre ++ (Live <$> ws) ++ rest) (Z.of_nat (length pre))
          (length ws) b = Some b' ∧
        holds SZ b' (vs ++ ws).
Proof.
  induction ws as [|w ws IH]; intros b vs pre rest Hb Hfit.
  - exists b. split; [done |]. by rewrite app_nil_r.
  - rewrite fmap_cons. cbn [length append_from app] in *.
    rewrite (read_at_lookup _ _ w); last first.
    { rewrite lookup_app_r by lia. by rewrite Nat.sub_diag. }
    cbn [mbind option_bind].
    destruct (header_push_back_holds SZ b vs w Hb) as (b1 & -> & Hb1 & _).
    { destruct (header_size_capacity b vs Hb) as [Hsize Hc].
      destruct (Z.lt_ge_cases (size b) (capacity b)); [by left | right; lia]. }
    cbn [mbind option_bind].
    replace (pre ++ Live w :: (Live <$> ws) ++ rest)
      with ((pre ++ [Live w]) ++ (Live <$> ws) ++ rest) by by rewrite <- app_assoc.
    replace (Z.of_nat (length pre) + 1) with (Z.of_nat (length (pre ++ [Live w])))
      by (rewrite length_app; simpl; lia).
    destruct (IH b1 (vs ++ [w]) (pre ++ [Live w]) rest Hb1) as (b' & -> & Hb').
    { rewrite length_app. cbn [length]. lia. }
    exists b'. split; [done |]. by rewrite <- app_assoc in Hb'.
Qed.

Lemma header_append_holds b vs ws rest :
  holds SZ b vs → 3 * Z.of_nat (length vs + length ws) < modulus SZ →
  ∃ b', append SZ (Z.of_nat (length ws)) ((Live <$> ws) ++ rest) b = Some b' ∧
        holds SZ b' (vs ++ ws).
Proof.
  intros Hb Hfit. unfold append. rewrite Nat2Z.id.
  apply (header_append_from_holds ws b vs [] rest Hb Hfit).
Qed.


Lemma header_copy_assign_distinct_holds this other ws vs :
  holds SZ this ws → holds SZ other vs →
  ∃ this', copy_assign_distinct this other = Some (this', other) ∧
           holds SZ this' vs ∧
           capacity this' = if decide (vs = []) then capacity this
                            else Z.of_nat (length vs).
Proof.
  intros Hthis Hother. unfold copy_assign_distinct.
  destruct (header_clear_holds this ws Hthis) as [Hclear Hcap].
  destruct (header_size_capacity other vs Hother) as [Hsize Hc]. rewrite Hsize.
  destruct vs as [|v vs].
  - cbn. eexists; split; [done |]. by split.
  - rewrite Z.gtb_ltb, (proj2 (Z.ltb_lt _ _)) by (cbn [length]; lia).
    destruct (header_reallocate_holds SZ (clear this) [] (Z.of_nat (length (v :: vs))))
      as (a & -> & Ha & Hcapa); [done | cbn [length] in *; lia |].
    cbn [mbind option_bind].
    destruct a as [n c p]. cbn [h_capacity] in Hcapa. subst c.
    destruct Ha as (Hn & _ & Hp). cbn [h_size slots h_capacity] in Hn, Hp. subst n p.
    destruct (header_holds_inv other (v :: vs) Hother) as [(cap & _ & ->) | [? _]];
      [| done].
    unfold ptr, with_storage, set_size.
    cbn [m_data h_size h_capacity slots fmap option_fmap option_map mbind option_bind].
    rewrite filled_nil. rewrite copy_into_filled by lia. cbn [mbind option_bind].
    eexists; split; [done |].
    split; [apply header_holds_filled; lia | done].
Qed.

Lemma header_copy_assign_holds (this other : addr) st a b ws vs :
  this ≠ other → st !! this = Some a → st !! other = Some b →
  holds SZ a ws → holds SZ b vs →
  ∃ a', copy_assign this other st = Some (<[this := a']> st) ∧
        holds SZ a' vs ∧
        capacity a' = if decide (vs = []) then capacity a else Z.of_nat (length vs).
Proof.
  intros Hne Ha Hb Hws Hvs. unfold copy_assign, on_two.
  rewrite decide_True by done. rewrite Ha, Hb. cbn [mbind option_bind].
  destruct (header_copy_assign_distinct_holds a b ws vs Hws Hvs) as (a' & -> & Ha' & Hcap).
  cbn [mbind option_bind fst snd]. exists a'. split; [| done].
  f_equal. apply insert_id. by rewrite lookup_insert_ne.
Qed.

End VHeaderMore.
End VHeaderMore.

(** ** More facts about V-inline *)

Module VInlineMore.
Import VInline VInlineFacts.
Section VInlineMore.
Context {T : Type}.
Variable SZ : size_type.
Variable INITIAL_SIZE : Z.
Implicit Types (b : new_buffer T) (vs ws : list T) (v x : T).

Lemma inline_initial_size_bounds : 0 <= initial_size SZ INITIAL_SIZE < modulus SZ.
Proof. apply Z.mod_pos_bound, modulus_pos. Qed.


(** Writing [ws] through [m_data] and setting the size to match keeps the
    invariant, the capacity and the kind of storage. *)
Lemma inline_holds_update b ws n :
  Z.of_nat (length ws) <= m_capacity b < modulus SZ → n = Z.of_nat (length ws) →
  holds SZ (with_size (with_storage b (filled ws (m_capacity b))) n) ws ∧
  capacity (with_size (with_storage b (filled ws (m_capacity b))) n) = capacity b ∧
  is_inline (with_size (with_storage b (filled ws (m_capacity b))) n) = is_inline b.
Proof.
  intros Hc ->. destruct b as [[|q] ? ? ?]; unfold holds, ptr; simpl in *;
    repeat split; try lia; done.
Qed.

Lemma inline_holds_storage b vs ws :
  holds SZ b vs → length ws = length vs →
  holds SZ (with_storage b (filled ws (m_capacity b))) ws ∧
  capacity (with_storage b (filled ws (m_capacity b))) = capacity b ∧
  is_inline (with_storage b (filled ws (m_capacity b))) = is_inline b.
Proof.
  intros (Hsize & Hcap & Hptr) Hlen. destruct b as [[|q] ? ? ?]; unfold holds, ptr; simpl in *;
    rewrite Hlen; repeat split; try lia; done.
Qed.

Lemma inline_clear_holds b vs :
  holds SZ b vs →
  holds SZ (clear b) [] ∧ capacity (clear b) = capacity b ∧
  is_inline (clear b) = is_inline b.
Proof.
  intros (Hsize & Hcap & Hptr). unfold clear, size.
  rewrite Hptr, Hsize, destroy_filled by lia. rewrite <- filled_nil.
  apply inline_holds_update; simpl; [lia | done].
Qed.


Lemma inline_copy_construct_holds other vs :
  holds SZ other vs →
  ∃ this, copy_construct SZ INITIAL_SIZE other = Some this ∧ holds SZ this vs ∧
          capacity this = Z.max (initial_size SZ INITIAL_SIZE) (Z.of_nat (length vs)) ∧
          is_inline this = bool_decide (Z.of_nat (length vs) <= initial_size SZ INITIAL_SIZE).
Proof.
  intros (Hsize & Hcap & Hptr). pose proof inline_initial_size_bounds as Hini.
  unfold copy_construct. rewrite Hsize, Hptr.
  destruct (Z.leb_spec (Z.of_nat (length vs)) (initial_size SZ INITIAL_SIZE)) as [Hle|Hgt].
  - unfold ptr at 1. cbn [m_data m_initial_buffer].
    rewrite copy_into_filled by lia. cbn [mbind option_bind].
    eexists; split; [done |]. rewrite bool_decide_eq_true_2 by done.
    unfold holds, capacity, ptr, with_storage; simpl. repeat split; try lia; done.
  - unfold ptr at 1. cbn [m_data m_initial_buffer].
    rewrite copy_into_filled by lia. cbn [mbind option_bind].
    eexists; split; [done |]. rewrite bool_decide_eq_false_2 by lia.
    unfold holds, capacity, ptr, with_storage; simpl. repeat split; try lia; done.
Qed.

Lemma inline_construct_count_holds (n : nat) v :
  Z.of_nat n < modulus SZ →
  ∃ this, construct_count SZ INITIAL_SIZE (Z.of_nat n) v = Some this ∧
          holds SZ this (replicate n v) ∧
          capacity this = Z.max (initial_size SZ INITIAL_SIZE) (Z.of_nat n) ∧
          is_inline this = bool_decide (Z.of_nat n <= initial_size SZ INITIAL_SIZE).
Proof.
  intros Hn. pose proof inline_initial_size_bounds as Hini.
  unfold construct_count.
  assert (∀ cap, Z.of_nat n <= cap →
            construct_range (allocate cap) 0 (Z.of_nat n) (object v) true
            = Some (filled (replicate n v) cap))
    as Hrange.
  { intros cap Hcap. pose proof (construct_range_filled [] cap (Z.of_nat n) v true) as H.
    simpl in H. rewrite filled_nil, Nat2Z.id, Nat.sub_0_r in H. apply H. lia. }
  destruct (Z.leb_spec (Z.of_nat n) (initial_size SZ INITIAL_SIZE)) as [Hle|Hgt].
  - unfold ptr at 1. cbn [m_data m_initial_buffer].
    rewrite Hrange by lia. cbn [mbind option_bind].
    eexists; split; [done |]. rewrite bool_decide_eq_true_2 by done.
    unfold holds, capacity, ptr, with_storage; simpl. rewrite length_replicate.
    repeat split; try lia; done.
  - unfold ptr at 1. cbn [m_data m_initial_buffer].
    rewrite Hrange by lia. cbn [mbind option_bind].
    eexists; split; [done |]. rewrite bool_decide_eq_false_2 by lia.
    unfold holds, capacity, ptr, with_storage; simpl. rewrite length_replicate.
    repeat split; try lia; done.
Qed.

Lemma inline_at_index b vs (i : nat) :
  holds SZ b vs → at_index (Z.of_nat i) b = vs !! i.
Proof.
  intros (Hsize & Hcap & Hptr). unfold at_index. rewrite Hptr. apply read_at_filled.
Qed.

Lemma inline_front_back b vs :
  holds SZ b vs → front b = head vs ∧ back b = last vs.
Proof.
  intros (Hsize & Hcap & Hptr). unfold front, back, size. rewrite Hptr, Hsize. split.
  - rewrite head_lookup. apply (read_at_filled vs _ 0).
  - rewrite last_lookup. destruct vs as [|v vs].
    + apply read_at_negative. simpl. lia.
    + replace (Z.of_nat (length (v :: vs)) - 1) with (Z.of_nat (length vs))
        by (cbn [length]; lia).
      apply read_at_filled.
Qed.

Lemma inline_set_holds b vs (i : nat) x v :
  holds SZ b vs → vs !! i = Some x →
  ∃ b', set (Z.of_nat i) v b = Some b' ∧ holds SZ b' (<[i := v]> vs) ∧
        capacity b' = capacity b ∧ is_inline b' = is_inline b.
Proof.
  intros Hb Hi. pose proof Hb as (Hsize & Hcap & Hptr).
  unfold set. rewrite Hptr.
  rewrite (assign_at_filled vs _ i x v Hi). cbn [mbind option_bind].
  eexists; split; [done |].
  apply (inline_holds_storage b vs); [done | by rewrite length_insert].
Qed.

Lemma inline_append_from_holds ws : ∀ b vs pre rest,
  holds SZ b vs → 3 * Z.of_nat (length vs + length ws) < modulus SZ →
  ∃ b', append_from SZ (pre ++ (Live <$> ws) ++ rest) (Z.of_nat (length pre))
          (length ws) b = Some b' ∧
        holds SZ b' (vs ++ ws).
Proof.
  induction ws as [|w ws IH]; intros b vs pre rest Hb Hfit.
  - exists b. split; [done |]. by rewrite app_nil_r.
  - rewrite fmap_cons. cbn [length append_from app] in *.
    rewrite (read_at_lookup _ _ w); last first.
    { rewrite lookup_app_r by lia. by rewrite Nat.sub_diag. }
    cbn [mbind option_bind].
    destruct (inline_push_back_holds SZ b vs w Hb) as (b1 & -> & Hb1 & _).
    { destruct Hb as (Hsize & Hc & _). unfold size, capacity.
      destruct (Z.lt_ge_cases (m_size b) (m_capacity b)); [by left | right; lia]. }
    cbn [mbind option_bind].
    replace (pre ++ Live w :: (Live <$> ws) ++ rest)
      with ((pre ++ [Live w]) ++ (Live <$> ws) ++ rest) by by rewrite <- app_assoc.
    replace (Z.of_nat (length pre) + 1) with (Z.of_nat (length (pre ++ [Live w])))
      by (rewrite length_app; simpl; lia).
    destruct (IH b1 (vs ++ [w]) (pre ++ [Live w]) rest Hb1) as (b' & -> & Hb').
    { rewrite length_app. cbn [length]. lia. }
    exists b'. split; [done |]. by rewrite <- app_assoc in Hb'.
Qed.

Lemma inline_append_holds b vs ws rest :
  holds SZ b vs → 3 * Z.of_nat (length vs + length ws) < modulus SZ →
  ∃ b', append SZ (Z.of_nat (length ws)) ((Live <$> ws) ++ rest) b = Some b' ∧
        holds SZ b' (vs ++ ws).
Proof.
  intros Hb Hfit. unfold append. rewrite Nat2Z.id.
  apply (inline_append_from_holds ws b vs [] rest Hb Hfit).
Qed.

Lemma objects_prefix vs (rest : block T) :
  objects ((Live <$> vs) ++ rest) (Z.of_nat (length vs)) = Some vs.
Proof.
  unfold objects. rewrite decide_True by (rewrite length_app, length_fmap; lia).
  rewrite Nat2Z.id, take_app_length' by (by rewrite length_fmap).
  by apply mapM_fmap_Some.
Qed.


Lemma inline_copy_assign_distinct_holds this other ws vs :
  holds SZ this ws → holds SZ other vs →
  ∃ this', copy_assign_distinct this other = Some (this', other) ∧
           holds SZ this' vs ∧
           capacity this' = Z.max (capacity this) (Z.of_nat (length vs)).
Proof.
  intros Hthis Hother. unfold copy_assign_distinct.
  destruct (inline_clear_holds this ws Hthis) as (Hclear & Hcap & _).
  pose proof Hother as (Hsize & Hc & Hptr). rewrite Hsize, Hptr.
  destruct (inline_reserve_holds SZ (clear this) [] (Z.of_nat (length vs)) Hclear)
    as (b1 & -> & Hb1 & _ & Hcap1); [lia |].
  cbn [mbind option_bind]. rewrite <- Hcap, <- Hcap1.
  assert (Z.of_nat (length vs) <= m_capacity b1) as Hcc by (unfold capacity in Hcap1; lia).
  destruct Hb1 as (_ & Hc1 & Hptr1).
  change (ptr (with_size b1 ?n)) with (ptr b1).
  rewrite Hptr1, filled_nil. cbn [m_size with_size].
  rewrite copy_into_filled by lia. cbn [mbind option_bind].
  eexists; split; [done |].
  destruct b1 as [[|q] ? ? ?]; unfold holds, capacity, ptr, with_storage, with_size;
    simpl in *; repeat split; try lia; done.
Qed.

Lemma inline_copy_assign_holds (this other : addr) st a b ws vs :
  this ≠ other → st !! this = Some a → st !! other = Some b →
  holds SZ a ws → holds SZ b vs →
  ∃ a', copy_assign this other st = Some (<[this := a']> st) ∧
        holds SZ a' vs ∧
        capacity a' = Z.max (capacity a) (Z.of_nat (length vs)).
Proof.
  intros Hne Ha Hb Hws Hvs. unfold copy_assign, on_two.
  rewrite decide_True by done. rewrite Ha, Hb. cbn [mbind option_bind].
  destruct (inline_copy_assign_distinct_holds a b ws vs Hws Hvs) as (a' & -> & Ha' & Hcap).
  cbn [mbind option_bind fst snd]. exists a'. split; [| done].
  f_equal. apply insert_id. by rewrite lookup_insert_ne.
Qed.

(** Above the inline size, [shrink_to_fit] reallocates to the exact
    size. *)
Lemma inline_shrink_to_fit_large b vs :
  holds SZ b vs → initial_size SZ INITIAL_SIZE < Z.of_nat (length vs) →
  ∃ b', shrink_to_fit SZ INITIAL_SIZE b = Some b' ∧ holds SZ b' vs ∧
        capacity b' = Z.of_nat (length vs) ∧
        shrink_to_fit SZ INITIAL_SIZE b' = Some b'.
Proof.
  intros Hb Hlarge. pose proof Hb as (Hsize & Hcap & Hptr).
  assert (∀ b', m_size b' = Z.of_nat (length vs) → m_capacity b' = Z.of_nat (length vs) →
                shrink_to_fit SZ INITIAL_SIZE b' = Some b') as Hfix.
  { intros b' Hs Hc. unfold shrink_to_fit, size, capacity. rewrite Hs, Hc.
    rewrite (proj2 (Z.leb_gt _ _)) by lia. by rewrite Z.ltb_irrefl. }
  unfold shrink_to_fit at 1. unfold size, capacity. rewrite Hsize.
  rewrite (proj2 (Z.leb_gt _ _)) by lia.
  destruct (Z.ltb_spec (Z.of_nat (length vs)) (m_capacity b)) as [Hlt|Hge].
  - destruct (inline_reallocate_holds SZ b vs (Z.of_nat (length vs)) Hb)
      as (b' & -> & Hb' & Hc' & _); [lia |].
    exists b'. split; [done |]. split; [done |]. split; [done |].
    apply Hfix; [by destruct Hb' | done].
  - exists b. split; [done |]. split; [done |].
    split; [unfold capacity; lia |]. apply Hfix; [done | lia].
Qed.

(** [shrink_to_fit] never changes the elements. *)
Lemma inline_shrink_to_fit_elements b vs :
  holds SZ b vs →
  (initial_size SZ INITIAL_SIZE <= Z.of_nat (length (m_initial_buffer b))) →
  ∃ b', shrink_to_fit SZ INITIAL_SIZE b = Some b' ∧ elements b' = Some vs ∧
        size b' = size b.
Proof.
  intros Hb Hib. pose proof Hb as (Hsize & Hcap & Hptr).
  destruct (Z.le_gt_cases (Z.of_nat (length vs)) (initial_size SZ INITIAL_SIZE)) as [Hle|Hgt].
  - unfold shrink_to_fit. rewrite Hsize. rewrite (proj2 (Z.leb_le _ _)) by lia.
    destruct b as [[|p] n c ib]; unfold ptr in Hptr; simpl in *.
    + eexists; split; [done |]. split; [| done]. by apply (inline_elements_holds SZ).
    + subst p n. rewrite move_into_prefix by lia. cbn [mbind option_bind].
      eexists; split; [done |]. split; [| done].
      unfold elements, size, ptr. simpl. apply objects_prefix.
  - destruct (inline_shrink_to_fit_large b vs Hb Hgt) as (b' & ? & Hb' & _).
    exists b'. split; [done |]. split; [by apply (inline_elements_holds SZ) |].
    destruct Hb' as (Hs' & _). unfold size. by rewrite Hs', Hsize.
Qed.

End VInlineMore.
End VInlineMore.

(** ** References to elements, moved-from objects, and capacities that wrap *)

Section ReferenceFacts.
Context {T : Type}.
Implicit Types (p : block T) (vs ws : list T) (v x : T) (value : reference T).

Lemma read_reference_filled value vs cap :
  read_reference value true (filled vs cap) = referent value vs.
Proof.
  destruct value as [v|index]; [done |]. unfold read_reference, referent, read_at.
  destruct (decide (0 <= index)) as [Hi|Hi]; [| done].
  rewrite <- (read_at_filled vs cap (Z.to_nat index)).
  unfold read_at. rewrite decide_True by lia. by rewrite Nat2Z.id.
Qed.

Lemma referent_app value vs ws v :
  referent value vs = Some v → referent value (vs ++ ws) = Some v.
Proof.
  destruct value as [v'|index]; [done |]. unfold referent.
  destruct (decide (0 <= index)); [| done]. intros Hv.
  by rewrite lookup_app_l_Some with (x := v).
Qed.

(** The loop of [resize] with a reference that is still in place. *)
Lemma construct_range_in_place value vs cap n v :
  referent value vs = Some v →
  Z.of_nat (length vs) <= n <= cap →
  construct_range (filled vs cap) (Z.of_nat (length vs)) n value true
  = Some (filled (vs ++ replicate (Z.to_nat n - length vs) v) cap).
Proof.
  intros Hv Hn. unfold construct_range.
  replace (Z.to_nat (n - Z.of_nat (length vs))) with (Z.to_nat n - length vs)%nat by lia.
  apply construct_from_reads; [| lia].
  intros ws. rewrite read_reference_filled. by apply referent_app.
Qed.

(** After the [destroy] of [resize], the loop reads a reference in place
    as the object it denotes. *)
Lemma construct_range_after_destroy value vs cap count v in_place :
  referent value vs = Some v →
  Z.of_nat (length vs) <= cap → count <= cap →
  construct_range (destroy (filled vs cap) count (Z.of_nat (length vs)))
    (Z.of_nat (length vs)) count value true
  = construct_range (destroy (filled vs cap) count (Z.of_nat (length vs)))
      (Z.of_nat (length vs)) count (object v) in_place.
Proof.
  intros Hv Hcap Hcount.
  destruct (Z.le_gt_cases count (Z.of_nat (length vs))) as [Hle|Hgt].
  - unfold construct_range.
    by replace (Z.to_nat (count - Z.of_nat (length vs))) with 0%nat by lia.
  - rewrite destroy_empty_range by lia.
    rewrite (construct_range_in_place value vs cap count v) by (done || lia).
    by rewrite construct_range_filled by lia.
Qed.

(** The loop of [resize] with a reference into storage that has been
    released: the first round has nothing to read. *)
Lemma construct_range_released p first last index :
  first < last → construct_range p first last (element index) false = None.
Proof.
  intros Hlt. unfold construct_range.
  destruct (Z.to_nat (last - first)) as [|n] eqn:Hn; [lia | done].
Qed.

End ReferenceFacts.

Module VSplitReferences.
Import VSplit VSplitFacts VSplitMore.
Section VSplitReferences.
Context {T : Type}.
Variable SZ : size_type.
Implicit Types (b : new_buffer T) (vs ws : list T) (v x : T) (value : reference T).



Lemma split_resize_in_place b vs value v count :
  holds SZ b vs → referent value vs = Some v → count <= capacity b →
  resize_with count value b = resize_with count (object v) b.
Proof.
  intros (Hsize & Hcap & Hptr & Hnone) Hv Hcount. unfold resize_with, _reserve.
  rewrite Z.gtb_ltb, (proj2 (Z.ltb_ge _ _)) by lia.
  cbn [negb mbind option_bind].
  assert (ptr (with_storage b (destroy (ptr b) count (size b)))
          = destroy (ptr b) count (size b) ∨ m_data b = None) as [Hp|Hnull].
  { destruct b as [[p|] n c]; [by left | by right]. }
  - rewrite Hp. unfold size, capacity in *. rewrite Hptr.
    change (m_size (with_storage b ?p)) with (m_size b). rewrite Hsize.
    by rewrite (construct_range_after_destroy value vs _ count v true) by (done || lia).
  - destruct b as [[p|] n c]; [done |]. unfold ptr, size, capacity in *. simpl in *.
    specialize (Hnone eq_refl). subst n c.
    unfold construct_range.
    by replace (Z.to_nat (count - Z.of_nat (length vs))) with 0%nat by lia.
Qed.

Lemma split_resize_dangling b vs index count :
  holds SZ b vs → capacity b < count < modulus SZ →
  resize_with count (element index) b = None.
Proof.
  intros Hb Hcount. pose proof Hb as (Hsize & Hcap & _). unfold resize_with, _reserve.
  rewrite Z.gtb_ltb, (proj2 (Z.ltb_lt _ _)) by lia.
  destruct (split_reallocate_holds SZ b vs count Hb) as (b1 & -> & (Hsize1 & _) & _);
    [unfold capacity in *; lia | unfold capacity in *; lia |].
  cbn [negb mbind option_bind].
  rewrite construct_range_released; [done |].
  unfold size, capacity in *. change (m_size (with_storage b1 ?p)) with (m_size b1). lia.
Qed.

Lemma split_setx_in_place b vs value default_value v d (i : nat) :
  holds SZ b vs → referent value vs = Some v → referent default_value vs = Some d →
  Z.of_nat i + 1 <= capacity b →
  setx SZ (Z.of_nat i) value default_value b
  = setx SZ (Z.of_nat i) (object v) (object d) b.
Proof.
  intros Hb Hv Hd Hroom. pose proof Hb as (Hsize & Hcap & Hptr & _). unfold setx.
  unfold capacity in Hroom. rewrite to_SZ_small by lia.
  replace (Z.of_nat i + 1 >? capacity b) with false
    by (symmetry; rewrite Z.gtb_ltb; apply Z.ltb_ge; unfold capacity; lia).
  rewrite andb_false_r. cbn [negb].
  destruct (Z.of_nat i >=? size b) eqn:Hi.
  - rewrite (split_resize_in_place b vs default_value d) by (done || unfold capacity; lia).
    destruct (split_resize_holds SZ b vs (Z.of_nat i + 1) d Hb) as (b1 & -> & Hb1 & _); [lia |].
    cbn [mbind option_bind read_reference].
    apply Z.geb_le in Hi. unfold size in Hi.
    rewrite take_ge in Hb1 by lia.
    destruct Hb1 as (_ & _ & Hptr1 & _).
    rewrite Hptr1, read_reference_filled.
    by rewrite (referent_app value vs _ v Hv).
  - cbn [mbind option_bind read_reference].
    by rewrite Hptr, read_reference_filled, Hv.
Qed.

Lemma split_setx_dangling b vs value default_value index (i : nat) :
  holds SZ b vs → capacity b < Z.of_nat i + 1 < modulus SZ →
  setx SZ (Z.of_nat i) (element index) default_value b = None ∧
  setx SZ (Z.of_nat i) value (element index) b = None.
Proof.
  intros Hb Hroom. pose proof Hb as (Hsize & Hcap & _). unfold setx.
  unfold capacity in Hroom. rewrite to_SZ_small by lia.
  replace (Z.of_nat i >=? size b) with true
    by (symmetry; rewrite Z.geb_leb; apply Z.leb_le; unfold size; lia).
  replace (Z.of_nat i + 1 >? capacity b) with true
    by (symmetry; rewrite Z.gtb_ltb; apply Z.ltb_lt; unfold capacity; lia).
  cbn [andb negb]. split.
  - by destruct (resize_with (Z.of_nat i + 1) default_value b).
  - by rewrite (split_resize_dangling b vs index) by (done || unfold capacity; lia).
Qed.

End VSplitReferences.
End VSplitReferences.

Module VHeaderReferences.
Import VHeader VHeaderFacts VHeaderMore.
Section VHeaderReferences.
Context {T : Type}.
Variable SZ : size_type.
Implicit Types (b : new_buffer T) (vs ws : list T) (v x : T) (value : reference T).

Lemma header_ptr_holds b vs : holds SZ b vs → ptr b = filled vs (capacity b).
Proof.
  intros Hb. by destruct (header_holds_inv SZ b vs Hb) as [(cap & Hc & ->) | [-> ->]].
Qed.



Lemma header_resize_in_place b vs value v count :
  holds SZ b vs → referent value vs = Some v → count <= capacity b →
  resize_with count value b = resize_with count (object v) b.
Proof.
  intros Hb Hv Hcount. unfold resize_with, _reserve.
  destruct (count =? 0); [done |].
  rewrite Z.gtb_ltb, (proj2 (Z.ltb_ge _ _)) by lia.
  cbn [negb mbind option_bind].
  destruct (header_holds_inv SZ b vs Hb) as [(cap & Hc & ->) | [-> ->]].
  - unfold ptr, size, with_storage. cbn [m_data h_size slots fmap option_fmap option_map].
    unfold capacity in Hcount. cbn [m_data h_capacity] in Hcount.
    by rewrite (construct_range_after_destroy value vs _ count v true) by (done || lia).
  - unfold capacity in Hcount. cbn in Hcount. unfold construct_range, size. cbn [m_data].
    by replace (Z.to_nat (count - 0)) with 0%nat by lia.
Qed.

Lemma header_resize_dangling b vs index count :
  holds SZ b vs → capacity b < count < modulus SZ →
  resize_with count (element index) b = None.
Proof.
  intros Hb Hcount. destruct (header_size_capacity SZ b vs Hb) as [Hsize Hcap].
  unfold resize_with, _reserve.
  rewrite (proj2 (Z.eqb_neq _ _)) by lia.
  rewrite Z.gtb_ltb, (proj2 (Z.ltb_lt _ _)) by lia.
  destruct (header_reallocate_holds SZ b vs count Hb) as (a & -> & Ha & _); [lia |].
  cbn [negb mbind option_bind].
  rewrite construct_range_released; [done |].
  destruct Ha as (Hn & _). unfold size. cbn [m_data]. lia.
Qed.

Lemma header_setx_in_place b vs value default_value v d (i : nat) :
  holds SZ b vs → referent value vs = Some v → referent default_value vs = Some d →
  Z.of_nat i + 1 <= capacity b →
  setx SZ (Z.of_nat i) value default_value b
  = setx SZ (Z.of_nat i) (object v) (object d) b.
Proof.
  intros Hb Hv Hd Hroom. destruct (header_size_capacity SZ b vs Hb) as [Hsize Hcap].
  unfold setx. rewrite to_SZ_small by lia.
  replace (Z.of_nat i + 1 >? capacity b) with false
    by (symmetry; rewrite Z.gtb_ltb; apply Z.ltb_ge; lia).
  rewrite andb_false_r. cbn [negb].
  destruct (Z.of_nat i >=? size b) eqn:Hi.
  - rewrite (header_resize_in_place b vs default_value d) by (done || lia).
    destruct (header_resize_holds SZ b vs (Z.of_nat i + 1) d Hb) as (b1 & -> & Hb1 & _); [lia |].
    cbn [mbind option_bind read_reference].
    apply Z.geb_le in Hi.
    rewrite take_ge in Hb1 by lia.
    rewrite (header_ptr_holds b1 _ Hb1), read_reference_filled.
    by rewrite (referent_app value vs _ v Hv).
  - cbn [mbind option_bind read_reference].
    by rewrite (header_ptr_holds b vs Hb), read_reference_filled, Hv.
Qed.

Lemma header_setx_dangling b vs value default_value index (i : nat) :
  holds SZ b vs → capacity b < Z.of_nat i + 1 < modulus SZ →
  setx SZ (Z.of_nat i) (element index) default_value b = None ∧
  setx SZ (Z.of_nat i) value (element index) b = None.
Proof.
  intros Hb Hroom. destruct (header_size_capacity SZ b vs Hb) as [Hsize Hcap].
  unfold setx. rewrite to_SZ_small by lia.
  replace (Z.of_nat i >=? size b) with true
    by (symmetry; rewrite Z.geb_leb; apply Z.leb_le; lia).
  replace (Z.of_nat i + 1 >? capacity b) with true
    by (symmetry; rewrite Z.gtb_ltb; apply Z.ltb_lt; lia).
  cbn [andb negb]. split.
  - by destruct (resize_with (Z.of_nat i + 1) default_value b).
  - by rewrite (header_resize_dangling b vs index) by (done || lia).
Qed.

End VHeaderReferences.
End VHeaderReferences.

Module VInlineReferences.
Import VInline VInlineFacts VInlineMore.
Section VInlineReferences.
Context {T : Type}.
Variable SZ : size_type.
Implicit Types (b : new_buffer T) (vs ws : list T) (v x : T) (value : reference T).





End VInlineReferences.
End VInlineReferences.

Module VInlineMoves.
Import VInline.
Section VInlineMoves.
Context {T : Type}.
Variable SZ : size_type.
Variable INITIAL_SIZE : Z.
Implicit Types (b : new_buffer T) (vs ws : list T).

Lemma moved_out_filled (moved_from : T → T) vs cap :
  Z.of_nat (length vs) <= cap →
  moved_out moved_from (filled vs cap) (Z.of_nat (length vs))
  = filled (moved_from <$> vs) cap.
Proof.
  intros Hcap. unfold moved_out, filled. rewrite Nat2Z.id.
  rewrite take_app_length', drop_app_length' by by rewrite length_fmap.
  rewrite <- list_fmap_compose, length_fmap. f_equal.
  by rewrite <- list_fmap_compose.
Qed.

(** Move assignment from a source in inline storage: the destination
    receives the elements in the storage it has, and the source keeps its
    size and holds the moved-from objects. *)
Lemma inline_move_assign_from_inline (moved_from : T → T) this other ws vs :
  holds SZ this ws → holds SZ other vs → is_inline other = true →
  Z.of_nat (length vs) <= capacity this →
  ∃ this' other',
    move_assign_distinct SZ INITIAL_SIZE moved_from this other = Some (this', other') ∧
    holds SZ this' vs ∧ capacity this' = capacity this ∧
    holds SZ other' (moved_from <$> vs) ∧ size other' = size other.
Proof.
  intros (Hn & Hc & Hp) (Hm & Hd & Hq) Hin Hroom.
  destruct other as [[|q] m d ib]; [| done].
  unfold ptr in Hq. cbn [m_data m_size m_capacity m_initial_buffer] in Hm, Hd, Hq.
  subst m ib.
  unfold move_assign_distinct, size, capacity in *.
  cbn [m_data m_size m_capacity m_initial_buffer ptr].
  rewrite Hn, Hp, destroy_filled by lia.
  destruct this as [[|p] n c jb]; cbn [m_data m_size m_capacity m_initial_buffer] in *.
  - cbn [with_storage with_size ptr m_data m_size m_capacity m_initial_buffer].
    rewrite move_into_filled by lia. cbn [mbind option_bind].
    rewrite moved_out_filled by lia.
    do 2 eexists. split; [done |].
    unfold holds, ptr; simpl. rewrite length_fmap. repeat split; try lia; done.
  - cbn [with_storage with_size ptr m_data m_size m_capacity m_initial_buffer].
    rewrite move_into_filled by lia. cbn [mbind option_bind].
    rewrite moved_out_filled by lia.
    do 2 eexists. split; [done |].
    unfold holds, ptr; simpl. rewrite length_fmap. repeat split; try lia; done.
Qed.

End VInlineMoves.
End VInlineMoves.

Section Overflow.
Context {T : Type}.
Implicit Types (d source : block T) (vs : list T).

(** Copying more objects than the destination has slots runs over its
    end. *)
Lemma uninitialized_copy_overrun (k : nat) : ∀ d source (i : nat),
  (i <= length d < i + k)%nat →
  uninitialized_copy d source (Z.of_nat i) k = None.
Proof.
  induction k as [|k IH]; intros d source i Hlen; [lia |].
  cbn [uninitialized_copy].
  destruct (read_at source (Z.of_nat i)) as [v|]; [| done]. cbn [mbind option_bind].
  unfold construct_at.
  destruct (decide (0 <= Z.of_nat i < Z.of_nat (length d))) as [Hin|Hout]; [| done].
  cbn [mbind option_bind].
  replace (Z.of_nat i + 1) with (Z.of_nat (S i)) by lia.
  apply IH. rewrite length_insert. lia.
Qed.

Lemma move_into_overrun vs cap n :
  0 <= n < Z.of_nat (length vs) →
  move_into (allocate n) (filled vs cap) (Z.of_nat (length vs)) = None.
Proof.
  intros Hn. unfold move_into. rewrite Nat2Z.id.
  apply (uninitialized_copy_overrun (length vs) (allocate n) (filled vs cap) 0).
  rewrite length_allocate. lia.
Qed.

End Overflow.

Section PushBackWraps.
Context {T : Type}.
Variable SZ : size_type.

(** [push_back] on a full buffer whose next capacity wraps: [reallocate]
    moves the elements into an allocation that is too small for them. *)
Lemma split_push_back_wraps (b : VSplit.new_buffer T) vs value :
  VSplit.holds SZ b vs → VSplit.size b = VSplit.capacity b →
  ¬ grows_exactly SZ (VSplit.capacity b) →
  VSplit.push_back SZ value b = None.
Proof.
  intros (Hsize & Hcap & Hptr & _) Hfull Hwrap.
  unfold VSplit.push_back, VSplit.next_capacity. fold (grow SZ (VSplit.capacity b)).
  rewrite Z.geb_leb, (proj2 (Z.leb_le _ _)) by lia.
  unfold VSplit.size, VSplit.capacity in *.
  pose proof (grow_wraps SZ (VSplit.m_capacity b) ltac:(lia) Hwrap) as Hgrow.
  unfold VSplit.reallocate. rewrite Hptr, Hsize.
  by rewrite move_into_overrun by lia.
Qed.

Lemma header_push_back_wraps (b : VHeader.new_buffer T) vs value :
  VHeader.holds SZ b vs → VHeader.size b = VHeader.capacity b →
  ¬ grows_exactly SZ (VHeader.capacity b) →
  VHeader.push_back SZ value b = None.
Proof.
  intros Hb Hfull Hwrap.
  destruct (VHeaderMore.header_size_capacity SZ b vs Hb) as [Hsize Hcap].
  unfold VHeader.push_back, VHeader.next_capacity. fold (grow SZ (VHeader.capacity b)).
  rewrite Z.geb_leb, (proj2 (Z.leb_le _ _)) by lia.
  destruct (VHeaderMore.header_holds_inv SZ b vs Hb) as [(cap & Hc & ->) | [-> ->]].
  - pose proof (grow_wraps SZ (VHeader.capacity (VHeader.allocated vs cap))
                  ltac:(lia) Hwrap) as Hgrow.
    unfold VHeader.size, VHeader.capacity in *. cbn [VHeader.m_data VHeader.h_size VHeader.h_capacity] in *.
    unfold VHeader.reallocate, VHeader.ptr. cbn [VHeader.m_data VHeader.h_size VHeader.slots].
    by rewrite move_into_overrun by lia.
  - exfalso. apply Hwrap. unfold VHeader.capacity. cbn.
    unfold grows_exactly. destruct SZ; vm_compute; reflexivity.
Qed.

Lemma inline_push_back_wraps (b : VInline.new_buffer T) vs value :
  VInline.holds SZ b vs → VInline.size b = VInline.capacity b →
  ¬ grows_exactly SZ (VInline.capacity b) →
  VInline.push_back SZ value b = None.
Proof.
  intros (Hsize & Hcap & Hptr) Hfull Hwrap.
  unfold VInline.push_back, VInline.next_capacity. fold (grow SZ (VInline.capacity b)).
  rewrite Z.geb_leb, (proj2 (Z.leb_le _ _)) by lia.
  unfold VInline.size, VInline.capacity in *.
  pose proof (grow_wraps SZ (VInline.m_capacity b) ltac:(lia) Hwrap) as Hgrow.
  unfold VInline.reallocate. rewrite Hptr, Hsize.
  by rewrite move_into_overrun by lia.
Qed.

End PushBackWraps.

(** ** Facts about comparison, hashing, V-split-actual and the benchmarks *)

Section CompareFacts.
Import Compare.

Lemma lex_lt_irrefl (l : list Z) : ¬ lex_lt l l.
Proof. induction l as [|x l IH]; inversion 1; subst; [lia | done]. Qed.

Lemma lex_lt_trans (l1 l2 l3 : list Z) : lex_lt l1 l2 → lex_lt l2 l3 → lex_lt l1 l3.
Proof.
  intros H12. revert l3. induction H12 as [y l2|x y l1 l2 Hxy|x l1 l2 H12 IH]; intros l3 H23.
  - inversion H23; subst; constructor.
  - inversion H23; subst; [apply lex_differ; lia | by apply lex_differ].
  - inversion H23; subst; [by apply lex_differ | apply lex_equal; by apply IH].
Qed.

Lemma lex_lt_trichotomy (l1 l2 : list Z) : lex_lt l1 l2 ∨ l1 = l2 ∨ lex_lt l2 l1.
Proof.
  revert l2. induction l1 as [|x l1 IH]; intros [|y l2].
  - by right; left.
  - left. constructor.
  - right; right. constructor.
  - destruct (Z.lt_trichotomy x y) as [Hlt | [-> | Hgt]].
    + left. by apply lex_differ.
    + destruct (IH l2) as [H | [-> | H]].
      * left. by apply lex_equal.
      * by right; left.
      * right; right. by apply lex_equal.
    + right; right. by apply lex_differ.
Qed.

Lemma operator_lt_false_iff (lhs rhs : list Z) :
  operator_lt lhs rhs = false ↔ ¬ lex_lt lhs rhs.
Proof. rewrite <- operator_lt_iff. by destruct (operator_lt lhs rhs). Qed.

(** [operator<=] and [operator>=] look at the first elements only. *)
Lemma operator_le_cons x y (l r : list Z) :
  operator_le (x :: l) (y :: r) = (x <=? y).
Proof.
  unfold operator_le. cbn [lexicographical_compare elem_le Z_comparable].
  destruct (Z.leb_spec x y); [done |]. destruct (Z.leb_spec y x); [done | lia].
Qed.

Lemma operator_ge_cons x y (l r : list Z) :
  operator_ge (x :: l) (y :: r) = (x >=? y).
Proof.
  unfold operator_ge. cbn [lexicographical_compare elem_ge Z_comparable].
  rewrite !Z.geb_leb.
  destruct (Z.leb_spec y x); [done |]. destruct (Z.leb_spec x y); [done | lia].
Qed.

(** On ranges of equal length [operator>] is the converse of
    [operator<]. *)
Lemma operator_gt_converse (l : list Z) : ∀ r,
  length l = length r → operator_gt l r = operator_lt r l.
Proof.
  unfold operator_gt, operator_lt.
  induction l as [|x l IH]; intros [|y r] Hlen; try done.
  cbn [lexicographical_compare elem_gt elem_lt Z_comparable].
  rewrite !Z.gtb_ltb. rewrite IH by (simpl in Hlen; lia).
  destruct (y <? x), (x <? y); done.
Qed.

End CompareFacts.

Section HashFacts.
Import Hash.

Lemma testbit_above (x i : Z) : 0 <= x < 2 ^ 64 → 64 <= i → Z.testbit x i = false.
Proof.
  intros Hx Hi. destruct (decide (x = 0)) as [->|Hne]; [apply Z.testbit_0_l |].
  apply Z.bits_above_log2; [lia |].
  assert (Z.log2 x < 64); [| lia]. apply Z.log2_lt_pow2; lia.
Qed.

Lemma below_of_testbit (x : Z) :
  0 <= x → (∀ i, 64 <= i → Z.testbit x i = false) → x < 2 ^ 64.
Proof.
  intros Hx Hbits.
  assert (x mod 2 ^ 64 = x) as <-; [| apply Z.mod_pos_bound; lia].
  apply Z.bits_inj'. intros i Hi.
  destruct (Z.lt_ge_cases i 64).
  - by rewrite Z.mod_pow2_bits_low.
  - rewrite Z.mod_pow2_bits_high by lia. by rewrite Hbits.
Qed.

Lemma lor_range (a b : Z) : 0 <= a < 2 ^ 64 → 0 <= b < 2 ^ 64 → 0 <= Z.lor a b < 2 ^ 64.
Proof.
  intros Ha Hb. assert (0 <= Z.lor a b) by (apply Z.lor_nonneg; lia).
  split; [done |]. apply below_of_testbit; [done |]. intros i Hi.
  by rewrite Z.lor_spec, !testbit_above.
Qed.

Lemma lxor_range (a b : Z) : 0 <= a < 2 ^ 64 → 0 <= b < 2 ^ 64 → 0 <= Z.lxor a b < 2 ^ 64.
Proof.
  intros Ha Hb. assert (0 <= Z.lxor a b) by (apply Z.lxor_nonneg; lia).
  split; [done |]. apply below_of_testbit; [done |]. intros i Hi.
  by rewrite Z.lxor_spec, !testbit_above.
Qed.

Lemma rotate_range (r : Z) : 0 <= r < 2 ^ 64 → 0 <= rotate r < 2 ^ 64.
Proof.
  intros Hr. unfold rotate, to_result, result_digits. apply lor_range.
  - apply Z.mod_pos_bound. lia.
  - rewrite Z.shiftr_div_pow2 by lia. split.
    + apply Z.div_pos; lia.
    + apply Z.div_lt_upper_bound; lia.
Qed.

(** The bits of a rotated value: bit [i] comes from bit [i - 11], the
    lowest eleven from the highest. *)
Lemma rotate_testbit (r i : Z) :
  0 <= r < 2 ^ 64 → 0 <= i < 64 →
  Z.testbit (rotate r) i = Z.testbit r ((i + 53) mod 64).
Proof.
  intros Hr Hi. unfold rotate, to_result, result_digits.
  rewrite Z.lor_spec, Z.mod_pow2_bits_low by lia.
  rewrite Z.shiftl_spec, Z.shiftr_spec by lia.
  destruct (Z.lt_ge_cases i 11).
  - rewrite (Z.testbit_neg_r r (i - 11)) by lia.
    replace ((i + 53) mod 64) with (i + (64 - 11)) by (rewrite Z.mod_small; lia).
    done.
  - rewrite (testbit_above r (i + (64 - 11))) by lia.
    replace ((i + 53) mod 64) with (i - 11).
    + by rewrite orb_false_r.
    + replace (i + 53) with ((i - 11) + 1 * 64) by lia.
      rewrite Z.mod_add by lia. rewrite Z.mod_small; lia.
Qed.

Lemma rotate_inj (r1 r2 : Z) :
  0 <= r1 < 2 ^ 64 → 0 <= r2 < 2 ^ 64 → rotate r1 = rotate r2 → r1 = r2.
Proof.
  intros H1 H2 Heq. apply Z.bits_inj'. intros j Hj.
  destruct (Z.lt_ge_cases j 64) as [Hlt|Hge]; [| by rewrite !testbit_above].
  pose proof (rotate_testbit r1 ((j + 11) mod 64) H1) as Hb1.
  pose proof (rotate_testbit r2 ((j + 11) mod 64) H2) as Hb2.
  assert (0 <= (j + 11) mod 64 < 64) as Hm by (apply Z.mod_pos_bound; lia).
  assert (((j + 11) mod 64 + 53) mod 64 = j) as Hback.
  { rewrite Zplus_mod_idemp_l. replace (j + 11 + 53) with (j + 1 * 64) by lia.
    rewrite Z.mod_add by lia. apply Z.mod_small. lia. }
  rewrite Hback in Hb1, Hb2. rewrite <- Hb1, <- Hb2 by done. by rewrite Heq.
Qed.

Section Steps.
Context {T : Type}.
Variable hash_size : Z → Z.
Variable hasher : T → Z.
Hypothesis hasher_range : ∀ e, 0 <= hasher e < 2 ^ 64.

Lemma hash_step_range r e : 0 <= r < 2 ^ 64 → 0 <= hash_step hasher r e < 2 ^ 64.
Proof. intros Hr. apply lxor_range; [by apply rotate_range | apply hasher_range]. Qed.

Lemma foldl_hash_step_range l : ∀ r,
  0 <= r < 2 ^ 64 → 0 <= foldl (hash_step hasher) r l < 2 ^ 64.
Proof.
  induction l as [|e l IH]; intros r Hr; [done |]. simpl. by apply IH, hash_step_range.
Qed.

Lemma hash_step_inj r1 r2 e :
  0 <= r1 < 2 ^ 64 → 0 <= r2 < 2 ^ 64 →
  hash_step hasher r1 e = hash_step hasher r2 e → r1 = r2.
Proof.
  intros H1 H2 Heq. apply rotate_inj; [done | done |]. unfold hash_step in Heq.
  apply (f_equal (λ x, Z.lxor x (hasher e))) in Heq.
  by rewrite !Z.lxor_assoc, !Z.lxor_nilpotent, !Z.lxor_0_r in Heq.
Qed.

Lemma foldl_hash_step_inj l : ∀ r1 r2,
  0 <= r1 < 2 ^ 64 → 0 <= r2 < 2 ^ 64 →
  foldl (hash_step hasher) r1 l = foldl (hash_step hasher) r2 l → r1 = r2.
Proof.
  induction l as [|e l IH]; intros r1 r2 H1 H2 Heq; [done |]. simpl in Heq.
  apply IH in Heq; [| by apply hash_step_range | by apply hash_step_range].
  by apply (hash_step_inj r1 r2 e).
Qed.

End Steps.
End HashFacts.

Module VSplitActualMore.
Import VSplitActual VSplitActualFacts.
Section VSplitActualMore.
Context {T : Type}.
Variable SZ : size_type.
Variable usable_elements : Z → Z.
Implicit Types (b : new_buffer T) (vs ws : list T) (v x : T).

Lemma actual_copy_construct_holds other vs :
  holds SZ other vs →
  Z.of_nat (length vs) <= usable_elements (Z.of_nat (length vs)) < modulus SZ →
  ∃ this, copy_construct SZ usable_elements other = Some this ∧ holds SZ this vs ∧
          capacity this = if decide (vs = []) then 0
                          else usable_elements (Z.of_nat (length vs)).
Proof.
  intros (Hsize & Hcap & Hptr & Hnull) Husable. unfold copy_construct. rewrite Hsize.
  destruct vs as [|v vs].
  - cbn. eexists; split; [done |]. split; [apply actual_empty_holds | done].
  - rewrite Z.gtb_ltb, (proj2 (Z.ltb_lt _ _)) by (cbn [length]; lia).
    destruct (actual_reallocate_holds SZ usable_elements (empty_buffer (T:=T)) []
                (Z.of_nat (length (v :: vs))))
      as (b1 & -> & Hb1 & Hcap1); [apply actual_empty_holds | simpl in *; lia
                                  | cbn [length] in *; lia |].
    cbn [mbind option_bind].
    destruct Hb1 as (Hsize1 & Hc1 & Hptr1 & Hnull1). unfold capacity in Hcap1.
    rewrite Hptr1, Hptr, filled_nil, Hcap1.
    rewrite copy_into_filled by lia. cbn [mbind option_bind].
    eexists; split; [done |].
    destruct b1 as [[p|] n c]; simpl in *.
    + subst c. unfold holds, capacity, ptr, with_storage, with_size; simpl.
      repeat split; try lia; done.
    + specialize (Hnull1 eq_refl). lia.
Qed.

(** When the allocator reports more usable elements than requested,
    [shrink_to_fit] leaves a capacity above the size, so that the next
    call reallocates again. *)
Lemma actual_shrink_to_fit_holds b vs :
  holds SZ b vs → vs ≠ [] →
  Z.of_nat (length vs) <= usable_elements (Z.of_nat (length vs)) < modulus SZ →
  ∃ b', shrink_to_fit SZ usable_elements b = Some b' ∧ holds SZ b' vs ∧
        capacity b' = if decide (capacity b = Z.of_nat (length vs)) then capacity b
                      else usable_elements (Z.of_nat (length vs)).
Proof.
  intros Hb Hne Husable. pose proof Hb as (Hsize & Hcap & Hptr & Hnull).
  unfold shrink_to_fit, size, capacity. rewrite Hsize.
  assert (0 < Z.of_nat (length vs)) by (destruct vs; [done | cbn [length]; lia]).
  rewrite Z.gtb_ltb, (proj2 (Z.ltb_lt _ _)) by lia.
  destruct (Z.eqb_spec (Z.of_nat (length vs)) (m_capacity b)) as [Heq|Hneq]; cbn [negb].
  - exists b. rewrite decide_True by done. done.
  - rewrite decide_False by done.
    destruct (actual_reallocate_holds SZ usable_elements b vs (Z.of_nat (length vs)) Hb)
      as (b' & ? & ? & ?); [lia | lia |].
    by exists b'.
Qed.

End VSplitActualMore.
End VSplitActualMore.

Section Benchmarks.
Import Scenarios.

Lemma push_all_holds (SZ : size_type) (values : list Z) : ∀ (b : VInline.new_buffer Z) vs,
  VInline.holds SZ b vs →
  3 * Z.of_nat (length vs + length values) < modulus SZ →
  ∃ b', push_all SZ values b = Some b' ∧ VInline.holds SZ b' (vs ++ values) ∧
        VInline.capacity b <= VInline.capacity b'.
Proof.
  induction values as [|v values IH]; intros b vs Hb Hfit.
  - exists b. rewrite app_nil_r. done.
  - unfold push_all. cbn [foldl mbind option_bind]. cbn [length] in Hfit.
    pose proof Hb as (Hsize & Hc & _).
    destruct (VInlineFacts.inline_push_back_holds SZ b vs v Hb) as (b1 & Hpush & Hb1 & Hcap1 & _).
    { unfold VInline.size, VInline.capacity.
      destruct (Z.lt_ge_cases (VInline.m_size b) (VInline.m_capacity b)); [by left | right; lia]. }
    rewrite Hpush.
    destruct (IH b1 (vs ++ [v]) Hb1) as (b' & Hall & Hb' & Hcap').
    { rewrite length_app. cbn [length]. lia. }
    exists b'. split; [exact Hall |]. split; [by rewrite <- app_assoc in Hb' |].
    etrans; [| exact Hcap']. rewrite Hcap1.
    unfold VInline.size, VInline.capacity in *.
    destruct (Z.ltb_spec (VInline.m_size b) (VInline.m_capacity b)); [done |].
    pose proof (growth_policy_bounds SZ (VInline.m_capacity b)). lia.
Qed.

End Benchmarks.

Module FinalizeFacts.
Section FinalizeFacts.
Context {T : Type} `{EqDecision T}.
Variable SZ : size_type.

Lemma split_finalize_null (b : VSplit.new_buffer T) vs :
  VSplit.holds SZ b vs → VSplit.finalize b = Some VSplit.empty_buffer.
Proof.
  intros Hb. unfold VSplit.finalize.
  destruct (VSplitMore.split_clear_holds SZ b vs Hb) as [Hclear _].
  destruct (VSplitMore.split_shrink_to_fit_holds SZ _ _ Hclear) as (b' & -> & Hb' & _ & Hnull & _).
  specialize (Hnull eq_refl). f_equal.
  destruct (VSplitMore.split_holds_inv SZ b' [] Hb') as [(cap & _ & ->) | [_ ->]]; done.
Qed.

Lemma header_finalize_null (b : VHeader.new_buffer T) vs :
  VHeader.holds SZ b vs → VHeader.finalize b = Some VHeader.empty_buffer.
Proof.
  intros Hb. unfold VHeader.finalize.
  destruct (VHeaderMore.header_clear_holds SZ b vs Hb) as [Hclear _].
  destruct (VHeaderMore.header_shrink_to_fit_holds SZ _ _ Hclear) as (b' & -> & Hb' & _ & Hnull & _).
  specialize (Hnull eq_refl). f_equal.
  destruct (VHeaderMore.header_holds_inv SZ b' [] Hb') as [(cap & _ & ->) | [_ ->]]; done.
Qed.

End FinalizeFacts.
End FinalizeFacts.

(** * The claims of the specification *)

Import Scenarios.

(** Closed goals about concrete runs are settled by evaluation, one
    conjunct at a time. *)
Ltac by_evaluation :=
  repeat match goal with |- _ ∧ _ => split end;
  first [ vm_compute; reflexivity | vm_compute; discriminate ].

(** C1, as the code has it.  Move construction leaves the source empty and
    reusable: in V-header, V-split and V-split-actual the source becomes the
    null buffer (size 0, capacity 0); in V-inline a source in inline storage
    is left with size 0, inline storage and capacity [N]; in each case a
    [push_back] on the source then yields a buffer holding that one
    element.  Move assignment in V-header, V-split and V-split-actual, and
    in V-inline when both buffers are on the heap, exchanges the two
    buffers: the source ends up with what the destination held. *)
Theorem C1_moved_from_source {T : Type} (SZ : size_type) (INITIAL_SIZE : Z)
    (usable_elements : Z → Z) (v : T) (vs : list T) (bi : VInline.new_buffer T) :
  0 < VInline.initial_size SZ INITIAL_SIZE →
  2 <= usable_elements 2 < modulus SZ →
  VInline.holds SZ bi vs →
  VInline.is_inline bi = true →
  VInline.capacity bi = VInline.initial_size SZ INITIAL_SIZE →
  (∃ this other,
     VInline.move_construct SZ INITIAL_SIZE bi = Some (this, other) ∧
     VInline.elements this = Some vs ∧
     VInline.size other = 0 ∧ VInline.is_inline other = true ∧
     VInline.capacity other = VInline.initial_size SZ INITIAL_SIZE ∧
     ∃ b', VInline.push_back SZ (object v) other = Some b' ∧ VInline.elements b' = Some [v]) ∧
  (∀ b : VHeader.new_buffer T, ∃ other,
     VHeader.move_construct b = (b, other) ∧
     VHeader.size other = 0 ∧ VHeader.capacity other = 0 ∧
     ∃ b', VHeader.push_back SZ (object v) other = Some b' ∧ VHeader.elements b' = Some [v]) ∧
  (∀ b : VSplit.new_buffer T, ∃ other,
     VSplit.move_construct b = (b, other) ∧
     VSplit.size other = 0 ∧ VSplit.capacity other = 0 ∧
     ∃ b', VSplit.push_back SZ (object v) other = Some b' ∧ VSplit.elements b' = Some [v]) ∧
  (∀ b : VSplitActual.new_buffer T, ∃ other,
     VSplitActual.move_construct b = (b, other) ∧
     VSplitActual.size other = 0 ∧ VSplitActual.capacity other = 0 ∧
     ∃ b', VSplitActual.push_back SZ usable_elements (object v) other = Some b' ∧
           VSplitActual.elements b' = Some [v]) ∧
  (∀ this other : VHeader.new_buffer T, VHeader.move_assign this other = (other, this)) ∧
  (∀ this other : VSplit.new_buffer T, VSplit.move_assign this other = (other, this)) ∧
  (∀ this other : VSplitActual.new_buffer T,
     VSplitActual.move_assign this other = (other, this)) ∧
  (∀ (moved_from : T → T) (this other : VInline.new_buffer T),
     VInline.is_inline this = false → VInline.is_inline other = false →
     ∃ this' other',
       VInline.move_assign_distinct SZ INITIAL_SIZE moved_from this other
         = Some (this', other') ∧
       VInline.ptr this' = VInline.ptr other ∧ VInline.size this' = VInline.size other ∧
       VInline.capacity this' = VInline.capacity other ∧
       VInline.ptr other' = VInline.ptr this ∧ VInline.size other' = VInline.size this ∧
       VInline.capacity other' = VInline.capacity this).
Proof.
  intros Hpos Husable Hi Hin Hcap. pose proof (modulus_ge_256 SZ) as H256.
  split; [| split; [| split; [| split]]].
  - destruct (VInlineFacts.inline_move_construct_inline SZ INITIAL_SIZE bi vs Hi Hin Hcap)
      as (this & other & Hmove & Hthis & Hother & Hsize & Hinline & Hcapo).
    exists this, other. split; [done |].
    split; [by apply (VInlineFacts.inline_elements_holds SZ) |].
    do 3 (split; [done |]).
    destruct (VInlineFacts.inline_push_back_holds SZ other [] v Hother) as (b' & ? & Hb' & _).
    { left. lia. }
    exists b'. split; [done |]. by apply (VInlineFacts.inline_elements_holds SZ).
  - intros [d]. exists VHeader.empty_buffer. split; [done |]. do 2 (split; [done |]).
    destruct (VHeaderFacts.header_push_back_holds SZ VHeader.empty_buffer [] v) as (b' & ? & Hb' & _).
    { apply VHeaderFacts.header_empty_holds. }
    { right. unfold VHeader.capacity; simpl. lia. }
    exists b'. split; [done |]. by apply (VHeaderFacts.header_elements_holds SZ).
  - intros [d n c]. exists VSplit.empty_buffer. split; [done |]. do 2 (split; [done |]).
    destruct (VSplitFacts.split_push_back_holds SZ VSplit.empty_buffer [] v) as (b' & ? & Hb' & _).
    { apply VSplitFacts.split_empty_holds. }
    { right. unfold VSplit.capacity; simpl. lia. }
    exists b'. split; [done |]. by apply (VSplitFacts.split_elements_holds SZ).
  - intros [d n c]. exists VSplitActual.empty_buffer.
    split; [done |]. do 2 (split; [done |]).
    destruct (VSplitActualFacts.actual_push_back_holds SZ usable_elements
                VSplitActual.empty_buffer [] v) as (b' & ? & Hb' & _).
    { apply VSplitActualFacts.actual_empty_holds. }
    { right. unfold VSplitActual.capacity; simpl. split; [lia |]. exact Husable. }
    exists b'. split; [done |].
    destruct Hb' as (Hsize & Hcapb & Hptr & _).
    unfold VSplitActual.elements, VSplitActual.size.
    rewrite Hsize, Hptr. apply objects_filled. apply Hcapb.
  - split; [by intros [?] [?] |].
    split; [by intros [? ? ?] [? ? ?] |].
    split; [by intros [? ? ?] [? ? ?] |].
    intros moved_from [[|p] ? ? ?] [[|q] ? ? ?] ? ?; try done.
    do 2 eexists. split; [done |]. done.
Qed.

(** C1 at a 32-bit size type and inline capacity 4, with an inline buffer
    holding [1, 2] and an allocator that reports the requested size. *)
Lemma C1_moved_from_source_witness :
  (∃ this other,
     VInline.move_construct uint32 4
       (VInline.mk VInline.initial_buffer 2 4 (filled [1; 2] 4)) = Some (this, other) ∧
     VInline.elements this = Some [1; 2] ∧ VInline.size other = 0) ∧
  VSplit.move_assign split_9 split_1_2 = (split_1_2, split_9).
Proof.
  destruct (C1_moved_from_source uint32 4 (λ n, n) 7 [1; 2]
              (VInline.mk VInline.initial_buffer 2 4 (filled [1; 2] 4)))
    as ((this & other & H1 & H2 & H3 & _) & _ & _ & _ & _ & Hassign & _).
  - vm_compute. reflexivity.
  - vm_compute. split; [discriminate | reflexivity].
  - unfold VInline.holds; simpl. repeat split; try lia; done.
  - reflexivity.
  - reflexivity.
  - split; [| apply Hassign].
    exists this, other. repeat split; assumption.
Defined.

(** C1 as stated fails for move assignment: after [dst = std::move(b)] with
    V-split buffers [dst] holding [9] and [b] holding [1, 2], the size of
    [b] is 1. *)
Lemma C1_move_assign_source_not_empty :
  VSplit.size (VSplit.move_assign split_9 split_1_2).2 = 1 ∧
  VSplit.size (VSplit.move_assign split_9 split_1_2).2 ≠ 0.
Proof. by_evaluation. Qed.

(** Move construction in V-inline from a source on the heap (the buffer of
    scenario A) is left out of C1: the source is left in inline storage
    with [m_size] set to the inline capacity 4 and the capacity of the
    allocation it gave away. *)
Lemma move_construct_from_heap_source :
  (b ← scenario_A_five; r ← VInline.move_construct uint32 4 b; Some r.2)
  = Some (VInline.mk VInline.initial_buffer 4 6 [Raw; Raw; Raw; Raw]).
Proof. by_evaluation. Qed.

(** C2, as the code has it: with a 32-bit size type and inline capacity 4,
    pushing 1, 2, 3, 4 into an empty V-inline buffer leaves it in inline
    storage with size 4 and capacity 4; pushing 5 then moves it to heap
    storage with capacity [next_capacity(4)], which is
    [floor((3*4+1)/2) = 6], and contents [1, 2, 3, 4, 5]. *)
Theorem C2_scenario_A :
  (∃ b, scenario_A_four = Some b ∧
        VInline.is_inline b = true ∧ VInline.size b = 4 ∧ VInline.capacity b = 4 ∧
        VInline.elements b = Some [1; 2; 3; 4] ∧
        VInline.next_capacity uint32 b = 6) ∧
  (∃ b, scenario_A_five = Some b ∧
        VInline.is_inline b = false ∧ VInline.size b = 5 ∧ VInline.capacity b = 6 ∧
        VInline.elements b = Some [1; 2; 3; 4; 5]) ∧
  growth_policy 4 = 6.
Proof.
  split; [| split].
  - exists (VInline.mk VInline.initial_buffer 4 4 [Live 1; Live 2; Live 3; Live 4]).
    by_evaluation.
  - exists (VInline.mk (VInline.heap [Live 1; Live 2; Live 3; Live 4; Live 5; Raw]) 5 6
              [Raw; Raw; Raw; Raw]).
    by_evaluation.
  - reflexivity.
Qed.

(** C2 as stated fails: after the fifth push the capacity is not 7, and
    the growth policy does not map 4 to 7. *)
Lemma C2_capacity_is_not_7 :
  VInline.capacity <$> scenario_A_five ≠ Some 7 ∧ growth_policy 4 ≠ 7.
Proof. by_evaluation. Qed.

(** C3: the code follows the growth policy at every capacity where the
    computation of the next capacity does not wrap, and departs from it,
    against its own assertion, where it wraps.  The four
    [next_capacity] members are the same function [grow] of the capacity.
    At every capacity where the computation does not wrap
    ([grows_exactly]) it is the growth policy of the specification: 2 at 0
    and [floor((3*cap+1)/2)] otherwise; in particular it maps 0, 2, 3, 10
    to 2, 3, 5, 15 for every size type, and [push_back] of an object
    outside the buffer reallocates a full buffer to that capacity in every
    variant (V-split-actual then records what the allocator reports for
    it) and leaves the capacity alone when there is room.  Where the
    computation wraps, the capacity returned is below the current one and
    so below the growth policy, and [push_back] on a full buffer of
    V-inline, V-header or V-split moves the elements into an allocation
    that is too small for them, against [SASSERT(new_capacity >= size())]
    in [reallocate]: it has no defined behaviour. *)
Theorem C3_growth_policy {T : Type} (SZ : size_type) (cap : Z) :
  0 <= cap < modulus SZ →
  (grows_exactly SZ cap → grow SZ cap = growth_policy cap) ∧
  (¬ grows_exactly SZ cap → grow SZ cap < cap ∧ cap < growth_policy cap) ∧
  (∀ b : VInline.new_buffer T, VInline.next_capacity SZ b = grow SZ (VInline.capacity b)) ∧
  (∀ b : VHeader.new_buffer T, VHeader.next_capacity SZ b = grow SZ (VHeader.capacity b)) ∧
  (∀ b : VSplit.new_buffer T, VSplit.next_capacity SZ b = grow SZ (VSplit.capacity b)) ∧
  (∀ b : VSplitActual.new_buffer T,
     VSplitActual.next_capacity SZ b = grow SZ (VSplitActual.capacity b)) ∧
  (grow SZ 0 = 2 ∧ grow SZ 2 = 3 ∧ grow SZ 3 = 5 ∧ grow SZ 10 = 15) ∧
  (∀ (b : VInline.new_buffer T) vs v,
     VInline.holds SZ b vs → VInline.capacity b = cap →
     VInline.size b < cap ∨ grows_exactly SZ cap →
     ∃ b', VInline.push_back SZ (object v) b = Some b' ∧
           VInline.elements b' = Some (vs ++ [v]) ∧
           VInline.capacity b' =
             if VInline.size b <? cap then cap else growth_policy cap) ∧
  (∀ (b : VHeader.new_buffer T) vs v,
     VHeader.holds SZ b vs → VHeader.capacity b = cap →
     VHeader.size b < cap ∨ grows_exactly SZ cap →
     ∃ b', VHeader.push_back SZ (object v) b = Some b' ∧
           VHeader.elements b' = Some (vs ++ [v]) ∧
           VHeader.capacity b' =
             if VHeader.size b <? cap then cap else growth_policy cap) ∧
  (∀ (b : VSplit.new_buffer T) vs v,
     VSplit.holds SZ b vs → VSplit.capacity b = cap →
     VSplit.size b < cap ∨ grows_exactly SZ cap →
     ∃ b', VSplit.push_back SZ (object v) b = Some b' ∧
           VSplit.elements b' = Some (vs ++ [v]) ∧
           VSplit.capacity b' =
             if VSplit.size b <? cap then cap else growth_policy cap) ∧
  (∀ (usable_elements : Z → Z) (b : VSplitActual.new_buffer T) vs v,
     VSplitActual.holds SZ b vs → VSplitActual.capacity b = cap →
     VSplitActual.size b < cap ∨
       (grows_exactly SZ cap ∧
        growth_policy cap <= usable_elements (growth_policy cap) < modulus SZ) →
     ∃ b', VSplitActual.push_back SZ usable_elements (object v) b = Some b' ∧
           VSplitActual.elements b' = Some (vs ++ [v]) ∧
           VSplitActual.capacity b' =
             if VSplitActual.size b <? cap then cap
             else usable_elements (growth_policy cap)) ∧
  (∀ (b : VInline.new_buffer T) vs value,
     VInline.holds SZ b vs → VInline.capacity b = cap → VInline.size b = cap →
     ¬ grows_exactly SZ cap → VInline.push_back SZ value b = None) ∧
  (∀ (b : VHeader.new_buffer T) vs value,
     VHeader.holds SZ b vs → VHeader.capacity b = cap → VHeader.size b = cap →
     ¬ grows_exactly SZ cap → VHeader.push_back SZ value b = None) ∧
  (∀ (b : VSplit.new_buffer T) vs value,
     VSplit.holds SZ b vs → VSplit.capacity b = cap → VSplit.size b = cap →
     ¬ grows_exactly SZ cap → VSplit.push_back SZ value b = None).
Proof.
  intros Hcap. pose proof (modulus_ge_256 SZ) as H256.
  split; [intros Hfit; apply (grows_exactly_bounds SZ cap); [lia | done] |].
  split.
  { intros Hwrap. split; [apply (grow_wraps SZ cap Hcap Hwrap) |].
    unfold growth_policy. destruct (Z.eqb_spec cap 0) as [->|Hne]; [lia |].
    assert (cap + 1 <= (3 * cap + 1) / 2) by (apply Z.div_le_lower_bound; lia). lia. }
  do 4 (split; [done |]).
  split.
  { repeat split; rewrite grow_exact by lia; reflexivity. }
  split; [| split; [| split; [| split; [| split; [| split]]]]].
  - intros b vs v Hb <- Hfit.
    destruct (VInlineFacts.inline_push_back_grows SZ b vs v Hb Hfit) as (b' & ? & Hb' & ? & _).
    exists b'. split; [done |]. split; [| done].
    by apply (VInlineFacts.inline_elements_holds SZ).
  - intros b vs v Hb <- Hfit.
    destruct (VHeaderFacts.header_push_back_grows SZ b vs v Hb Hfit) as (b' & ? & Hb' & ?).
    exists b'. split; [done |]. split; [| done].
    by apply (VHeaderFacts.header_elements_holds SZ).
  - intros b vs v Hb <- Hfit.
    destruct (VSplitFacts.split_push_back_grows SZ b vs v Hb Hfit) as (b' & ? & Hb' & ?).
    exists b'. split; [done |]. split; [| done].
    by apply (VSplitFacts.split_elements_holds SZ).
  - intros usable b vs v Hb <- Hfit.
    destruct (VSplitActualFacts.actual_push_back_grows SZ usable b vs v Hb Hfit)
      as (b' & ? & Hb' & ?).
    exists b'. split; [done |]. split; [| done].
    destruct Hb' as (Hsize & ? & Hptr & _).
    unfold VSplitActual.elements, VSplitActual.size.
    rewrite Hsize, Hptr. apply objects_filled. lia.
  - intros b vs value Hb <- Hfull Hwrap. by apply (inline_push_back_wraps SZ b vs).
  - intros b vs value Hb <- Hfull Hwrap. by apply (header_push_back_wraps SZ b vs).
  - intros b vs value Hb <- Hfull Hwrap. by apply (split_push_back_wraps SZ b vs).
Qed.

(** C3 with an 8-bit size type.  At capacity 93 the next capacity is
    [(3 * 93 + 1) / 2 = 140], computed in [int].  At capacity 210, which
    [push_back] reaches from an empty buffer through 2, 3, 5, 8, 12, 18,
    27, 41, 62, 93 and 140, the next capacity is below 210, and
    [push_back] on the full V-split buffer has no defined behaviour. *)
Lemma C3_growth_policy_witness :
  grow uint8 93 = 140 ∧
  grow uint8 210 < 210 ∧
  VSplit.push_back uint8 (object 0) capacity_210 = None.
Proof.
  destruct (C3_growth_policy (T:=Z) uint8 93) as (Hexact & _);
    [vm_compute; split; [discriminate | reflexivity] |].
  destruct (C3_growth_policy (T:=Z) uint8 210)
    as (_ & Hwrap & _ & _ & _ & _ & _ & _ & _ & _ & _ & _ & _ & Hsplit);
    [vm_compute; split; [discriminate | reflexivity] |].
  assert (¬ grows_exactly uint8 210) as Hnot
    by (intros H; vm_compute in H; discriminate).
  split; [apply Hexact; vm_compute; reflexivity |].
  split; [apply (Hwrap Hnot) |].
  apply (Hsplit capacity_210 (replicate 210 0) (object 0)).
  - unfold VSplit.holds, capacity_210, VSplit.ptr. cbn [VSplit.m_size VSplit.m_capacity VSplit.m_data].
    rewrite length_replicate.
    split; [reflexivity |]. split; [vm_compute; split; discriminate || reflexivity |].
    split; [reflexivity | discriminate].
  - reflexivity.
  - reflexivity.
  - exact Hnot.
Defined.

(** The run on which the code departs from C3, evaluated: with an 8-bit
    size type and capacity 210, [(3 * 210 + 1) / 2 = 315] is converted to
    59; a [push_back] on the full buffer then moves its 210 elements into
    an allocation of 59 slots, which the embedding reports as
    undefined. *)
Lemma C3_wraps_at_210 :
  VSplit.next_capacity uint8 capacity_210 = 59 ∧
  VSplit.next_capacity uint8 capacity_210 ≠ growth_policy (VSplit.capacity capacity_210) ∧
  VSplit.push_back uint8 (object 0) capacity_210 = None.
Proof. by_evaluation. Qed.

(** C4 fails on the code: in every variant [pop_back] calls the destructor
    at [end()], the slot after the last element, and then decrements the
    size.  On a buffer that satisfies the invariant and holds [vs ++ [v]],
    the size becomes [length vs] and the storage is what it was: the slot
    at index [length vs], now inside [size, capacity), still holds the live
    object [v]. *)
Theorem C4_pop_back_leaves_last_element_alive {T : Type} (SZ : size_type)
    (vs : list T) (v : T)
    (bi : VInline.new_buffer T) (bh : VHeader.new_buffer T)
    (bs : VSplit.new_buffer T) (ba : VSplitActual.new_buffer T) :
  VInline.holds SZ bi (vs ++ [v]) →
  VHeader.holds SZ bh (vs ++ [v]) →
  VSplit.holds SZ bs (vs ++ [v]) →
  VSplitActual.holds SZ ba (vs ++ [v]) →
  (VInline.size (VInline.pop_back SZ bi) = Z.of_nat (length vs) ∧
   VInline.ptr (VInline.pop_back SZ bi) = VInline.ptr bi ∧
   VInline.ptr (VInline.pop_back SZ bi) !! length vs = Some (Live v)) ∧
  (∃ bh', VHeader.pop_back SZ bh = Some bh' ∧
          VHeader.size bh' = Z.of_nat (length vs) ∧
          VHeader.ptr bh' !! length vs = Some (Live v)) ∧
  (VSplit.size (VSplit.pop_back SZ bs) = Z.of_nat (length vs) ∧
   VSplit.ptr (VSplit.pop_back SZ bs) = VSplit.ptr bs ∧
   VSplit.ptr (VSplit.pop_back SZ bs) !! length vs = Some (Live v)) ∧
  (VSplitActual.size (VSplitActual.pop_back SZ ba) = Z.of_nat (length vs) ∧
   VSplitActual.ptr (VSplitActual.pop_back SZ ba) = VSplitActual.ptr ba ∧
   VSplitActual.ptr (VSplitActual.pop_back SZ ba) !! length vs = Some (Live v)).
Proof.
  intros Hi Hh Hs Ha.
  split; [| split; [| split]].
  - destruct (VInlineFacts.inline_pop_back_keeps_last SZ bi vs v Hi) as [Heq Hlast].
    split; [by rewrite Heq |]. split; [by rewrite Heq | done].
  - destruct (VHeaderFacts.header_pop_back_keeps_last SZ bh vs v Hh) as (bh' & ? & ? & _ & ?).
    by exists bh'.
  - destruct (VSplitFacts.split_pop_back_keeps_last SZ bs vs v Hs) as [Heq Hlast].
    split; [by rewrite Heq |]. split; [by rewrite Heq | done].
  - destruct (VSplitActualFacts.actual_pop_back_keeps_last SZ ba vs v Ha) as [Heq Hlast].
    split; [by rewrite Heq |]. split; [by rewrite Heq | done].
Qed.

(** C4 at buffers holding [1, 2] with capacity 2 (V-inline: inline
    capacity 2). *)
Lemma C4_pop_back_witness :
  VSplit.pop_back uint32 split_1_2 = VSplit.mk (Some [Live 1; Live 2]) 1 2 ∧
  VSplit.ptr (VSplit.pop_back uint32 split_1_2) !! 1%nat = Some (Live 2).
Proof.
  destruct (C4_pop_back_leaves_last_element_alive uint32 [1] 2
              (VInline.mk VInline.initial_buffer 2 2 [Live 1; Live 2])
              (VHeader.mk (Some (VHeader.mk_allocation 2 2 [Live 1; Live 2])))
              split_1_2
              (VSplitActual.mk (Some [Live 1; Live 2]) 2 2))
    as (_ & _ & (_ & _ & Hlast) & _).
  - unfold VInline.holds; simpl. repeat split; try lia; done.
  - unfold VHeader.holds; simpl. repeat split; try lia; done.
  - unfold VSplit.holds; simpl. repeat split; try lia; done.
  - unfold VSplitActual.holds; simpl. repeat split; try lia; done.
  - split; [reflexivity | exact Hlast].
Defined.

(** C5 fails on the code: after scenario A, [clear()] and [shrink_to_fit()]
    leave the buffer in inline storage with the capacity of the released
    heap allocation (6), not the inline capacity 4. *)
Theorem C5_shrink_to_fit_keeps_heap_capacity :
  ∃ b, cleared_and_shrunk = Some b ∧
       VInline.is_inline b = true ∧
       VInline.capacity b = 6 ∧
       VInline.initial_size uint32 4 = 4 ∧
       length (VInline.ptr b) = 4%nat ∧
       ¬ VInline.capacity_invariant uint32 4 b.
Proof.
  exists (VInline.mk VInline.initial_buffer 0 6 [Raw; Raw; Raw; Raw]).
  do 5 (split; [by_evaluation |]).
  intros [_ Heq]. specialize (Heq eq_refl). vm_compute in Heq. discriminate.
Qed.

(** C6 fails on the code: swapping a heap buffer holding [1, 2, 3, 4, 5]
    with an inline buffer holding [9] exchanges the storage but not the
    sizes.  The left buffer keeps size 5 over inline slots of which only the
    first holds an object; the right buffer keeps size 1 over the heap
    allocation, and records capacity 4 for it. *)
Theorem C6_swap_heap_with_inline_keeps_sizes :
  ∃ lhs rhs, swap_heap_with_inline = Some (lhs, rhs) ∧
    VInline.size lhs = 5 ∧ VInline.is_inline lhs = true ∧
    VInline.ptr lhs = [Live 9; Raw; Raw; Raw] ∧
    VInline.elements lhs = None ∧
    VInline.size rhs = 1 ∧ VInline.is_inline rhs = false ∧
    VInline.capacity rhs = 4 ∧
    VInline.ptr rhs = [Live 1; Live 2; Live 3; Live 4; Live 5; Raw] ∧
    VInline.elements rhs = Some [1].
Proof.
  exists (VInline.mk VInline.initial_buffer 5 4 [Live 9; Raw; Raw; Raw]).
  exists (VInline.mk (VInline.heap [Live 1; Live 2; Live 3; Live 4; Live 5; Raw]) 1 4
            [Raw; Raw; Raw; Raw]).
  by_evaluation.
Qed.

(** C7, as the code has it.  In V-inline, [reserve(n)] leaves the size and
    the elements as they are and makes the capacity the larger of its old
    value and [n].  In V-header and V-split, [reserve(n)] is an enlarge-only
    resize: when [n] exceeds the size, the buffer is resized to [n] elements,
    the new ones value-initialised and appended to the old ones, and the
    capacity becomes the larger of its old value and [n]; otherwise nothing
    changes.  (V-split-actual has no [reserve].) *)
Theorem C7_reserve {T : Type} (SZ : size_type) (value_init : T) (n : Z)
    (vs : list T)
    (bi : VInline.new_buffer T) (bh : VHeader.new_buffer T) (bs : VSplit.new_buffer T) :
  0 <= n < modulus SZ →
  VInline.holds SZ bi vs →
  VHeader.holds SZ bh vs →
  VSplit.holds SZ bs vs →
  (∃ bi', VInline.reserve n bi = Some bi' ∧
          VInline.elements bi' = Some vs ∧
          VInline.size bi' = VInline.size bi ∧
          VInline.capacity bi' = Z.max (VInline.capacity bi) n) ∧
  (∃ bh', VHeader.reserve value_init n bh = Some bh' ∧
          VHeader.elements bh' =
            Some (vs ++ replicate (Z.to_nat n - length vs) value_init) ∧
          VHeader.size bh' = Z.max (VHeader.size bh) n ∧
          VHeader.capacity bh' = Z.max (VHeader.capacity bh) n) ∧
  (∃ bs', VSplit.reserve value_init n bs = Some bs' ∧
          VSplit.elements bs' =
            Some (vs ++ replicate (Z.to_nat n - length vs) value_init) ∧
          VSplit.size bs' = Z.max (VSplit.size bs) n ∧
          VSplit.capacity bs' = Z.max (VSplit.capacity bs) n).
Proof.
  intros Hn Hi Hh Hs. split; [| split].
  - destruct (VInlineFacts.inline_reserve_holds SZ bi vs n Hi Hn) as (bi' & ? & Hi' & ? & ?).
    exists bi'. split; [done |]. split; [| done].
    by apply (VInlineFacts.inline_elements_holds SZ).
  - assert (VHeader.size bh = Z.of_nat (length vs) ∧
            Z.of_nat (length vs) <= VHeader.capacity bh) as (Hsize & Hcap).
    { unfold VHeader.holds, VHeader.size, VHeader.capacity in *.
      destruct (VHeader.m_data bh); [lia | by subst vs]. }
    destruct (Z.le_gt_cases n (VHeader.size bh)) as [Hle|Hgt].
    + exists bh. split; [by apply VHeaderFacts.header_reserve_noop |].
      replace (Z.to_nat n - length vs)%nat with 0%nat by lia.
      rewrite app_nil_r. split; [by apply (VHeaderFacts.header_elements_holds SZ) | lia].
    + destruct (VHeaderFacts.header_reserve_grows SZ value_init bh vs n Hh) as (bh' & ? & Hh' & ?);
        [lia |].
      exists bh'. split; [done |].
      split; [by apply (VHeaderFacts.header_elements_holds SZ) |].
      split; [| done].
      unfold VHeader.holds, VHeader.size in *.
      destruct (VHeader.m_data bh') as [a|].
      * destruct Hh' as (-> & _). rewrite length_app, length_replicate. lia.
      * apply (f_equal length) in Hh'. rewrite length_app, length_replicate in Hh'.
        simpl in Hh'. lia.
  - pose proof Hs as (Hsize & Hcap & _).
    destruct (Z.le_gt_cases n (VSplit.size bs)) as [Hle|Hgt].
    + exists bs. split; [by apply VSplitFacts.split_reserve_noop |].
      unfold VSplit.size, VSplit.capacity in *.
      replace (Z.to_nat n - length vs)%nat with 0%nat by lia.
      rewrite app_nil_r. split; [by apply (VSplitFacts.split_elements_holds SZ) | lia].
    + destruct (VSplitFacts.split_reserve_grows SZ value_init bs vs n Hs) as (bs' & ? & Hs' & ?);
        [lia |].
      exists bs'. split; [done |].
      split; [by apply (VSplitFacts.split_elements_holds SZ) |].
      split; [| done].
      destruct Hs' as (Hsize' & _). unfold VSplit.size in *.
      rewrite Hsize', length_app, length_replicate. lia.
Qed.

(** C7 at [reserve(3)] on empty buffers with a 32-bit size type. *)
Lemma C7_reserve_witness :
  (∃ bi', VInline.reserve 3 (VInline.empty_buffer (T:=Z) uint32 2) = Some bi' ∧
          VInline.elements bi' = Some [] ∧ VInline.capacity bi' = 3) ∧
  (∃ bs', VSplit.reserve 0 3 (VSplit.empty_buffer (T:=Z)) = Some bs' ∧
          VSplit.elements bs' = Some [0; 0; 0] ∧ VSplit.size bs' = 3).
Proof.
  destruct (C7_reserve uint32 0 3 []
              (VInline.empty_buffer (T:=Z) uint32 2)
              (VHeader.empty_buffer (T:=Z))
              (VSplit.empty_buffer (T:=Z)))
    as ((bi' & Hi1 & Hi2 & _ & Hi3) & _ & (bs' & Hs1 & Hs2 & Hs3 & _)).
  - vm_compute. split; [discriminate | reflexivity].
  - unfold VInline.holds; simpl. repeat split; try lia; done.
  - done.
  - unfold VSplit.holds; simpl. repeat split; try lia; done.
  - split; [exists bi' | exists bs']; repeat split; assumption.
Defined.

(** C7 as stated fails: on an empty V-split buffer [reserve(3)] changes the
    size from 0 to 3. *)
Lemma C7_reserve_changes_size :
  ∃ b', VSplit.reserve 0 3 (VSplit.empty_buffer (T:=Z)) = Some b' ∧
        VSplit.size b' = 3 ∧
        VSplit.size b' ≠ VSplit.size (VSplit.empty_buffer (T:=Z)) ∧
        VSplit.elements b' ≠ VSplit.elements (VSplit.empty_buffer (T:=Z)).
Proof.
  exists (VSplit.mk (Some [Live 0; Live 0; Live 0]) 3 3). by_evaluation.
Qed.

(** C8 fails on the code: [operator<] and [operator==] are the
    lexicographic order and equality, but [operator<=], [operator>] and
    [operator>=] pass a comparison that is not a strict order to
    [std::lexicographical_compare].  Two empty buffers are equal and not
    [<=]; [1, 5] is [<=] [1, 2] though neither less nor equal; a proper
    prefix is both [<] and [>] its extension. *)
Theorem C8_comparison_operators_disagree :
  (operator_lt [1; 2; 3] [1; 2; 3; 4] = true ∧ operator_eq [1; 2; 3] [1; 2; 3; 4] = false) ∧
  (operator_eq (T:=Z) [] [] = true ∧ operator_le (T:=Z) [] [] = false) ∧
  (operator_le [1; 5] [1; 2] = true ∧ operator_lt [1; 5] [1; 2] = false ∧
   operator_eq [1; 5] [1; 2] = false) ∧
  (operator_gt [1; 2; 3] [1; 2; 3; 4] = true ∧ operator_lt [1; 2; 3; 4] [1; 2; 3] = false) ∧
  (operator_ge [1; 2] [1; 5] = true ∧ operator_lt [1; 5] [1; 2] = false).
Proof. by_evaluation. Qed.

(** C9: [erase(value)] in V-header and V-split, on a buffer that satisfies
    the invariant and holds [vs].  If no element equals [v], it returns
    [end()] (the offset [size()]) and the buffer is unchanged.  If [v]
    occurs, with [l1] the elements before its first occurrence and [l2]
    those after it, it returns the position of that occurrence and leaves
    a buffer holding [l1 ++ l2], one element shorter, that satisfies the
    invariant.  One of the two cases always applies. *)
Theorem C9_erase_by_value {T : Type} `{EqDecision T} (SZ : size_type) (v : T)
    (vs : list T) (bh : VHeader.new_buffer T) (bs : VSplit.new_buffer T) :
  VHeader.holds SZ bh vs →
  VSplit.holds SZ bs vs →
  (v ∉ vs →
     VHeader.erase_value SZ v bh = Some (bh, VHeader.size bh) ∧
     VSplit.erase_value SZ v bs = Some (bs, VSplit.size bs)) ∧
  (∀ l1 l2, vs = l1 ++ v :: l2 → v ∉ l1 →
     (∃ bh', VHeader.erase_value SZ v bh = Some (bh', Z.of_nat (length l1)) ∧
             VHeader.elements bh' = Some (l1 ++ l2) ∧
             VHeader.size bh' = VHeader.size bh - 1 ∧
             VHeader.capacity bh' = VHeader.capacity bh ∧
             VHeader.holds SZ bh' (l1 ++ l2)) ∧
     (∃ bs', VSplit.erase_value SZ v bs = Some (bs', Z.of_nat (length l1)) ∧
             VSplit.elements bs' = Some (l1 ++ l2) ∧
             VSplit.size bs' = VSplit.size bs - 1 ∧
             VSplit.capacity bs' = VSplit.capacity bs ∧
             VSplit.holds SZ bs' (l1 ++ l2))) ∧
  (v ∈ vs → ∃ l1 l2, vs = l1 ++ v :: l2 ∧ v ∉ l1).
Proof.
  intros Hh Hs. split; [| split].
  - intros Hnot. split.
    + by apply (VHeaderFacts.header_erase_value_absent SZ bh vs).
    + by apply (VSplitFacts.split_erase_value_absent SZ bs vs).
  - intros l1 l2 -> Hnot. split.
    + destruct (VHeaderFacts.header_erase_value_first SZ bh l1 l2 v Hh Hnot) as (bh' & ? & Hh' & ?).
      exists bh'. split; [done |].
      split; [by apply (VHeaderFacts.header_elements_holds SZ) |].
      split; [| done].
      unfold VHeader.holds, VHeader.size in *.
      destruct (VHeader.m_data bh) as [a|]; [| by destruct l1].
      destruct (VHeader.m_data bh') as [a'|].
      * destruct Hh as (-> & _), Hh' as (-> & _).
        rewrite !length_app. cbn [length]. lia.
      * apply (f_equal length) in Hh'. destruct Hh as (-> & _).
        rewrite !length_app in *. cbn [length] in *. lia.
    + destruct (VSplitFacts.split_erase_value_first SZ bs l1 l2 v Hs Hnot) as (bs' & ? & Hs' & ?).
      exists bs'. split; [done |].
      split; [by apply (VSplitFacts.split_elements_holds SZ) |].
      split; [| done].
      destruct Hs as (Hsize & _), Hs' as (Hsize' & _). unfold VSplit.size.
      rewrite Hsize, Hsize', !length_app. cbn [length]. lia.
  - apply list_elem_of_split_l.
Qed.

(** C9 at buffers holding [1, 2, 3, 2], erasing the value 2. *)
Lemma C9_erase_by_value_witness :
  ∃ bs', VSplit.erase_value uint32 2 (VSplit.mk (Some (filled [1; 2; 3; 2] 5)) 4 5)
           = Some (bs', 1) ∧
         VSplit.elements bs' = Some [1; 3; 2] ∧
         VSplit.size bs' = 3.
Proof.
  destruct (C9_erase_by_value uint32 2 [1; 2; 3; 2]
              (VHeader.mk (Some (VHeader.mk_allocation 4 5 (filled [1; 2; 3; 2] 5))))
              (VSplit.mk (Some (filled [1; 2; 3; 2] 5)) 4 5))
    as (_ & Hfirst & _).
  - unfold VHeader.holds; simpl. repeat split; try lia; done.
  - unfold VSplit.holds; simpl. repeat split; try lia; done.
  - destruct (Hfirst [1] [3; 2] eq_refl) as (_ & bs' & H1 & H2 & H3 & _).
    + intros Hin. inversion Hin as [|? ? ? Hin']. inversion Hin'.
    + exists bs'. repeat split; assumption.
Defined.

(** Scenario B: erasing the value 500 from a V-split buffer holding
    0, ..., 999 returns the position 500 and leaves 999 elements, the others
    in their order. *)
Lemma scenario_B :
  ∃ b', VSplit.erase_value uint32 500 thousand = Some (b', 500) ∧
        VSplit.size b' = 999 ∧
        VSplit.elements b' = Some (seqZ 0 500 ++ seqZ 501 499).
Proof.
  exists (VSplit.mk (Some (filled (seqZ 0 500 ++ seqZ 501 499) 1000)) 999 1000).
  by_evaluation.
Qed.

(** C10: in every variant, copy assignment of an object to itself returns
    without touching the store: the object keeps its size, its capacity and
    its elements. *)
Theorem C10_self_copy_assignment {T : Type} (SZ : size_type)
    (usable_elements : Z → Z) (a : addr) :
  (∀ st : gmap addr (VInline.new_buffer T), VInline.copy_assign a a st = Some st) ∧
  (∀ st : gmap addr (VHeader.new_buffer T), VHeader.copy_assign a a st = Some st) ∧
  (∀ st : gmap addr (VSplit.new_buffer T), VSplit.copy_assign a a st = Some st) ∧
  (∀ st : gmap addr (VSplitActual.new_buffer T),
     VSplitActual.copy_assign SZ usable_elements a a st = Some st).
Proof.
  repeat split; intros st.
  - unfold VInline.copy_assign. by rewrite decide_False by (intros Hne; by apply Hne).
  - unfold VHeader.copy_assign. by rewrite decide_False by (intros Hne; by apply Hne).
  - unfold VSplit.copy_assign. by rewrite decide_False by (intros Hne; by apply Hne).
  - unfold VSplitActual.copy_assign. by rewrite decide_False by (intros Hne; by apply Hne).
Qed.

(** Copy assignment between two distinct objects does copy: the buffer at
    address 0, holding [9], is assigned the buffer at address 1, holding
    [1, 2]. *)
Lemma copy_assign_distinct_objects :
  VSplit.copy_assign 0%nat 1%nat {[ 0%nat := split_9; 1%nat := split_1_2 ]}
  = Some {[ 0%nat := split_1_2; 1%nat := split_1_2 ]} ∧
  (st ← VInline.copy_assign 0%nat 1%nat
          {[ 0%nat := VInline.empty_buffer uint32 4;
             1%nat := VInline.mk (VInline.heap (filled [1; 2; 3; 4; 5] 6)) 5 6 (allocate 4) ]};
   b ← st !! 0%nat; VInline.elements b) = Some [1; 2; 3; 4; 5].
Proof. by_evaluation. Qed.

(** * Further properties of the code *)

(** Discharges the invariant of a concrete buffer. *)
Ltac holds_by_evaluation :=
  first [unfold VInline.holds | unfold VHeader.holds | unfold VSplit.holds
        | unfold VSplitActual.holds];
  simpl; repeat split; try lia; done.

(** ** The bulk primitives *)

(** X1: [move_around] on a range of objects next to raw slots, where
    source and destination may overlap.  Moving [ws] down over a gap of
    [k + 1] raw slots (the forward loop) and moving it up over such a gap
    (the backward loop) both leave the objects in their order at the
    destination and the slots they no longer cover raw. *)
Theorem move_around_overlapping {T : Type} (pre rest : block T) (k : nat) (ws : list T) :
  move_around (pre ++ replicate (S k) Raw ++ (Live <$> ws) ++ rest)
    (Z.of_nat (length pre)) (Z.of_nat (length pre + S k)) (Z.of_nat (length ws))
  = Some (pre ++ (Live <$> ws) ++ replicate (S k) Raw ++ rest) ∧
  move_around (pre ++ (Live <$> ws) ++ replicate (S k) Raw ++ rest)
    (Z.of_nat (length pre + S k)) (Z.of_nat (length pre)) (Z.of_nat (length ws))
  = Some (pre ++ replicate (S k) Raw ++ (Live <$> ws) ++ rest).
Proof. split; [apply move_around_down | apply move_around_up]. Qed.

(** X2: [destroy(begin, end)] on the storage of a buffer holding [vs].
    From offset [n] to the end of the elements it leaves the first [n]
    elements alive and every other slot raw; with [begin] and [end]
    exchanged the range is empty and nothing is destroyed. *)
Theorem destroy_range {T : Type} (vs : list T) (cap : Z) (n : nat) :
  Z.of_nat (length vs) <= cap → (n <= length vs)%nat →
  destroy (filled vs cap) (Z.of_nat n) (Z.of_nat (length vs)) = filled (take n vs) cap ∧
  destroy (filled vs cap) (Z.of_nat (length vs)) (Z.of_nat n) = filled vs cap.
Proof.
  intros Hcap Hn. split; [by apply destroy_filled_from |].
  apply destroy_empty_range. lia.
Qed.

(** X2 on the storage [1, 2, 3, raw], from offset 1. *)
Lemma destroy_range_witness :
  destroy (filled [1; 2; 3] 4) 1 3 = [Live 1; Raw; Raw; Raw] ∧
  destroy (filled [1; 2; 3] 4) 3 1 = [Live 1; Live 2; Live 3; Raw].
Proof. apply (destroy_range [1; 2; 3] 4 1); simpl; lia. Defined.

(** ** Construction *)

(** X3: the copy constructor of V-header and V-split.  The copy of a
    buffer holding [vs] holds [vs] in an allocation of exactly
    [length vs] slots, whatever the capacity of the source; the copy of an
    empty buffer is null. *)
Theorem copy_construct_exact {T : Type} (SZ : size_type) (vs : list T)
    (bh : VHeader.new_buffer T) (bs : VSplit.new_buffer T) :
  VHeader.holds SZ bh vs →
  VSplit.holds SZ bs vs →
  (∃ this, VHeader.copy_construct bh = Some this ∧ VHeader.holds SZ this vs ∧
           VHeader.capacity this = Z.of_nat (length vs)) ∧
  (∃ this, VSplit.copy_construct bs = Some this ∧ VSplit.holds SZ this vs ∧
           VSplit.capacity this = Z.of_nat (length vs)).
Proof.
  intros Hh Hs. split.
  - by apply VHeaderMore.header_copy_construct_holds.
  - by apply VSplitMore.split_copy_construct_holds.
Qed.

(** X3 at buffers holding [1, 2, 3] with capacity 4. *)
Lemma copy_construct_exact_witness :
  (∃ this, VHeader.copy_construct (VHeader.allocated [1; 2; 3] 4) = Some this ∧
           VHeader.holds uint32 this [1; 2; 3] ∧ VHeader.capacity this = 3) ∧
  (∃ this, VSplit.copy_construct (VSplit.mk (Some (filled [1; 2; 3] 4)) 3 4) = Some this ∧
           VSplit.holds uint32 this [1; 2; 3] ∧ VSplit.capacity this = 3).
Proof.
  apply (copy_construct_exact uint32 [1; 2; 3]); holds_by_evaluation.
Defined.

(** X4: the copy constructor of V-inline.  The copy of a buffer holding
    [vs] holds [vs]; it lives in the inline storage with the inline
    capacity if [length vs <= initial_size], and otherwise in a heap
    allocation of exactly [length vs] slots. *)
Theorem copy_construct_inline {T : Type} (SZ : size_type) (INITIAL_SIZE : Z)
    (vs : list T) (other : VInline.new_buffer T) :
  VInline.holds SZ other vs →
  ∃ this, VInline.copy_construct SZ INITIAL_SIZE other = Some this ∧
          VInline.holds SZ this vs ∧
          VInline.capacity this
            = Z.max (VInline.initial_size SZ INITIAL_SIZE) (Z.of_nat (length vs)) ∧
          VInline.is_inline this
            = bool_decide (Z.of_nat (length vs) <= VInline.initial_size SZ INITIAL_SIZE).
Proof. apply VInlineMore.inline_copy_construct_holds. Qed.

(** X4 with inline capacity 2, copying a buffer that holds [1, 2, 3] on the
    heap. *)
Lemma copy_construct_inline_witness :
  ∃ this, VInline.copy_construct uint32 2
            (VInline.mk (VInline.heap (filled [1; 2; 3] 4)) 3 4 (allocate 2)) = Some this ∧
          VInline.holds uint32 this [1; 2; 3] ∧
          VInline.capacity this = 3 ∧ VInline.is_inline this = false.
Proof.
  apply (copy_construct_inline uint32 2 [1; 2; 3]
           (VInline.mk (VInline.heap (filled [1; 2; 3] 4)) 3 4 (allocate 2))).
  holds_by_evaluation.
Defined.

(** X5: V-split-actual records the capacity the allocator reports.  With
    an allocator that reports at least the requested size, the copy of a
    buffer holding [vs] holds [vs] with capacity
    [usable_elements (length vs)] (null if [vs] is empty), and
    [shrink_to_fit] on a non-empty buffer whose capacity differs from its
    size leaves that capacity too, so that it reallocates on every call
    when the allocator rounds up. *)
Theorem actual_capacity_is_usable_size {T : Type} (SZ : size_type)
    (usable_elements : Z → Z) (vs : list T) (b : VSplitActual.new_buffer T) :
  VSplitActual.holds SZ b vs →
  Z.of_nat (length vs) <= usable_elements (Z.of_nat (length vs)) < modulus SZ →
  (∃ this, VSplitActual.copy_construct SZ usable_elements b = Some this ∧
           VSplitActual.holds SZ this vs ∧
           VSplitActual.capacity this
             = if decide (vs = []) then 0 else usable_elements (Z.of_nat (length vs))) ∧
  (vs ≠ [] →
   ∃ b', VSplitActual.shrink_to_fit SZ usable_elements b = Some b' ∧
         VSplitActual.holds SZ b' vs ∧
         VSplitActual.capacity b'
           = if decide (VSplitActual.capacity b = Z.of_nat (length vs))
             then VSplitActual.capacity b
             else usable_elements (Z.of_nat (length vs))).
Proof.
  intros Hb Husable. split.
  - by apply VSplitActualMore.actual_copy_construct_holds.
  - intros Hne. by apply VSplitActualMore.actual_shrink_to_fit_holds.
Qed.

(** X5 with an allocator that rounds up to a multiple of four elements, on
    a buffer holding [1, 2, 3] with capacity 8. *)
Lemma actual_capacity_is_usable_size_witness :
  ∃ this, VSplitActual.copy_construct uint32 (λ n, 4 * ((n + 3) / 4))
            (VSplitActual.mk (Some (filled [1; 2; 3] 8)) 3 8) = Some this ∧
          VSplitActual.holds uint32 this [1; 2; 3] ∧
          VSplitActual.capacity this = 4.
Proof.
  destruct (actual_capacity_is_usable_size uint32 (λ n, 4 * ((n + 3) / 4)) [1; 2; 3]
              (VSplitActual.mk (Some (filled [1; 2; 3] 8)) 3 8)) as [H _].
  - holds_by_evaluation.
  - split; [vm_compute; discriminate | vm_compute; reflexivity].
  - exact H.
Defined.

(** X6: the constructor from an array in V-header and V-split.  From an
    array whose first [length vs] objects are [vs] it builds a buffer that
    holds [vs] with capacity [length vs]; from a count of zero, a null
    buffer. *)
Theorem construct_from_array_holds {T : Type} (SZ : size_type) (vs : list T)
    (rest : block T) :
  Z.of_nat (length vs) < modulus SZ →
  (∃ this, VHeader.construct_from_array (Z.of_nat (length vs)) ((Live <$> vs) ++ rest)
             = Some this ∧
           VHeader.holds SZ this vs ∧ VHeader.capacity this = Z.of_nat (length vs)) ∧
  (∃ this, VSplit.construct_from_array (Z.of_nat (length vs)) ((Live <$> vs) ++ rest)
             = Some this ∧
           VSplit.holds SZ this vs ∧ VSplit.capacity this = Z.of_nat (length vs)).
Proof.
  intros Hlen. split.
  - by apply VHeaderMore.header_construct_from_array.
  - by apply VSplitMore.split_construct_from_array.
Qed.

(** X6 on the first two objects of the array [7, 8, 9]. *)
Lemma construct_from_array_holds_witness :
  (∃ this, VHeader.construct_from_array 2 [Live 7; Live 8; Live 9] = Some this ∧
           VHeader.holds uint8 this [7; 8] ∧ VHeader.capacity this = 2) ∧
  (∃ this, VSplit.construct_from_array 2 [Live 7; Live 8; Live 9] = Some this ∧
           VSplit.holds uint8 this [7; 8] ∧ VSplit.capacity this = 2).
Proof.
  apply (construct_from_array_holds uint8 [7; 8] [Live 9]). vm_compute. reflexivity.
Defined.

(** X7: the constructor from a count and an element, which the benchmarks
    of [main.cpp] use for their source buffers and follow by
    [assert(source.size() == state.range(0))].  For a count [n] that fits
    the size type the buffer holds [n] copies of the element and its size
    is [n], in V-inline (inline if [n <= initial_size]), V-header and
    V-split. *)
Theorem construct_count_holds {T : Type} (SZ : size_type) (INITIAL_SIZE : Z)
    (n : nat) (v : T) :
  Z.of_nat n < modulus SZ →
  (∃ bi, VInline.construct_count SZ INITIAL_SIZE (Z.of_nat n) v = Some bi ∧
         VInline.holds SZ bi (replicate n v) ∧ VInline.size bi = Z.of_nat n ∧
         VInline.is_inline bi
           = bool_decide (Z.of_nat n <= VInline.initial_size SZ INITIAL_SIZE)) ∧
  (∃ bh, VHeader.construct_count (Z.of_nat n) v = Some bh ∧
         VHeader.holds SZ bh (replicate n v) ∧ VHeader.size bh = Z.of_nat n) ∧
  (∃ bs, VSplit.construct_count (Z.of_nat n) v = Some bs ∧
         VSplit.holds SZ bs (replicate n v) ∧ VSplit.size bs = Z.of_nat n).
Proof.
  intros Hn. split; [| split].
  - destruct (VInlineMore.inline_construct_count_holds SZ INITIAL_SIZE n v Hn)
      as (bi & ? & Hbi & _ & ?).
    exists bi. split; [done |]. split; [done |]. split; [| done].
    destruct Hbi as (Hsize & _). unfold VInline.size. rewrite Hsize.
    by rewrite length_replicate.
  - destruct (VHeaderMore.header_resize_holds SZ VHeader.empty_buffer [] (Z.of_nat n) v)
      as (bh & ? & Hbh & _); [apply VHeaderFacts.header_empty_holds | lia |].
    rewrite take_nil, Nat2Z.id, Nat.sub_0_r in Hbh. cbn [app] in Hbh.
    exists bh. split; [done |]. split; [done |].
    destruct (VHeaderMore.header_size_capacity SZ bh _ Hbh) as [-> _].
    by rewrite length_replicate.
  - destruct (VSplitMore.split_resize_holds SZ VSplit.empty_buffer [] (Z.of_nat n) v)
      as (bs & ? & Hbs & _); [apply VSplitFacts.split_empty_holds | lia |].
    rewrite take_nil, Nat2Z.id, Nat.sub_0_r in Hbs. cbn [app] in Hbs.
    exists bs. split; [done |]. split; [done |].
    destruct Hbs as (Hsize & _). unfold VSplit.size. rewrite Hsize.
    by rewrite length_replicate.
Qed.

(** X7 for three zeros, with inline capacity 16. *)
Lemma construct_count_holds_witness :
  ∃ bi, VInline.construct_count uint32 16 3 0 = Some bi ∧
        VInline.holds uint32 bi [0; 0; 0] ∧ VInline.size bi = 3 ∧
        VInline.is_inline bi = true.
Proof.
  destruct (construct_count_holds (T:=Z) uint32 16 3 0) as [H _].
  - vm_compute. reflexivity.
  - exact H.
Defined.

(** ** Changing the size *)



(** X9: [shrink_to_fit] in V-header and V-split.  It keeps the elements
    and leaves a capacity of exactly [length vs]; an empty buffer becomes
    null; a second call changes nothing. *)
Theorem shrink_to_fit_exact {T : Type} (SZ : size_type) (vs : list T)
    (bh : VHeader.new_buffer T) (bs : VSplit.new_buffer T) :
  VHeader.holds SZ bh vs →
  VSplit.holds SZ bs vs →
  (∃ bh', VHeader.shrink_to_fit bh = Some bh' ∧ VHeader.holds SZ bh' vs ∧
          VHeader.capacity bh' = Z.of_nat (length vs) ∧
          (vs = [] → VHeader.m_data bh' = None) ∧
          VHeader.shrink_to_fit bh' = Some bh') ∧
  (∃ bs', VSplit.shrink_to_fit bs = Some bs' ∧ VSplit.holds SZ bs' vs ∧
          VSplit.capacity bs' = Z.of_nat (length vs) ∧
          (vs = [] → VSplit.m_data bs' = None) ∧
          VSplit.shrink_to_fit bs' = Some bs').
Proof.
  intros Hh Hs. split.
  - by apply VHeaderMore.header_shrink_to_fit_holds.
  - by apply VSplitMore.split_shrink_to_fit_holds.
Qed.

(** X9 at buffers holding [1, 2, 3] with capacity 8. *)
Lemma shrink_to_fit_exact_witness :
  ∃ bs', VSplit.shrink_to_fit (VSplit.mk (Some (filled [1; 2; 3] 8)) 3 8) = Some bs' ∧
         VSplit.holds uint32 bs' [1; 2; 3] ∧ VSplit.capacity bs' = 3.
Proof.
  destruct (shrink_to_fit_exact uint32 [1; 2; 3]
              (VHeader.allocated [1; 2; 3] 8)
              (VSplit.mk (Some (filled [1; 2; 3] 8)) 3 8))
    as (_ & bs' & H1 & H2 & H3 & _).
  - holds_by_evaluation.
  - holds_by_evaluation.
  - exists bs'. split; [exact H1 |]. split; [exact H2 | exact H3].
Defined.

(** X10: [shrink_to_fit] in V-inline, on a buffer whose inline storage has
    its [initial_size] slots.  It never changes the elements or the size.
    With more than [initial_size] elements the result satisfies the
    invariant with a capacity of exactly [length vs], and a second call
    changes nothing. *)
Theorem shrink_to_fit_inline {T : Type} (SZ : size_type) (INITIAL_SIZE : Z)
    (vs : list T) (b : VInline.new_buffer T) :
  VInline.holds SZ b vs →
  VInline.initial_size SZ INITIAL_SIZE <= Z.of_nat (length (VInline.m_initial_buffer b)) →
  ∃ b', VInline.shrink_to_fit SZ INITIAL_SIZE b = Some b' ∧
        VInline.elements b' = Some vs ∧
        VInline.size b' = VInline.size b ∧
        (VInline.initial_size SZ INITIAL_SIZE < Z.of_nat (length vs) →
         VInline.holds SZ b' vs ∧
         VInline.capacity b' = Z.of_nat (length vs) ∧
         VInline.shrink_to_fit SZ INITIAL_SIZE b' = Some b').
Proof.
  intros Hb Hib.
  destruct (Z.le_gt_cases (Z.of_nat (length vs)) (VInline.initial_size SZ INITIAL_SIZE))
    as [Hle|Hgt].
  - destruct (VInlineMore.inline_shrink_to_fit_elements SZ INITIAL_SIZE b vs Hb Hib)
      as (b' & ? & ? & ?).
    exists b'. repeat split; try done; lia.
  - destruct (VInlineMore.inline_shrink_to_fit_large SZ INITIAL_SIZE b vs Hb)
      as (b' & ? & Hb' & ? & ?); [lia |].
    exists b'. split; [done |].
    split; [by apply (VInlineFacts.inline_elements_holds SZ) |].
    split; [| done].
    destruct Hb' as (Hs' & _), Hb as (Hs & _). unfold VInline.size. by rewrite Hs', Hs.
Qed.

(** X10 with inline capacity 2, on a buffer holding [1, 2, 3] in a heap
    allocation of 8 slots. *)
Lemma shrink_to_fit_inline_witness :
  ∃ b', VInline.shrink_to_fit uint32 2
          (VInline.mk (VInline.heap (filled [1; 2; 3] 8)) 3 8 (allocate 2)) = Some b' ∧
        VInline.elements b' = Some [1; 2; 3] ∧ VInline.capacity b' = 3.
Proof.
  destruct (shrink_to_fit_inline uint32 2 [1; 2; 3]
              (VInline.mk (VInline.heap (filled [1; 2; 3] 8)) 3 8 (allocate 2)))
    as (b' & H1 & H2 & _ & H3).
  - holds_by_evaluation.
  - vm_compute. discriminate.
  - exists b'. split; [exact H1 |]. split; [exact H2 |].
    apply H3. vm_compute. reflexivity.
Defined.

(** X11: [shrink(count)] and [set_end(it)] in V-header and V-split, for a
    count or position within the elements.  Both keep the first [n]
    elements and the capacity. *)
Theorem shrink_and_set_end {T : Type} (SZ : size_type) (vs : list T) (n : nat)
    (bh : VHeader.new_buffer T) (bs : VSplit.new_buffer T) :
  (n <= length vs)%nat →
  VHeader.holds SZ bh vs →
  VSplit.holds SZ bs vs →
  (∃ bh', VHeader.shrink (Z.of_nat n) bh = Some bh' ∧
          VHeader.set_end SZ (Z.of_nat n) bh = Some bh' ∧
          VHeader.holds SZ bh' (take n vs) ∧
          VHeader.capacity bh' = VHeader.capacity bh) ∧
  (VSplit.set_end SZ (Z.of_nat n) bs = VSplit.shrink (Z.of_nat n) bs ∧
   VSplit.holds SZ (VSplit.shrink (Z.of_nat n) bs) (take n vs) ∧
   VSplit.capacity (VSplit.shrink (Z.of_nat n) bs) = VSplit.capacity bs).
Proof.
  intros Hn Hh Hs. split.
  - destruct (VHeaderMore.header_shrink_holds SZ bh vs n Hh Hn) as (bh' & Hshrink & ? & ?).
    exists bh'. split; [done |]. split; [| done].
    destruct (VHeaderMore.header_size_capacity SZ bh vs Hh) as [_ Hc].
    rewrite <- Hshrink. unfold VHeader.set_end, VHeader.shrink.
    by rewrite to_SZ_small by lia.
  - split; [| by apply VSplitMore.split_shrink_holds].
    destruct Hs as (_ & Hc & _). unfold VSplit.set_end, VSplit.shrink.
    by rewrite to_SZ_small by lia.
Qed.

(** X11 for [shrink(1)] on buffers holding [1, 2, 3]. *)
Lemma shrink_and_set_end_witness :
  VSplit.holds uint32 (VSplit.shrink 1 (VSplit.mk (Some (filled [1; 2; 3] 4)) 3 4)) [1].
Proof.
  destruct (shrink_and_set_end uint32 [1; 2; 3] 1
              (VHeader.allocated [1; 2; 3] 4)
              (VSplit.mk (Some (filled [1; 2; 3] 4)) 3 4)) as (_ & _ & H & _).
  - simpl. lia.
  - holds_by_evaluation.
  - holds_by_evaluation.
  - exact H.
Defined.

(** ** Element access *)

(** X12: [operator[]], [front()] and [back()] in V-inline, V-header and
    V-split.  On a buffer holding [vs], index [i] reads the [i]-th
    element, [front()] the first and [back()] the last; outside the
    elements (an index of [size()] or more, [front()] or [back()] of an
    empty buffer) there is no object to read. *)
Theorem element_access {T : Type} (SZ : size_type) (vs : list T) (i : nat)
    (bi : VInline.new_buffer T) (bh : VHeader.new_buffer T) (bs : VSplit.new_buffer T) :
  VInline.holds SZ bi vs →
  VHeader.holds SZ bh vs →
  VSplit.holds SZ bs vs →
  (VInline.at_index (Z.of_nat i) bi = vs !! i ∧
   VInline.front bi = head vs ∧ VInline.back bi = last vs) ∧
  (VHeader.at_index (Z.of_nat i) bh = vs !! i ∧
   VHeader.front bh = head vs ∧ VHeader.back bh = last vs) ∧
  (VSplit.at_index (Z.of_nat i) bs = vs !! i ∧
   VSplit.front bs = head vs ∧ VSplit.back bs = last vs).
Proof.
  intros Hi Hh Hs. split; [| split].
  - split; [by apply (VInlineMore.inline_at_index SZ)
           | by apply (VInlineMore.inline_front_back SZ)].
  - split; [by apply (VHeaderMore.header_at_index SZ)
           | by apply (VHeaderMore.header_front_back SZ)].
  - split; [by apply (VSplitMore.split_at_index SZ)
           | by apply (VSplitMore.split_front_back SZ)].
Qed.

(** X12 at buffers holding [1, 2, 3], index 1. *)
Lemma element_access_witness :
  VSplit.at_index 1 (VSplit.mk (Some (filled [1; 2; 3] 4)) 3 4) = Some 2 ∧
  VSplit.front (VSplit.mk (Some (filled [1; 2; 3] 4)) 3 4) = Some 1 ∧
  VSplit.back (VSplit.mk (Some (filled [1; 2; 3] 4)) 3 4) = Some 3.
Proof.
  destruct (element_access uint32 [1; 2; 3] 1
              (VInline.mk VInline.initial_buffer 3 4 (filled [1; 2; 3] 4))
              (VHeader.allocated [1; 2; 3] 4)
              (VSplit.mk (Some (filled [1; 2; 3] 4)) 3 4)) as (_ & _ & H).
  - holds_by_evaluation.
  - holds_by_evaluation.
  - holds_by_evaluation.
  - exact H.
Defined.

(** X13: [set(index, value)] followed by [operator[]], in V-inline,
    V-header and V-split.  For an index within the elements, [set]
    replaces that element only and keeps size and capacity; reading the
    index afterwards gives the value set, reading another index gives what
    it gave before. *)
Theorem set_then_get {T : Type} (SZ : size_type) (vs : list T) (i : nat) (x v : T)
    (bi : VInline.new_buffer T) (bh : VHeader.new_buffer T) (bs : VSplit.new_buffer T) :
  vs !! i = Some x →
  VInline.holds SZ bi vs →
  VHeader.holds SZ bh vs →
  VSplit.holds SZ bs vs →
  (∃ bi', VInline.set (Z.of_nat i) v bi = Some bi' ∧
          VInline.holds SZ bi' (<[i := v]> vs) ∧
          VInline.capacity bi' = VInline.capacity bi ∧
          VInline.at_index (Z.of_nat i) bi' = Some v ∧
          ∀ j : nat, j ≠ i →
            VInline.at_index (Z.of_nat j) bi' = VInline.at_index (Z.of_nat j) bi) ∧
  (∃ bh', VHeader.set (Z.of_nat i) v bh = Some bh' ∧
          VHeader.holds SZ bh' (<[i := v]> vs) ∧
          VHeader.capacity bh' = VHeader.capacity bh ∧
          VHeader.at_index (Z.of_nat i) bh' = Some v ∧
          ∀ j : nat, j ≠ i →
            VHeader.at_index (Z.of_nat j) bh' = VHeader.at_index (Z.of_nat j) bh) ∧
  (∃ bs', VSplit.set (Z.of_nat i) v bs = Some bs' ∧
          VSplit.holds SZ bs' (<[i := v]> vs) ∧
          VSplit.capacity bs' = VSplit.capacity bs ∧
          VSplit.at_index (Z.of_nat i) bs' = Some v ∧
          ∀ j : nat, j ≠ i →
            VSplit.at_index (Z.of_nat j) bs' = VSplit.at_index (Z.of_nat j) bs).
Proof.
  intros Hx Hi Hh Hs. pose proof (lookup_lt_Some _ _ _ Hx) as Hlt. split; [| split].
  - destruct (VInlineMore.inline_set_holds SZ bi vs i x v Hi Hx) as (b' & ? & Hb' & ? & _).
    exists b'. split; [done |]. split; [done |]. split; [done |]. split.
    + rewrite (VInlineMore.inline_at_index SZ b' _ i Hb').
      by apply list_lookup_insert_eq.
    + intros j Hj. rewrite (VInlineMore.inline_at_index SZ b' _ j Hb').
      rewrite (VInlineMore.inline_at_index SZ bi vs j Hi).
      by apply list_lookup_insert_ne.
  - destruct (VHeaderMore.header_set_holds SZ bh vs i x v Hh Hx) as (b' & ? & Hb' & ?).
    exists b'. split; [done |]. split; [done |]. split; [done |]. split.
    + rewrite (VHeaderMore.header_at_index SZ b' _ i Hb').
      by apply list_lookup_insert_eq.
    + intros j Hj. rewrite (VHeaderMore.header_at_index SZ b' _ j Hb').
      rewrite (VHeaderMore.header_at_index SZ bh vs j Hh).
      by apply list_lookup_insert_ne.
  - destruct (VSplitMore.split_set_holds SZ bs vs i x v Hs Hx) as (b' & ? & Hb' & ?).
    exists b'. split; [done |]. split; [done |]. split; [done |]. split.
    + rewrite (VSplitMore.split_at_index SZ b' _ i Hb').
      by apply list_lookup_insert_eq.
    + intros j Hj. rewrite (VSplitMore.split_at_index SZ b' _ j Hb').
      rewrite (VSplitMore.split_at_index SZ bs vs j Hs).
      by apply list_lookup_insert_ne.
Qed.

(** X13 for [set(1, 9)] on buffers holding [1, 2, 3]. *)
Lemma set_then_get_witness :
  ∃ bs', VSplit.set 1 9 (VSplit.mk (Some (filled [1; 2; 3] 4)) 3 4) = Some bs' ∧
         VSplit.holds uint32 bs' [1; 9; 3] ∧ VSplit.at_index 1 bs' = Some 9.
Proof.
  destruct (set_then_get uint32 [1; 2; 3] 1 2 9
              (VInline.mk VInline.initial_buffer 3 4 (filled [1; 2; 3] 4))
              (VHeader.allocated [1; 2; 3] 4)
              (VSplit.mk (Some (filled [1; 2; 3] 4)) 3 4))
    as (_ & _ & bs' & H1 & H2 & _ & H3 & _).
  - reflexivity.
  - holds_by_evaluation.
  - holds_by_evaluation.
  - holds_by_evaluation.
  - exists bs'. split; [exact H1 |]. split; [exact H2 | exact H3].
Defined.

(** X14: [get(index, otherwise)] in V-header and V-split never reads
    outside the elements: it returns the element at an index below
    [size()] and [otherwise] at any other index. *)
Theorem get_or_default {T : Type} (SZ : size_type) (vs : list T) (i : nat)
    (otherwise : T) (bh : VHeader.new_buffer T) (bs : VSplit.new_buffer T) :
  VHeader.holds SZ bh vs →
  VSplit.holds SZ bs vs →
  VHeader.get_or (Z.of_nat i) otherwise bh = Some (default otherwise (vs !! i)) ∧
  VSplit.get_or (Z.of_nat i) otherwise bs = Some (default otherwise (vs !! i)).
Proof.
  intros Hh Hs. split.
  - by apply (VHeaderMore.header_get_or SZ).
  - by apply (VSplitMore.split_get_or SZ).
Qed.

(** X14 at index 5 of buffers holding [1, 2, 3]. *)
Lemma get_or_default_witness :
  VHeader.get_or 5 0 (VHeader.allocated [1; 2; 3] 4) = Some 0 ∧
  VSplit.get_or 5 0 (VSplit.mk (Some (filled [1; 2; 3] 4)) 3 4) = Some 0.
Proof.
  apply (get_or_default uint32 [1; 2; 3] 5 0); holds_by_evaluation.
Defined.

(** X15: [setx(index, value, default_value)] in V-header and V-split, for
    an index whose successor fits the size type.  With both arguments
    objects outside the buffer: within the elements it replaces the
    element at [index]; beyond them it first extends the buffer with
    copies of [default_value] up to [index + 1] elements.  With arguments
    that refer to elements of the buffer itself it does the same as with
    those elements while [index + 1] is within the capacity; beyond the
    capacity [resize] reallocates, and either reference is then read after
    the element it refers to has been destroyed and the storage replaced,
    which has no defined behaviour. *)
Theorem setx_extends {T : Type} (SZ : size_type) (vs : list T) (i : nat)
    (v filler : T) (bh : VHeader.new_buffer T) (bs : VSplit.new_buffer T) :
  Z.of_nat i + 1 < modulus SZ →
  VHeader.holds SZ bh vs →
  VSplit.holds SZ bs vs →
  (∃ bh', VHeader.setx SZ (Z.of_nat i) (object v) (object filler) bh = Some bh' ∧
          VHeader.holds SZ bh' (<[i := v]> (vs ++ replicate (S i - length vs) filler))) ∧
  (∃ bs', VSplit.setx SZ (Z.of_nat i) (object v) (object filler) bs = Some bs' ∧
          VSplit.holds SZ bs' (<[i := v]> (vs ++ replicate (S i - length vs) filler))) ∧
  (∀ value default_value : reference T,
     referent value vs = Some v → referent default_value vs = Some filler →
     (Z.of_nat i + 1 <= VHeader.capacity bh →
      VHeader.setx SZ (Z.of_nat i) value default_value bh
      = VHeader.setx SZ (Z.of_nat i) (object v) (object filler) bh) ∧
     (Z.of_nat i + 1 <= VSplit.capacity bs →
      VSplit.setx SZ (Z.of_nat i) value default_value bs
      = VSplit.setx SZ (Z.of_nat i) (object v) (object filler) bs)) ∧
  (∀ (value default_value : reference T) (index : Z),
     (VHeader.capacity bh < Z.of_nat i + 1 →
      VHeader.setx SZ (Z.of_nat i) (element index) default_value bh = None ∧
      VHeader.setx SZ (Z.of_nat i) value (element index) bh = None) ∧
     (VSplit.capacity bs < Z.of_nat i + 1 →
      VSplit.setx SZ (Z.of_nat i) (element index) default_value bs = None ∧
      VSplit.setx SZ (Z.of_nat i) value (element index) bs = None)).
Proof.
  intros Hfit Hh Hs. split; [| split; [| split]].
  - by apply VHeaderMore.header_setx_holds.
  - by apply VSplitMore.split_setx_holds.
  - intros value default_value Hv Hd. split; intros Hroom.
    + by apply (VHeaderReferences.header_setx_in_place SZ bh vs).
    + by apply (VSplitReferences.split_setx_in_place SZ bs vs).
  - intros value default_value index. split; intros Hover.
    + apply (VHeaderReferences.header_setx_dangling SZ bh vs); [done | lia].
    + apply (VSplitReferences.split_setx_dangling SZ bs vs); [done | lia].
Qed.

(** X15 on buffers holding [1, 2] with capacity 2: [setx(4, 9, 0)] with
    objects, and [setx(4, b[0], 0)]. *)
Lemma setx_extends_witness :
  (∃ bh', VHeader.setx uint8 4 (object 9) (object 0) (VHeader.allocated [1; 2] 2) = Some bh' ∧
          VHeader.holds uint8 bh' [1; 2; 0; 0; 9]) ∧
  (∃ bs', VSplit.setx uint8 4 (object 9) (object 0) (VSplit.mk (Some (filled [1; 2] 2)) 2 2)
            = Some bs' ∧
          VSplit.holds uint8 bs' [1; 2; 0; 0; 9]) ∧
  VSplit.setx uint8 4 (element 0) (object 0) (VSplit.mk (Some (filled [1; 2] 2)) 2 2) = None.
Proof.
  destruct (setx_extends uint8 [1; 2] 4 9 0
              (VHeader.allocated [1; 2] 2)
              (VSplit.mk (Some (filled [1; 2] 2)) 2 2)) as (Hh & Hs & _ & Hnone).
  - vm_compute. reflexivity.
  - holds_by_evaluation.
  - holds_by_evaluation.
  - split; [exact Hh |]. split; [exact Hs |].
    destruct (Hnone (object 0) (object 0) 0) as [_ Hsplit].
    apply Hsplit. reflexivity.
Defined.

(** X16: [contains(element)] in V-header and V-split decides membership in
    the elements. *)
Theorem contains_decides_membership {T : Type} `{EqDecision T} (SZ : size_type)
    (vs : list T) (v : T) (bh : VHeader.new_buffer T) (bs : VSplit.new_buffer T) :
  VHeader.holds SZ bh vs →
  VSplit.holds SZ bs vs →
  VHeader.contains v bh = Some (bool_decide (v ∈ vs)) ∧
  VSplit.contains v bs = Some (bool_decide (v ∈ vs)).
Proof.
  intros Hh Hs. split.
  - by apply (VHeaderMore.header_contains SZ).
  - by apply (VSplitMore.split_contains SZ).
Qed.

(** X16 for the value 3 in buffers holding [1, 2, 3]. *)
Lemma contains_decides_membership_witness :
  VHeader.contains 3 (VHeader.allocated [1; 2; 3] 4) = Some true ∧
  VSplit.contains 3 (VSplit.mk (Some (filled [1; 2; 3] 4)) 3 4) = Some true.
Proof.
  destruct (contains_decides_membership uint32 [1; 2; 3] 3
              (VHeader.allocated [1; 2; 3] 4)
              (VSplit.mk (Some (filled [1; 2; 3] 4)) 3 4)) as [H1 H2].
  - holds_by_evaluation.
  - holds_by_evaluation.
  - split; [exact H1 | exact H2].
Defined.

(** ** Adding and removing elements *)

(** X17: [erase(position)] in V-header and V-split, for a position within
    the elements.  It removes the element at that position, keeps the
    others in their order and the capacity, and returns the position. *)
Theorem erase_at_position {T : Type} (SZ : size_type) (vs : list T) (i : nat) (x : T)
    (bh : VHeader.new_buffer T) (bs : VSplit.new_buffer T) :
  vs !! i = Some x →
  VHeader.holds SZ bh vs →
  VSplit.holds SZ bs vs →
  (∃ bh', VHeader.erase SZ (Z.of_nat i) bh = Some (bh', Z.of_nat i) ∧
          VHeader.holds SZ bh' (delete i vs) ∧
          VHeader.capacity bh' = VHeader.capacity bh) ∧
  (∃ bs', VSplit.erase SZ (Z.of_nat i) bs = Some (bs', Z.of_nat i) ∧
          VSplit.holds SZ bs' (delete i vs) ∧
          VSplit.capacity bs' = VSplit.capacity bs).
Proof.
  intros Hx Hh Hs. split.
  - by apply (VHeaderMore.header_erase_at SZ bh vs i x).
  - by apply (VSplitMore.split_erase_at SZ bs vs i x).
Qed.

(** X17 for the position 1 of buffers holding [1, 2, 3]. *)
Lemma erase_at_position_witness :
  (∃ bh', VHeader.erase uint32 1 (VHeader.allocated [1; 2; 3] 4) = Some (bh', 1) ∧
          VHeader.holds uint32 bh' [1; 3] ∧ VHeader.capacity bh' = 4) ∧
  (∃ bs', VSplit.erase uint32 1 (VSplit.mk (Some (filled [1; 2; 3] 4)) 3 4) = Some (bs', 1) ∧
          VSplit.holds uint32 bs' [1; 3] ∧ VSplit.capacity bs' = 4).
Proof.
  apply (erase_at_position uint32 [1; 2; 3] 1 2).
  - reflexivity.
  - holds_by_evaluation.
  - holds_by_evaluation.
Defined.



(** X19: [append(n, elems)] in V-inline, V-header and V-split, where three
    times the final size fits the size type.  Appending the first [n]
    objects [ws] of an array to a buffer holding [vs] leaves a buffer
    holding [vs ++ ws]; every reallocation on the way succeeds. *)
Theorem append_elements {T : Type} (SZ : size_type) (vs ws : list T) (rest : block T)
    (bi : VInline.new_buffer T) (bh : VHeader.new_buffer T) (bs : VSplit.new_buffer T) :
  3 * Z.of_nat (length vs + length ws) < modulus SZ →
  VInline.holds SZ bi vs →
  VHeader.holds SZ bh vs →
  VSplit.holds SZ bs vs →
  (∃ bi', VInline.append SZ (Z.of_nat (length ws)) ((Live <$> ws) ++ rest) bi = Some bi' ∧
          VInline.holds SZ bi' (vs ++ ws)) ∧
  (∃ bh', VHeader.append SZ (Z.of_nat (length ws)) ((Live <$> ws) ++ rest) bh = Some bh' ∧
          VHeader.holds SZ bh' (vs ++ ws)) ∧
  (∃ bs', VSplit.append SZ (Z.of_nat (length ws)) ((Live <$> ws) ++ rest) bs = Some bs' ∧
          VSplit.holds SZ bs' (vs ++ ws)).
Proof.
  intros Hfit Hi Hh Hs. split; [| split].
  - by apply VInlineMore.inline_append_holds.
  - by apply VHeaderMore.header_append_holds.
  - by apply VSplitMore.split_append_holds.
Qed.

(** X19 for appending [7, 8] to buffers holding [1, 2, 3]. *)
Lemma append_elements_witness :
  ∃ bs', VSplit.append uint32 2 [Live 7; Live 8; Raw]
           (VSplit.mk (Some (filled [1; 2; 3] 3)) 3 3) = Some bs' ∧
         VSplit.holds uint32 bs' [1; 2; 3; 7; 8].
Proof.
  destruct (append_elements uint32 [1; 2; 3] [7; 8] [Raw]
              (VInline.mk VInline.initial_buffer 3 3 (filled [1; 2; 3] 3))
              (VHeader.allocated [1; 2; 3] 3)
              (VSplit.mk (Some (filled [1; 2; 3] 3)) 3 3)) as (_ & _ & H).
  - vm_compute. reflexivity.
  - holds_by_evaluation.
  - holds_by_evaluation.
  - holds_by_evaluation.
  - exact H.
Defined.

(** X20: the two ways of copying that the benchmarks [simple_copy] and
    [simple_pushback_copy] of [main.cpp] time give the same elements.  For
    a source holding [vs], with three times its size below [2 ^ 32], the
    copy constructor gives a buffer of capacity
    [max initial_size (length vs)], and pushing the elements one by one
    into an empty buffer gives a buffer with the same elements whose
    capacity is at least that. *)
Theorem pushback_copy_agrees_with_copy (INITIAL_SIZE : Z) (vs : list Z)
    (source : VInline.new_buffer Z) :
  VInline.holds uint32 source vs →
  3 * Z.of_nat (length vs) < modulus uint32 →
  ∃ d1 d2, simple_copy INITIAL_SIZE source = Some d1 ∧
           simple_pushback_copy INITIAL_SIZE source = Some d2 ∧
           VInline.elements d1 = Some vs ∧
           VInline.elements d2 = Some vs ∧
           VInline.capacity d1
             = Z.max (VInline.initial_size uint32 INITIAL_SIZE) (Z.of_nat (length vs)) ∧
           VInline.capacity d1 <= VInline.capacity d2.
Proof.
  intros Hsource Hfit.
  destruct (VInlineMore.inline_copy_construct_holds uint32 INITIAL_SIZE source vs Hsource)
    as (d1 & Hcopy & Hd1 & Hcap1 & _).
  destruct (push_all_holds uint32 vs (VInline.empty_buffer uint32 INITIAL_SIZE) [])
    as (d2 & Hpush & Hd2 & Hcap2);
    [apply VInlineFacts.inline_empty_holds | simpl; lia |].
  exists d1, d2. split; [exact Hcopy |]. split.
  { unfold simple_pushback_copy.
    by rewrite (VInlineFacts.inline_elements_holds uint32 source vs Hsource). }
  split; [by apply (VInlineFacts.inline_elements_holds uint32) |].
  split; [by apply (VInlineFacts.inline_elements_holds uint32) |].
  split; [done |].
  destruct Hd2 as (_ & Hc2 & _). simpl in Hc2, Hcap2.
  unfold VInline.capacity in *. simpl in Hcap2. lia.
Qed.

(** X20 with inline capacity 16, for a source holding [1, 2, 3]. *)
Lemma pushback_copy_agrees_with_copy_witness :
  ∃ d1 d2, simple_copy 16 (VInline.mk VInline.initial_buffer 3 16 (filled [1; 2; 3] 16))
             = Some d1 ∧
           simple_pushback_copy 16
             (VInline.mk VInline.initial_buffer 3 16 (filled [1; 2; 3] 16)) = Some d2 ∧
           VInline.elements d1 = Some [1; 2; 3] ∧
           VInline.elements d2 = Some [1; 2; 3].
Proof.
  destruct (pushback_copy_agrees_with_copy 16 [1; 2; 3]
              (VInline.mk VInline.initial_buffer 3 16 (filled [1; 2; 3] 16)))
    as (d1 & d2 & H1 & H2 & H3 & H4 & _).
  - holds_by_evaluation.
  - vm_compute. reflexivity.
  - exists d1, d2. split; [exact H1 |]. split; [exact H2 |]. split; [exact H3 | exact H4].
Defined.

(** ** Rearranging and overwriting *)

(** X21: [reverse()] in V-header and V-split reverses the elements in
    place, and reversing twice restores them. *)
Theorem reverse_elements {T : Type} (SZ : size_type) (vs : list T)
    (bh : VHeader.new_buffer T) (bs : VSplit.new_buffer T) :
  VHeader.holds SZ bh vs →
  VSplit.holds SZ bs vs →
  (∃ bh' bh'', VHeader.reverse bh = Some bh' ∧ VHeader.holds SZ bh' (rev vs) ∧
               VHeader.capacity bh' = VHeader.capacity bh ∧
               VHeader.reverse bh' = Some bh'' ∧ VHeader.holds SZ bh'' vs) ∧
  (∃ bs' bs'', VSplit.reverse bs = Some bs' ∧ VSplit.holds SZ bs' (rev vs) ∧
               VSplit.capacity bs' = VSplit.capacity bs ∧
               VSplit.reverse bs' = Some bs'' ∧ VSplit.holds SZ bs'' vs).
Proof.
  intros Hh Hs. split.
  - destruct (VHeaderMore.header_reverse_holds SZ bh vs Hh) as (b' & ? & Hb' & ?).
    destruct (VHeaderMore.header_reverse_holds SZ b' _ Hb') as (b'' & ? & Hb'' & _).
    rewrite rev_involutive in Hb''. by exists b', b''.
  - destruct (VSplitMore.split_reverse_holds SZ bs vs Hs) as (b' & ? & Hb' & ?).
    destruct (VSplitMore.split_reverse_holds SZ b' _ Hb') as (b'' & ? & Hb'' & _).
    rewrite rev_involutive in Hb''. by exists b', b''.
Qed.

(** X21 at buffers holding [1, 2, 3]. *)
Lemma reverse_elements_witness :
  ∃ bs', VSplit.reverse (VSplit.mk (Some (filled [1; 2; 3] 4)) 3 4) = Some bs' ∧
         VSplit.holds uint32 bs' [3; 2; 1].
Proof.
  destruct (reverse_elements uint32 [1; 2; 3]
              (VHeader.allocated [1; 2; 3] 4)
              (VSplit.mk (Some (filled [1; 2; 3] 4)) 3 4))
    as (_ & bs' & _ & H1 & H2 & _).
  - holds_by_evaluation.
  - holds_by_evaluation.
  - exists bs'. split; [exact H1 | exact H2].
Defined.

(** X22: [fill(elem)] in V-header and V-split overwrites every element
    with [elem] and keeps size and capacity. *)
Theorem fill_elements {T : Type} (SZ : size_type) (vs : list T) (v : T)
    (bh : VHeader.new_buffer T) (bs : VSplit.new_buffer T) :
  VHeader.holds SZ bh vs →
  VSplit.holds SZ bs vs →
  (∃ bh', VHeader.fill v bh = Some bh' ∧
          VHeader.holds SZ bh' (replicate (length vs) v) ∧
          VHeader.capacity bh' = VHeader.capacity bh) ∧
  (∃ bs', VSplit.fill v bs = Some bs' ∧
          VSplit.holds SZ bs' (replicate (length vs) v) ∧
          VSplit.capacity bs' = VSplit.capacity bs).
Proof.
  intros Hh Hs. split.
  - by apply VHeaderMore.header_fill_holds.
  - by apply VSplitMore.split_fill_holds.
Qed.

(** X22 for [fill(7)] on buffers holding [1, 2, 3]. *)
Lemma fill_elements_witness :
  (∃ bh', VHeader.fill 7 (VHeader.allocated [1; 2; 3] 4) = Some bh' ∧
          VHeader.holds uint32 bh' [7; 7; 7] ∧ VHeader.capacity bh' = 4) ∧
  (∃ bs', VSplit.fill 7 (VSplit.mk (Some (filled [1; 2; 3] 4)) 3 4) = Some bs' ∧
          VSplit.holds uint32 bs' [7; 7; 7] ∧ VSplit.capacity bs' = 4).
Proof.
  apply (fill_elements uint32 [1; 2; 3] 7); holds_by_evaluation.
Defined.

(** ** Copy assignment and release *)

(** X23: copy assignment between two distinct objects, in V-header and
    V-split.  The target ends up holding the elements of the source, in a
    new allocation of exactly [length vs] slots, or with the capacity it
    had if the source is empty; the source and every other object are
    unchanged. *)
Theorem copy_assign_between_objects {T : Type} (SZ : size_type)
    (this other : addr) (ws vs : list T)
    (sth : gmap addr (VHeader.new_buffer T)) (ah bh : VHeader.new_buffer T)
    (sts : gmap addr (VSplit.new_buffer T)) (a_s b_s : VSplit.new_buffer T) :
  this ≠ other →
  sth !! this = Some ah → sth !! other = Some bh →
  VHeader.holds SZ ah ws → VHeader.holds SZ bh vs →
  sts !! this = Some a_s → sts !! other = Some b_s →
  VSplit.holds SZ a_s ws → VSplit.holds SZ b_s vs →
  (∃ a', VHeader.copy_assign this other sth = Some (<[this := a']> sth) ∧
         VHeader.holds SZ a' vs ∧
         VHeader.capacity a'
           = if decide (vs = []) then VHeader.capacity ah else Z.of_nat (length vs)) ∧
  (∃ a', VSplit.copy_assign this other sts = Some (<[this := a']> sts) ∧
         VSplit.holds SZ a' vs ∧
         VSplit.capacity a'
           = if decide (vs = []) then VSplit.capacity a_s else Z.of_nat (length vs)).
Proof.
  intros Hne Hah Hbh Hha Hhb Has Hbs Hsa Hsb. split.
  - by apply (VHeaderMore.header_copy_assign_holds SZ this other sth ah bh ws vs).
  - by apply (VSplitMore.split_copy_assign_holds SZ this other sts a_s b_s ws vs).
Qed.

(** X23 for a target holding [9] and a source holding [1, 2]. *)
Lemma copy_assign_between_objects_witness :
  ∃ a', VSplit.copy_assign 0%nat 1%nat {[ 0%nat := split_9; 1%nat := split_1_2 ]}
          = Some (<[0%nat := a']> {[ 0%nat := split_9; 1%nat := split_1_2 ]}) ∧
        VSplit.holds uint32 a' [1; 2].
Proof.
  destruct (copy_assign_between_objects uint32 0%nat 1%nat [9] [1; 2]
              {[ 0%nat := VHeader.allocated [9] 1; 1%nat := VHeader.allocated [1; 2] 2 ]}
              (VHeader.allocated [9] 1) (VHeader.allocated [1; 2] 2)
              {[ 0%nat := split_9; 1%nat := split_1_2 ]} split_9 split_1_2)
    as (_ & a' & H1 & H2 & _).
  - discriminate.
  - reflexivity.
  - reflexivity.
  - holds_by_evaluation.
  - holds_by_evaluation.
  - reflexivity.
  - reflexivity.
  - holds_by_evaluation.
  - holds_by_evaluation.
  - exists a'. split; [exact H1 | exact H2].
Defined.

(** X24: copy assignment between two distinct objects in V-inline.  The
    target ends up holding the elements of the source; it keeps its
    storage if that has room for them and otherwise moves to a heap
    allocation of exactly [length vs] slots, so its capacity never
    shrinks.  The source and every other object are unchanged. *)
Theorem copy_assign_inline_holds {T : Type} (SZ : size_type) (this other : addr)
    (ws vs : list T) (st : gmap addr (VInline.new_buffer T))
    (a b : VInline.new_buffer T) :
  this ≠ other →
  st !! this = Some a → st !! other = Some b →
  VInline.holds SZ a ws → VInline.holds SZ b vs →
  ∃ a', VInline.copy_assign this other st = Some (<[this := a']> st) ∧
        VInline.holds SZ a' vs ∧
        VInline.capacity a' = Z.max (VInline.capacity a) (Z.of_nat (length vs)).
Proof. apply VInlineMore.inline_copy_assign_holds. Qed.

(** X24 for an empty target with inline capacity 2 and a source holding
    [1, 2, 3]. *)
Lemma copy_assign_inline_holds_witness :
  ∃ a', VInline.copy_assign 0%nat 1%nat
          {[ 0%nat := VInline.empty_buffer uint32 2;
             1%nat := VInline.mk (VInline.heap (filled [1; 2; 3] 4)) 3 4 (allocate 2) ]}
        = Some (<[0%nat := a']>
                  {[ 0%nat := VInline.empty_buffer uint32 2;
                     1%nat := VInline.mk (VInline.heap (filled [1; 2; 3] 4)) 3 4
                                (allocate 2) ]}) ∧
        VInline.holds uint32 a' [1; 2; 3] ∧
        VInline.capacity a' = 3.
Proof.
  apply (copy_assign_inline_holds uint32 0%nat 1%nat [] [1; 2; 3] _
           (VInline.empty_buffer uint32 2)
           (VInline.mk (VInline.heap (filled [1; 2; 3] 4)) 3 4 (allocate 2))).
  - discriminate.
  - reflexivity.
  - reflexivity.
  - holds_by_evaluation.
  - holds_by_evaluation.
Defined.

(** X25: [clear()] and [finalize()] in V-header and V-split.  [clear()]
    destroys the elements and keeps the allocation and its capacity;
    [finalize()] also releases the allocation: whatever the buffer held,
    the result is the null buffer a default constructor gives. *)
Theorem clear_keeps_and_finalize_releases {T : Type} (SZ : size_type) (vs : list T)
    (bh : VHeader.new_buffer T) (bs : VSplit.new_buffer T) :
  VHeader.holds SZ bh vs →
  VSplit.holds SZ bs vs →
  (VHeader.holds SZ (VHeader.clear bh) [] ∧
   VHeader.capacity (VHeader.clear bh) = VHeader.capacity bh ∧
   VHeader.finalize bh = Some VHeader.empty_buffer) ∧
  (VSplit.holds SZ (VSplit.clear bs) [] ∧
   VSplit.capacity (VSplit.clear bs) = VSplit.capacity bs ∧
   VSplit.finalize bs = Some VSplit.empty_buffer).
Proof.
  intros Hh Hs. split.
  - destruct (VHeaderMore.header_clear_holds SZ bh vs Hh) as [? ?].
    split; [done |]. split; [done |].
    by apply (FinalizeFacts.header_finalize_null SZ bh vs).
  - destruct (VSplitMore.split_clear_holds SZ bs vs Hs) as [? ?].
    split; [done |]. split; [done |].
    by apply (FinalizeFacts.split_finalize_null SZ bs vs).
Qed.

(** X25 at buffers holding [1, 2, 3] with capacity 4. *)
Lemma clear_keeps_and_finalize_releases_witness :
  VSplit.capacity (VSplit.clear (VSplit.mk (Some (filled [1; 2; 3] 4)) 3 4)) = 4 ∧
  VSplit.finalize (VSplit.mk (Some (filled [1; 2; 3] 4)) 3 4) = Some (VSplit.mk None 0 0).
Proof.
  destruct (clear_keeps_and_finalize_releases uint32 [1; 2; 3]
              (VHeader.allocated [1; 2; 3] 4)
              (VSplit.mk (Some (filled [1; 2; 3] 4)) 3 4)) as (_ & _ & H1 & H2).
  - holds_by_evaluation.
  - holds_by_evaluation.
  - split; [exact H1 | exact H2].
Defined.

(** ** Comparison and hashing *)

(** X26: [operator==] decides equality of the element sequences, and
    [operator!=] is its negation. *)
Theorem operator_eq_decides_equality (lhs rhs : list Z) :
  (operator_eq lhs rhs = true ↔ lhs = rhs) ∧
  (operator_ne lhs rhs = true ↔ lhs ≠ rhs).
Proof.
  split; [apply operator_eq_iff |].
  unfold operator_ne. rewrite negb_true_iff, <- not_true_iff_false.
  by rewrite operator_eq_iff.
Qed.

(** X27: [operator<] is a strict total order on sequences of integers: no
    sequence is less than itself, the relation is transitive, and of two
    sequences exactly one is less than the other unless they are equal. *)
Theorem operator_lt_strict_total_order (a b c : list Z) :
  operator_lt a a = false ∧
  (operator_lt a b = true → operator_lt b c = true → operator_lt a c = true) ∧
  (operator_lt a b = true ∨ a = b ∨ operator_lt b a = true) ∧
  (operator_lt a b = true → operator_lt b a = false).
Proof.
  split; [| split; [| split]].
  - apply operator_lt_false_iff, lex_lt_irrefl.
  - rewrite !operator_lt_iff. apply lex_lt_trans.
  - rewrite !operator_lt_iff. apply lex_lt_trichotomy.
  - rewrite operator_lt_iff, operator_lt_false_iff. intros Hab Hba.
    apply (lex_lt_irrefl a). by apply (lex_lt_trans a b a).
Qed.

(** X28: [operator<=] and [operator>=] never look past the first
    elements: on two non-empty sequences the result is the comparison of
    the first elements, an empty sequence is [<=] and [>=] every non-empty
    one, and nothing is [<=] or [>=] an empty sequence. *)
Theorem operator_le_ge_first_elements (x y : Z) (l r : list Z) :
  operator_le (x :: l) (y :: r) = (x <=? y) ∧
  operator_ge (x :: l) (y :: r) = (x >=? y) ∧
  operator_le [] (y :: r) = true ∧ operator_ge [] (y :: r) = true ∧
  operator_le l [] = false ∧ operator_ge l [] = false.
Proof.
  split; [apply operator_le_cons |]. split; [apply operator_ge_cons |].
  by destruct l.
Qed.

(** X29: on sequences of equal length [operator>] is the converse of
    [operator<]. *)
Theorem operator_gt_is_converse_lt (l r : list Z) :
  length l = length r → operator_gt l r = operator_lt r l.
Proof. apply operator_gt_converse. Qed.

(** X29 at [1, 5] and [1, 2]. *)
Lemma operator_gt_is_converse_lt_witness :
  operator_gt [1; 5] [1; 2] = operator_lt [1; 2] [1; 5].
Proof. apply (operator_gt_is_converse_lt [1; 5] [1; 2]). reflexivity. Defined.

(** X30: [std::hash<new_buffer>], for hash functions of the size and of
    the elements with values in [std::size_t].  The result is a value of
    [std::size_t], and it tells apart two buffers that differ in one
    element only, whenever the hashes of the two elements differ. *)
Theorem hash_separates_one_element {T : Type} (hash_size : Z → Z) (hasher : T → Z)
    (pre post : list T) (x y : T) :
  (∀ n, 0 <= hash_size n < 2 ^ 64) →
  (∀ e, 0 <= hasher e < 2 ^ 64) →
  hasher x ≠ hasher y →
  0 <= Hash.hash hash_size hasher (pre ++ x :: post) < 2 ^ 64 ∧
  Hash.hash hash_size hasher (pre ++ x :: post)
    ≠ Hash.hash hash_size hasher (pre ++ y :: post).
Proof.
  intros Hsize Hhasher Hxy. unfold Hash.hash. split.
  - by apply foldl_hash_step_range.
  - rewrite !length_app. cbn [length]. rewrite !foldl_app. cbn [foldl].
    intros Heq.
    apply (foldl_hash_step_inj hasher Hhasher) in Heq;
      [| apply hash_step_range; [done | by apply foldl_hash_step_range]
       | apply hash_step_range; [done | by apply foldl_hash_step_range]].
    unfold Hash.hash_step in Heq. apply Hxy.
    apply (f_equal (Z.lxor (Hash.rotate
             (foldl (Hash.hash_step hasher)
                (hash_size (Z.of_nat (length pre + S (length post)))) pre)))) in Heq.
    by rewrite <- !Z.lxor_assoc, !Z.lxor_nilpotent, !Z.lxor_0_l in Heq.
Qed.

(** X30 for the buffers [1, 2, 3] and [1, 7, 3] of integers, each hashed
    to itself. *)
Lemma hash_separates_one_element_witness :
  0 <= Hash.hash (λ n, n mod 2 ^ 64) (λ e : Z, e mod 2 ^ 64) [1; 2; 3] < 2 ^ 64 ∧
  Hash.hash (λ n, n mod 2 ^ 64) (λ e : Z, e mod 2 ^ 64) [1; 2; 3]
    ≠ Hash.hash (λ n, n mod 2 ^ 64) (λ e : Z, e mod 2 ^ 64) [1; 7; 3].
Proof.
  apply (hash_separates_one_element (λ n, n mod 2 ^ 64) (λ e : Z, e mod 2 ^ 64)
           [1] [3] 2 7).
  - intros n. apply Z.mod_pos_bound. reflexivity.
  - intros e. apply Z.mod_pos_bound. reflexivity.
  - vm_compute. discriminate.
Defined.
